(** * ReviewCache: a two-tier review-result cache

    Shallow embedding of [pkg/cache] (type [ReviewCache]) of ai-cr-tool:
    the fingerprint function, the in-memory LRU tier, the sharded on-disk
    tier, the cleanup pass and the batch operations, followed by the
    properties the specification states about them.

    Conventions of the model.
    - A Go [string] is a sequence of bytes: [string]. Integers, instants
      and durations are in [Z], without wrap-around.
    - The [*CacheItem] values carried by the elements of the LRU list live
      in a heap indexed by pointers; the map [memCache] and the list [lru]
      hold pointers, so that a write through one is seen through the other.
    - The cache directory is a tree of depth two. The only failures of the
      [os] calls are those the tree itself produces (no such file, a
      directory where a file is expected and conversely); permissions and
      full disks are left out.
    - [time.Now()] is an oracle: the state counts the readings taken and
      [clock n] is the [n]-th of them.
    - A call runs to its end before the next one starts. The hourly
      cleanup routine is a call of [Clear] between two other calls, and the
      batch operations take their items in the order of the list.

    The development then covers the code around the cache: the flat
    version of the cache that the file still carries (module [Flat]), the
    helpers of the report generator ([summarizeSuggestions],
    [getUniqueFiles], the tables and the snippet block of
    [generateMarkdown], [extractFileDiff]), the model manager of
    [pkg/model] as [main] and the pre-push hook use it (module [Model]),
    the validation of the command line (module [Cli]) and the parser of the
    pre-push hook.
    - The order in which [range] visits a map and the order [sort.Slice]
      leaves between equal elements are parameters of the statements.
    - A [float64] is a binary64 floating-point number ([float]).
    - A nil pointer dereference and an index out of range are results of
      their own, so that their absence is a statement. *)

From Stdlib Require Import ZArith Ascii String List Lia PrimFloat.
From stdpp Require Import gmap strings list sorting.

Open Scope Z_scope.

(** ** The fingerprint: [sha256.Sum256] rendered with ["%x"] *)

Module Sha256.

Definition w32 (x : Z) : Z := Z.land x 4294967295.
Definition add32 (a b : Z) : Z := w32 (a + b).
Definition rotr (n x : Z) : Z :=
  Z.lor (Z.shiftr x n) (w32 (Z.shiftl x (32 - n))).
Definition not32 (x : Z) : Z := Z.lxor x 4294967295.

Definition Ch (x y z : Z) : Z := Z.lxor (Z.land x y) (Z.land (not32 x) z).
Definition Maj (x y z : Z) : Z :=
  Z.lxor (Z.lxor (Z.land x y) (Z.land x z)) (Z.land y z).
Definition bsig0 (x : Z) : Z :=
  Z.lxor (Z.lxor (rotr 2 x) (rotr 13 x)) (rotr 22 x).
Definition bsig1 (x : Z) : Z :=
  Z.lxor (Z.lxor (rotr 6 x) (rotr 11 x)) (rotr 25 x).
Definition ssig0 (x : Z) : Z :=
  Z.lxor (Z.lxor (rotr 7 x) (rotr 18 x)) (Z.shiftr x 3).
Definition ssig1 (x : Z) : Z :=
  Z.lxor (Z.lxor (rotr 17 x) (rotr 19 x)) (Z.shiftr x 10).

(** The round constants and the initial chaining value are taken from the
    first primes: the first 32 bits of the fractional part of their cube
    roots and of their square roots. *)
Definition primes : list Z :=
  [2; 3; 5; 7; 11; 13; 17; 19; 23; 29; 31; 37; 41; 43; 47; 53; 59; 61; 67;
   71; 73; 79; 83; 89; 97; 101; 103; 107; 109; 113; 127; 131; 137; 139; 149;
   151; 157; 163; 167; 173; 179; 181; 191; 193; 197; 199; 211; 223; 227;
   229; 233; 239; 241; 251; 257; 263; 269; 271; 277; 281; 283; 293; 307;
   311].

(** Integer cube root, one bit at a time from bit [b - 1] down. *)
Fixpoint icbrt (b : nat) (r n : Z) : Z :=
  match b with
  | O => r
  | S b' =>
      let c := r + Z.shiftl 1 (Z.of_nat b') in
      icbrt b' (if c * c * c <=? n then c else r) n
  end.

Definition K : list Z :=
  map (fun p => w32 (icbrt 36 0 (Z.shiftl p 96))) primes.

(** The eight chaining words. *)
Record digest := Digest {
  h0 : Z; h1 : Z; h2 : Z; h3 : Z; h4 : Z; h5 : Z; h6 : Z; h7 : Z }.

Definition frac_sqrt (p : Z) : Z := w32 (Z.sqrt (Z.shiftl p 64)).

Definition init : digest :=
  Digest (frac_sqrt 2) (frac_sqrt 3) (frac_sqrt 5) (frac_sqrt 7)
         (frac_sqrt 11) (frac_sqrt 13) (frac_sqrt 17) (frac_sqrt 19).

Definition bytes_of_string (s : string) : list Z :=
  map (fun a => Z.of_N (N_of_ascii a)) (list_ascii_of_string s).

(** Big-endian bytes of the low [8 * n] bits of [x]. *)
Fixpoint be_bytes (n : nat) (x : Z) : list Z :=
  match n with
  | O => []
  | S n' => Z.land (Z.shiftr x (8 * Z.of_nat n')) 255 :: be_bytes n' x
  end.

Definition pad (msg : list Z) : list Z :=
  let len := Z.of_nat (length msg) in
  msg ++ 128 :: repeat 0 (Z.to_nat ((55 - len) mod 64))
      ++ be_bytes 8 (8 * len).

Fixpoint words (l : list Z) : list Z :=
  match l with
  | a :: b :: c :: d :: t =>
      (Z.shiftl a 24 + Z.shiftl b 16 + Z.shiftl c 8 + d) :: words t
  | _ => []
  end.

Fixpoint chunks (n : nat) (l : list Z) : list (list Z) :=
  match n with
  | O => []
  | S n' => firstn 64 l :: chunks n' (skipn 64 l)
  end.

(** Message schedule: [win] holds the last sixteen words, oldest first. *)
Fixpoint schedule (n : nat) (win : list Z) : list Z :=
  match n with
  | O => []
  | S n' =>
      let w := add32 (add32 (ssig1 (nth 14 win 0)) (nth 9 win 0))
                     (add32 (ssig0 (nth 1 win 0)) (nth 0 win 0)) in
      w :: schedule n' (tl win ++ [w])
  end.

Definition round (st : digest) (kw : Z * Z) : digest :=
  let '(Digest a b c d e f g h) := st in
  let t1 := add32 (add32 (add32 h (bsig1 e)) (add32 (Ch e f g) (fst kw)))
                  (snd kw) in
  let t2 := add32 (bsig0 a) (Maj a b c) in
  Digest (add32 t1 t2) a b c (add32 d t1) e f g.

Definition compress (st : digest) (block : list Z) : digest :=
  let w16 := words block in
  let w := w16 ++ schedule 48 w16 in
  let '(Digest a b c d e f g h) := fold_left round (combine K w) st in
  Digest (add32 (h0 st) a) (add32 (h1 st) b) (add32 (h2 st) c)
         (add32 (h3 st) d) (add32 (h4 st) e) (add32 (h5 st) f)
         (add32 (h6 st) g) (add32 (h7 st) h).

Definition final (msg : list Z) : digest :=
  let p := pad msg in
  fold_left compress (chunks (Nat.div (length p) 64) p) init.

(** [sha256.Sum256]: the 32 bytes of the digest. *)
Definition Sum256 (content : string) : list Z :=
  let '(Digest a b c d e f g h) := final (bytes_of_string content) in
  be_bytes 4 a ++ be_bytes 4 b ++ be_bytes 4 c ++ be_bytes 4 d ++
  be_bytes 4 e ++ be_bytes 4 f ++ be_bytes 4 g ++ be_bytes 4 h.

End Sha256.

(** ** [fmt] verbs used by the cache *)

Definition hex_digit (d : Z) : ascii :=
  match d with
  | 0 => "0" | 1 => "1" | 2 => "2" | 3 => "3" | 4 => "4" | 5 => "5"
  | 6 => "6" | 7 => "7" | 8 => "8" | 9 => "9" | 10 => "a" | 11 => "b"
  | 12 => "c" | 13 => "d" | 14 => "e" | _ => "f"
  end%char.

(** ["%x"] applied to a byte slice: two lowercase digits per byte. *)
Fixpoint fmt_x_bytes (bs : list Z) : string :=
  match bs with
  | [] => EmptyString
  | b :: t =>
      String (hex_digit (Z.land (Z.shiftr b 4) 15))
             (String (hex_digit (Z.land b 15)) (fmt_x_bytes t))
  end.

(** ["%x"] applied to a non-negative integer: no leading zeros. *)
Fixpoint fmt_x_go (fuel : nat) (n : Z) (acc : string) : string :=
  match fuel with
  | O => acc
  | S f =>
      let acc' := String (hex_digit (Z.land n 15)) acc in
      if Z.shiftr n 4 =? 0 then acc' else fmt_x_go f (Z.shiftr n 4) acc'
  end.

Definition fmt_x (n : Z) : string :=
  fmt_x_go (S (Z.to_nat (Z.log2 n))) n EmptyString.

(** ["%02x"]: the same, left-padded with zeros to width two. *)
Definition fmt_02x (n : Z) : string :=
  let s := fmt_x n in
  if Nat.ltb (String.length s) 2 then String "0"%char s else s.

(** [hashContent]: the hex rendering of the SHA-256 digest of the content. *)
Definition hashContent (content : string) : string :=
  fmt_x_bytes (Sha256.Sum256 content).

(** ** Data model *)

(** [time.Time] is an instant and [time.Duration] a number of nanoseconds.
    Both are unbounded integers; the saturation of [int64] durations (about
    292 years) is outside every execution considered here. *)
Definition Time := Z.
Definition Duration := Z.
Definition Hour : Duration := 3600 * 1000000000.

Definition After (t u : Time) : bool := u <? t.
Definition Add (t : Time) (d : Duration) : Time := t + d.

Record CacheItem := mkCacheItem {
  ContentHash : string;
  ReviewResult : string;
  CachedAt : Time;
  ExpireAt : option Time;
  LastAccessed : Time }.

Definition touch (t : Time) (it : CacheItem) : CacheItem :=
  mkCacheItem (ContentHash it) (ReviewResult it) (CachedAt it) (ExpireAt it) t.

(** A regular file, seen through the two observations the cache makes of
    its bytes: what [json.Unmarshal] decodes them to ([None] when they do
    not parse) and their length as reported by [Info().Size()]. *)
Record File := mkFile { decoded : option CacheItem; Size : N }.

(** The cache directory has depth two: the root holds files and shard
    directories, a shard holds files (and possibly directories, whose
    content the cache never looks at). *)
Inductive Entry := EFile (f : File) | ESubdir.
Inductive Node := NFile (f : File) | NDir (d : gmap string Entry).

Inductive error :=
| ENOENT                       (* os: no such file or directory *)
| EISDIR                       (* os: is a directory *)
| ENOTDIR                      (* os: not a directory *)
| ErrUnmarshal                 (* json.Unmarshal failed *)
| ErrTooLarge                  (* Set: content over the per-item limit *)
| ErrClearFailed (e : error)   (* Set: cleanup failed *)
| ErrCacheFull                 (* Set: still over budget after cleanup *)
| ErrMkdir (e : error)         (* Set: shard directory not created *)
| ErrRemoveExpired (e : error) (* Get: expired file not deleted *)
| PanicIndex.                  (* runtime: index out of range *)

Definition IsNotExist (e : error) : bool :=
  match e with ENOENT => true | _ => false end.

(** Pointers to the [CacheItem]s carried by the elements of the LRU list. *)
Definition ptr := nat.

(** The fields of [ReviewCache] that the operations read or write, with the
    part of the world they act on: the objects behind the list elements,
    the content of [cacheDir] and the number of clock readings taken. *)
Record State := mkState {
  memCache : gmap string ptr;
  lru : list ptr;                 (* front of the list first *)
  maxItems : Z;
  maxFileSize : Z;
  maxCacheSize : Z;
  currentSize : Z;
  subDirCount : Z;
  heap : gmap ptr CacheItem;
  nextPtr : ptr;
  disk : gmap string Node;
  ticks : nat }.

Definition with_mem (m : gmap string ptr) (l : list ptr) (s : State) : State :=
  mkState m l (maxItems s) (maxFileSize s) (maxCacheSize s) (currentSize s)
          (subDirCount s) (heap s) (nextPtr s) (disk s) (ticks s).
Definition with_heap (h : gmap ptr CacheItem) (s : State) : State :=
  mkState (memCache s) (lru s) (maxItems s) (maxFileSize s) (maxCacheSize s)
          (currentSize s) (subDirCount s) h (nextPtr s) (disk s) (ticks s).
Definition with_nextPtr (p : ptr) (s : State) : State :=
  mkState (memCache s) (lru s) (maxItems s) (maxFileSize s) (maxCacheSize s)
          (currentSize s) (subDirCount s) (heap s) p (disk s) (ticks s).
Definition with_currentSize (z : Z) (s : State) : State :=
  mkState (memCache s) (lru s) (maxItems s) (maxFileSize s) (maxCacheSize s)
          z (subDirCount s) (heap s) (nextPtr s) (disk s) (ticks s).
Definition with_disk (d : gmap string Node) (s : State) : State :=
  mkState (memCache s) (lru s) (maxItems s) (maxFileSize s) (maxCacheSize s)
          (currentSize s) (subDirCount s) (heap s) (nextPtr s) d (ticks s).
Definition with_ticks (n : nat) (s : State) : State :=
  mkState (memCache s) (lru s) (maxItems s) (maxFileSize s) (maxCacheSize s)
          (currentSize s) (subDirCount s) (heap s) (nextPtr s) (disk s) n.
Definition with_maxItems (n : Z) (s : State) : State :=
  mkState (memCache s) (lru s) n (maxFileSize s) (maxCacheSize s)
          (currentSize s) (subDirCount s) (heap s) (nextPtr s) (disk s)
          (ticks s).

(** ** The [os] and [path/filepath] calls, on the two-level directory *)

Definition json_name (contentHash : string) : string :=
  (contentHash ++ ".json")%string.

(** [filepath.Ext]: the suffix that starts at the last dot, or nothing. *)
Fixpoint Ext (name : string) : string :=
  match name with
  | EmptyString => EmptyString
  | String c t =>
      match Ext t with
      | EmptyString => if Ascii.eqb c "."%char then name else EmptyString
      | e => e
      end
  end.

(** [os.ReadFile(cacheDir/name)]. *)
Definition ReadFile_root (d : gmap string Node) (name : string)
  : File + error :=
  match d !! name with
  | None => inr ENOENT
  | Some (NDir _) => inr EISDIR
  | Some (NFile f) => inl f
  end.

(** [os.Remove(cacheDir/name)] of a file that was just read. *)
Definition Remove_root (d : gmap string Node) (name : string)
  : gmap string Node + error :=
  match d !! name with
  | None => inr ENOENT
  | Some _ => inl (delete name d)
  end.

(** [os.MkdirAll(cacheDir/sub)]. *)
Definition MkdirAll (d : gmap string Node) (sub : string)
  : gmap string Node + error :=
  match d !! sub with
  | None => inl (<[sub := NDir ∅]> d)
  | Some (NDir _) => inl d
  | Some (NFile _) => inr ENOTDIR
  end.

(** [os.WriteFile(cacheDir/sub/name, data)]: creates or truncates. *)
Definition WriteFile (d : gmap string Node) (sub name : string) (f : File)
  : gmap string Node + error :=
  match d !! sub with
  | Some (NDir dir) =>
      match dir !! name with
      | Some ESubdir => inr EISDIR
      | _ => inl (<[sub := NDir (<[name := EFile f]> dir)]> d)
      end
  | Some (NFile _) => inr ENOTDIR
  | None => inr ENOENT
  end.

(** [os.Remove(cacheDir/sub/name)]; [Clear] ignores its error. *)
Definition Remove_in (d : gmap string Node) (sub name : string)
  : gmap string Node :=
  match d !! sub with
  | Some (NDir dir) => <[sub := NDir (delete name dir)]> d
  | _ => d
  end.

Definition name_le (x y : string * Entry) : Prop :=
  String.leb (fst x) (fst y) = true.

#[local] Instance name_le_dec : RelDecision name_le.
Proof. intros x y. unfold name_le. apply _. Defined.

(** [os.ReadDir]: the entries of a directory, sorted by file name. *)
Definition ReadDir (dir : gmap string Entry) : list (string * Entry) :=
  merge_sort name_le (map_to_list dir).

(** ** The operations of [ReviewCache] *)

Section Operations.

(** [clock n] is the value of the [n]-th call of [time.Now()]; the state
    counts the calls made so far. *)
Variable clock : nat -> Time.

(** [json_len it] is the length of the bytes [json.Marshal] produces for
    [it]. Decoding those bytes gives [it] back. *)
Variable json_len : CacheItem -> N.

Definition Now (s : State) : Time * State :=
  (clock (ticks s), with_ticks (S (ticks s)) s).

Definition Marshal (it : CacheItem) : File := mkFile (Some it) (json_len it).

(** [NewReviewCache]: empty memory tier and the limits of the constructor,
    over the directory content [d]. *)
Definition NewReviewCache (d : gmap string Node) (n : nat) : State :=
  {| memCache := ∅; lru := []; maxItems := 100;
     maxFileSize := 5 * 1024 * 1024; maxCacheSize := 100 * 1024 * 1024;
     currentSize := 0; subDirCount := 16;
     heap := ∅; nextPtr := O; disk := d; ticks := n |}.

(** [lru.MoveToFront(elem)]: nothing happens to an element that is not in
    the list. *)
Definition MoveToFront (elem : ptr) (l : list ptr) : list ptr :=
  if bool_decide (elem ∈ l) then elem :: List.remove Nat.eq_dec elem l else l.

(** [lru.PushFront(&item)] with the allocation of the item. *)
Definition PushFront (item : CacheItem) (s : State) : ptr * State :=
  let p := nextPtr s in
  (p, with_mem (memCache s) (p :: lru s)
        (with_nextPtr (S p) (with_heap (<[p := item]> (heap s)) s))).

Definition removeOldest (s : State) : State :=
  match last (lru s) with
  | None => s
  | Some elem =>
      let l := removelast (lru s) in
      match heap s !! elem with
      | Some item => with_mem (delete (ContentHash item) (memCache s)) l s
      | None => with_mem (memCache s) l s
      end
  end.

(** [item.ExpireAt != nil && time.Now().After( *item.ExpireAt )]: the clock
    is read only when there is an expiry time. *)
Definition expired (item : CacheItem) (s : State) : bool * State :=
  match ExpireAt item with
  | None => (false, s)
  | Some e => let (t, s1) := Now s in (After t e, s1)
  end.

(** The test of [Clear]: expired, or not accessed for more than a day. *)
Definition stale (item : CacheItem) (s : State) : bool * State :=
  let (b, s1) := expired item s in
  if b then (true, s1)
  else let (t, s2) := Now s1 in (24 * Hour <? t - LastAccessed item, s2).

Definition Get (s : State) (content : string)
  : option ptr * option error * State :=
  let contentHash := hashContent content in
  match memCache s !! contentHash with
  | Some elem =>
      let (t, s1) := Now s in
      let s2 := with_heap (alter (touch t) elem (heap s1)) s1 in
      (Some elem, None, with_mem (memCache s2) (MoveToFront elem (lru s2)) s2)
  | None =>
      let cacheFile := json_name contentHash in
      match ReadFile_root (disk s) cacheFile with
      | inr err =>
          if IsNotExist err then (None, None, s) else (None, Some err, s)
      | inl data =>
          match decoded data with
          | None => (None, Some ErrUnmarshal, s)
          | Some item =>
              let (b, s1) := expired item s in
              if b then
                match Remove_root (disk s1) cacheFile with
                | inr err => (None, Some (ErrRemoveExpired err), s1)
                | inl d => (None, None, with_disk d s1)
                end
              else
                let s2 :=
                  if Z.of_nat (length (lru s1)) >=? maxItems s1
                  then removeOldest s1 else s1 in
                let (t, s3) := Now s2 in
                let (elem, s4) := PushFront (touch t item) s3 in
                (Some elem, None,
                 with_mem (<[contentHash := elem]> (memCache s4)) (lru s4) s4)
          end
      end
  end.

(** One file of one shard in [Clear]. *)
Definition Clear_file (subDir : string) (s : State) (file : string * Entry)
  : State :=
  let (name, entry) := file in
  if negb (String.eqb (Ext name) ".json") then s else
  match entry with
  | ESubdir => s
  | EFile data =>
      match decoded data with
      | None => s
      | Some item =>
          let (b, s1) := stale item s in
          if b then
            with_currentSize (currentSize s1 - Z.of_N (Size data))
              (with_disk (Remove_in (disk s1) subDir name) s1)
          else s1
      end
  end.

(** One iteration of the loop over the shard indices in [Clear]. *)
Definition Clear_shard (s : State) (i : Z) : State :=
  let subDir := fmt_02x i in
  match disk s !! subDir with
  | Some (NDir dir) => fold_left (Clear_file subDir) (ReadDir dir) s
  | _ => s
  end.

Definition shard_indices (s : State) : list Z :=
  map Z.of_nat (seq 0 (Z.to_nat (subDirCount s))).

Definition Clear (s : State) : option error * State :=
  let s0 := with_currentSize 0 (with_mem ∅ [] s) in
  (None, fold_left Clear_shard (shard_indices s0) s0).

(** [fmt.Sprintf("%02x", item.ContentHash[0])]: the verb is applied to the
    first byte of the hash string. *)
Definition subDir_of (contentHash : string) : option string :=
  match contentHash with
  | EmptyString => None
  | String c _ => Some (fmt_02x (Z.of_N (N_of_ascii c)))
  end.

(** [Set]. *)
Definition Set_ (s : State) (content result : string)
    (expireAfter : option Duration) : option error * State :=
  let contentSize := Z.of_nat (String.length content) in
  if maxFileSize s <? contentSize then (Some ErrTooLarge, s) else
  let '(full, s1) :=
    if maxCacheSize s <? currentSize s + contentSize then
      match Clear s with
      | (Some err, s') => (Some (ErrClearFailed err), s')
      | (None, s') =>
          if maxCacheSize s' <? currentSize s' + contentSize
          then (Some ErrCacheFull, s') else (None, s')
      end
    else (None, s) in
  match full with
  | Some err => (Some err, s1)
  | None =>
      let contentHash := hashContent content in
      let (t1, s2) := Now s1 in
      let (t2, s3) := Now s2 in
      let item :=
        mkCacheItem contentHash result t1
                    (option_map (Add t1) expireAfter) t2 in
      let data := Marshal item in
      match subDir_of contentHash with
      | None => (Some PanicIndex, s3)
      | Some subDir =>
          match MkdirAll (disk s3) subDir with
          | inr err => (Some (ErrMkdir err), s3)
          | inl d1 =>
              match WriteFile d1 subDir (json_name contentHash) data with
              | inr err => (Some err, with_disk d1 s3)
              | inl d2 =>
                  let s4 := with_disk d2 s3 in
                  let s5 :=
                    if Z.of_nat (length (lru s4)) >=? maxItems s4
                    then removeOldest s4 else s4 in
                  let (elem, s6) := PushFront item s5 in
                  (None,
                   with_mem (<[contentHash := elem]> (memCache s6))
                            (lru s6) s6)
              end
          end
      end
  end.

(** [BatchGet], with the lookups taken one after the other in the order of
    the slice. *)
Definition BatchGet_step (acc : gmap string ptr * State) (content : string)
  : gmap string ptr * State :=
  let (result, s) := acc in
  match Get s content with
  | (Some item, None, s') => (<[content := item]> result, s')
  | (_, _, s') => (result, s')
  end.

Definition BatchGet (s : State) (contents : list string)
  : gmap string ptr * State :=
  fold_left BatchGet_step contents (∅, s).

(** [BatchSet], with the writes taken one after the other; the result is
    the list of the error messages collected, empty when the call returns
    [nil]. *)
Definition BatchSet_step (expireAfter : option Duration)
    (acc : list error * State) (kv : string * string) : list error * State :=
  let (errMsgs, s) := acc in
  match Set_ s (fst kv) (snd kv) expireAfter with
  | (Some err, s') => (errMsgs ++ [err], s')
  | (None, s') => (errMsgs, s')
  end.

Definition BatchSet (s : State) (items : list (string * string))
    (expireAfter : option Duration) : list error * State :=
  fold_left (BatchSet_step expireAfter) items ([], s).

(** A process restart: the memory tier is rebuilt empty by the constructor,
    the directory is the one left behind. *)
Definition restart (s : State) : State := NewReviewCache (disk s) (ticks s).

End Operations.

(** ** Vocabulary of the statements *)

(** The regular file at [cacheDir/sub/name], if there is one. *)
Definition file_at (d : gmap string Node) (sub name : string) : option File :=
  match d !! sub with
  | Some (NDir dir) =>
      match dir !! name with
      | Some (EFile f) => Some f
      | _ => None
      end
  | _ => None
  end.

(** The test of the cleanup pass against one clock reading [t]. *)
Definition stale_at (t : Time) (item : CacheItem) : bool :=
  match ExpireAt item with
  | Some e => After t e
  | None => false
  end || (24 * Hour <? t - LastAccessed item).

(** The names [Clear] gives to the shard directories it scans, and the
    names [Set] can give to the directory it writes to. *)
Definition Clear_shards (s : State) : list string :=
  map fmt_02x (shard_indices s).

Definition Set_shards : list string :=
  map (fun d => fmt_02x (Z.of_N (N_of_ascii (hex_digit d))))
      (map Z.of_nat (seq 0 16)).

(** A directory that only this cache has written to: shard directories at
    the root, regular files inside them. *)
Definition disk_ok (d : gmap string Node) : Prop :=
  ∀ name n, d !! name = Some n →
    ∃ dir, n = NDir dir ∧ ∀ x e, dir !! x = Some e → ∃ f, e = EFile f.

Record inv (s : State) : Prop := mkInv {
  inv_maxFileSize : maxFileSize s = 5 * 1024 * 1024;
  inv_maxCacheSize : maxCacheSize s = 100 * 1024 * 1024;
  inv_subDirCount : subDirCount s = 16;
  inv_currentSize : currentSize s <= 0;
  inv_disk : disk_ok (disk s);
  inv_root : ∀ name n, disk s !! name = Some n → name ∈ Set_shards }.

(** The states of a cache that starts on a fresh directory and lives
    through calls of [Get] and [Set], runs of the cleanup routine and
    restarts of the process. *)
Inductive reachable (clock : nat -> Time) (json_len : CacheItem -> N)
  : State -> Prop :=
| reach_new n : reachable clock json_len (NewReviewCache ∅ n)
| reach_restart s :
    reachable clock json_len s -> reachable clock json_len (restart s)
| reach_Get s content :
    reachable clock json_len s ->
    reachable clock json_len (snd (Get clock s content))
| reach_Set s content result expireAfter :
    reachable clock json_len s ->
    reachable clock json_len
      (snd (Set_ clock json_len s content result expireAfter))
| reach_Clear s :
    reachable clock json_len s ->
    reachable clock json_len (snd (Clear clock s)).

(** What one run of [Clear]'s loops may change: the clock advances, the
    size counter only goes down, the root keeps its names and kinds, no
    file appears, and a file disappears only if some reading taken during
    the run found it stale. *)
Record sweep (clock : nat -> Time) (s s' : State) : Prop := mkSweep {
  sweep_memCache : memCache s' = memCache s;
  sweep_lru : lru s' = lru s;
  sweep_heap : heap s' = heap s;
  sweep_nextPtr : nextPtr s' = nextPtr s;
  sweep_maxItems : maxItems s' = maxItems s;
  sweep_maxFileSize : maxFileSize s' = maxFileSize s;
  sweep_maxCacheSize : maxCacheSize s' = maxCacheSize s;
  sweep_subDirCount : subDirCount s' = subDirCount s;
  sweep_ticks : (ticks s <= ticks s')%nat;
  sweep_currentSize : currentSize s' <= currentSize s;
  sweep_root : ∀ name,
    match disk s !! name, disk s' !! name with
    | None, None => True
    | Some (NFile f), Some (NFile f') => f = f'
    | Some (NDir _), Some (NDir _) => True
    | _, _ => False
    end;
  sweep_disk_ok : disk_ok (disk s) → disk_ok (disk s');
  sweep_no_new : ∀ sub name f,
    file_at (disk s') sub name = Some f → file_at (disk s) sub name = Some f;
  sweep_removed : ∀ sub name f,
    file_at (disk s) sub name = Some f →
    file_at (disk s') sub name = Some f ∨
    ∃ item n, decoded f = Some item ∧ (ticks s <= n < ticks s')%nat ∧
              stale_at (clock n) item = true }.

(** A directory listing agrees with the directory as long as whatever file
    is still at a listed name is the listed one. *)
Definition listing_ok (d : gmap string Node) (sub : string)
    (l : list (string * Entry)) : Prop :=
  ∀ name entry f,
    (name, entry) ∈ l → file_at d sub name = Some f → entry = EFile f.

(** The entry [Set] builds, from the two clock readings it takes. *)
Definition Set_item (clock : nat -> Time) (s : State)
    (content result : string) (expireAfter : option Duration) : CacheItem :=
  mkCacheItem (hashContent content) result (clock (ticks s))
              (option_map (Add (clock (ticks s))) expireAfter)
              (clock (S (ticks s))).

(** The memory tier once room has been made for one more element. *)
Definition make_room (s : State) : State :=
  if Z.of_nat (length (lru s)) >=? maxItems s then removeOldest s else s.

(** [Get] finds the content. *)
Definition cached (clock : nat -> Time) (s : State) (content : string) : bool :=
  match Get clock s content with
  | (Some _, None, _) => true
  | _ => false
  end.

(** The entry a pointer designates. *)
Definition load (s : State) (p : ptr) : option CacheItem := heap s !! p.

(** The hashes of the entries of the memory tier, most recently used
    first. *)
Definition lru_hashes (s : State) : list (option string) :=
  map (fun p => ContentHash <$> heap s !! p) (lru s).

(** A content of [n] bytes. *)
Fixpoint blank (n : nat) : string :=
  match n with
  | O => EmptyString
  | S n' => String " "%char (blank n')
  end.

(** ** A concrete environment for the examples *)

(** A clock that advances by one second between two readings. *)
Definition sample_clock (n : nat) : Time := 1000000000 * Z.of_nat n.

(** A stand-in for the length of the encoding; no statement below depends
    on its value. *)
Definition sample_json_len (it : CacheItem) : N :=
  200 + N.of_nat (String.length (ReviewResult it)).

Definition fresh_cache : State := NewReviewCache ∅ 0.

(** The cache after [Set("hello", "LGTM", nil)] on a fresh directory, and
    after the same call with an expiry of one nanosecond. *)
Definition stored : State :=
  snd (Set_ sample_clock sample_json_len fresh_cache "hello" "LGTM" None).

Definition stored_1ns : State :=
  snd (Set_ sample_clock sample_json_len fresh_cache "hello" "LGTM" (Some 1)).

Definition hello_hash : string :=
  "2cf24dba5fb0a30e26e83b2ac5b9e29e1b161e5c1fa7425e73043362938b9824".

(** The entry of ["hello"] as [Set] wrote it, given its expiry time. *)
Definition hello_item (expireAt : option Time) : CacheItem :=
  mkCacheItem hello_hash "LGTM" 0 expireAt 1000000000.

(** A content of 5 MiB and one byte. *)
Definition oversized : string := blank (Z.to_nat (5 * 1024 * 1024 + 1)).

(** A cache with room for two entries in memory, on a fresh directory. *)
Definition two_slots : State := with_maxItems 2 fresh_cache.

Definition corrupt_disk : gmap string Node :=
  {[ json_name (hashContent "x") := NFile (mkFile None 7) ]}.

(** ** Vocabulary of the further properties *)

(** The characters ["%x"] produces. *)
Definition is_lower_hex (c : ascii) : bool :=
  existsb (Ascii.eqb c) (list_ascii_of_string "0123456789abcdef").

Fixpoint all_chars (P : ascii -> bool) (s : string) : bool :=
  match s with
  | EmptyString => true
  | String c t => P c && all_chars P t
  end.

(** The memory tier is well formed: the list has no repeated element, its
    elements were allocated and carry an entry, and every key of the map
    designates an element of the list whose entry has that key as hash. *)
Record mem_ok (s : State) : Prop := mkMemOk {
  mem_nodup : NoDup (lru s);
  mem_alloc : ∀ p, p ∈ lru s → (p < nextPtr s)%nat ∧ is_Some (heap s !! p);
  mem_keys : ∀ h p, memCache s !! h = Some p →
    p ∈ lru s ∧ ∃ item, heap s !! p = Some item ∧ ContentHash item = h;
  mem_bound : maxItems s = 100 ∧ Z.of_nat (length (lru s)) <= maxItems s }.

(** An item of a batch whose content is over the per-item limit. *)
Definition too_large (kv : string * string) : Prop :=
  5 * 1024 * 1024 < Z.of_nat (String.length (fst kv)).

#[local] Instance too_large_dec kv : Decision (too_large kv).
Proof. unfold too_large. apply _. Defined.

(** Every file of the cache directory holds an entry, is named after the
    hash of that entry and sits in the shard of that hash. *)
Definition layout_ok (d : gmap string Node) : Prop :=
  ∀ sub name f, file_at d sub name = Some f →
    ∃ item, decoded f = Some item ∧
            name = json_name (ContentHash item) ∧
            subDir_of (ContentHash item) = Some sub ∧
            (∃ content, ContentHash item = hashContent content).

(** Two entries that differ at most by their access time. *)
Definition same_entry (a b : CacheItem) : Prop :=
  ContentHash a = ContentHash b ∧ ReviewResult a = ReviewResult b ∧
  CachedAt a = CachedAt b ∧ ExpireAt a = ExpireAt b.

(** [Set] called on each content of a list in turn. *)
Definition Set_each (clock : nat -> Time) (json_len : CacheItem -> N)
    (s : State) (contents : list string) : State :=
  fold_left (fun s c => snd (Set_ clock json_len s c "LGTM" None)) contents s.

(** A full memory tier: ["hello"] set twice, then 98 other contents. *)
Definition crowded : State :=
  Set_each sample_clock sample_json_len fresh_cache
           ("hello" :: "hello" :: map blank (seq 1 98))%string.

(** ** The earlier, flat version of the cache

    The first [package cache] of the file: no memory tier and no shards,
    one file [cacheDir/<hash>.json] per entry. *)

Module Flat.

Record CacheItem := mkCacheItem {
  ContentHash : string;
  ReviewResult : string;
  CachedAt : Time;
  ExpireAt : option Time }.

(** An entry of the cache directory: a regular file, seen through what
    [json.Unmarshal] decodes its bytes to, or a directory. *)
Inductive Node := NFile (decoded : option CacheItem) | NDir.

(** The content of [cacheDir] and the number of clock readings taken. *)
Record State := mkState { disk : gmap string Node; ticks : nat }.

Definition with_disk (d : gmap string Node) (s : State) : State :=
  mkState d (ticks s).

Definition name_le (x y : string * Node) : Prop :=
  String.leb (fst x) (fst y) = true.

#[local] Instance name_le_dec : RelDecision name_le.
Proof. intros x y. unfold name_le. apply _. Defined.

(** [os.ReadDir(cacheDir)]: the entries sorted by file name. *)
Definition ReadDir (d : gmap string Node) : list (string * Node) :=
  merge_sort name_le (map_to_list d).

Section Operations.

Variable clock : nat -> Time.

Definition Now (s : State) : Time * State :=
  (clock (ticks s), mkState (disk s) (S (ticks s))).

(** [item.ExpireAt != nil && time.Now().After( *item.ExpireAt )]. *)
Definition expired (item : CacheItem) (s : State) : bool * State :=
  match ExpireAt item with
  | None => (false, s)
  | Some e => let (t, s1) := Now s in (After t e, s1)
  end.

Definition Get (s : State) (content : string)
  : option CacheItem * option error * State :=
  let contentHash := hashContent content in
  let cacheFile := json_name contentHash in
  match disk s !! cacheFile with
  | None => (None, None, s)
  | Some NDir => (None, Some EISDIR, s)
  | Some (NFile None) => (None, Some ErrUnmarshal, s)
  | Some (NFile (Some item)) =>
      let (b, s1) := expired item s in
      if b then (None, None, with_disk (delete cacheFile (disk s1)) s1)
      else (Some item, None, s1)
  end.

Definition Set_ (s : State) (content result : string)
    (expireAfter : option Duration) : option error * State :=
  let contentHash := hashContent content in
  let (t, s1) := Now s in
  let item :=
    mkCacheItem contentHash result t (option_map (Add t) expireAfter) in
  let cacheFile := json_name contentHash in
  match disk s1 !! cacheFile with
  | Some NDir => (Some EISDIR, s1)
  | _ => (None, with_disk (<[cacheFile := NFile (Some item)]> (disk s1)) s1)
  end.

(** One file of the listing in [Clear]: the file is read when its turn
    comes. *)
Definition Clear_file (s : State) (name : string) : State :=
  if negb (String.eqb (Ext name) ".json") then s else
  match disk s !! name with
  | None | Some NDir | Some (NFile None) => s
  | Some (NFile (Some item)) =>
      let (b, s1) := expired item s in
      if b then with_disk (delete name (disk s1)) s1 else s1
  end.

Definition Clear (s : State) : option error * State :=
  (None, fold_left Clear_file (map fst (ReadDir (disk s))) s).

End Operations.

(** The entry at [cacheDir/name], if it is a file that parses. *)
Definition entry_at (d : gmap string Node) (name : string)
  : option CacheItem :=
  match d !! name with
  | Some (NFile (Some item)) => Some item
  | _ => None
  end.

Definition expired_at (t : Time) (item : CacheItem) : bool :=
  match ExpireAt item with
  | Some e => After t e
  | None => false
  end.

End Flat.

(** An entry of the content ["x"], cached at time 0, with a given expiry. *)
Definition x_item (expireAt : option Time) : CacheItem :=
  mkCacheItem (hashContent "x") "fine" 0 expireAt 0.

(** A cache over a directory with the entry of ["x"] in a file at the
    root, where [Get] looks for it. *)
Definition root_file_cache (expireAt : option Time) : State :=
  NewReviewCache
    {[ json_name (hashContent "x") := NFile (mkFile (Some (x_item expireAt)) 150) ]}
    3.

(** A cache over a directory with a file in the shard [0a], which
    [Clear] scans. *)
Definition scanned_shard_cache : State :=
  NewReviewCache
    {[ "0a"%string :=
         NDir {[ "k.json"%string := EFile (mkFile (Some (x_item (Some 1))) 150) ]} ]}
    3.


Definition flat_x_item : Flat.CacheItem :=
  Flat.mkCacheItem (hashContent "x") "fine" 0 (Some 1).

Definition flat_expired : Flat.State :=
  Flat.mkState {[ json_name (hashContent "x") := Flat.NFile (Some flat_x_item) ]} 3.

(** ** The report generator ([package review]) *)

Record Issue := mkIssue {
  Title : string;
  FilePath : string;
  Line : Z;
  Severity : string;
  Description : string;
  Suggestion : string;
  CodeSnippet : string }.

(** [m[k]++] on a [map[string]int]: a missing key reads as zero. *)
Definition incr (k : string) (m : gmap string Z) : gmap string Z :=
  <[k := default 0 (m !! k) + 1]> m.

(** The first loop of [summarizeSuggestions]. *)
Definition suggestionMap (issues : list Issue) : gmap string Z :=
  fold_left
    (fun m issue =>
       if decide (Suggestion issue = EmptyString) then m
       else incr (Suggestion issue) m)
    issues ∅.

(** The first loop of [getUniqueFiles]. *)
Definition filesMap (issues : list Issue) : gmap string bool :=
  fold_left (fun m issue => <[FilePath issue := true]> m) issues ∅.

Section Reporter.

(** The order in which [range] visits a map is not specified: it is a
    parameter, as is the order [sort.Slice] leaves between two elements
    that compare equal. *)
Variable range_int : gmap string Z -> list (string * Z).
Variable range_bool : gmap string bool -> list (string * bool).
Variable sort_Slice :
  (string * Z -> string * Z -> bool) -> list (string * Z) -> list (string * Z).

Definition summarizeSuggestions (issues : list Issue) : list string :=
  let suggestions := range_int (suggestionMap issues) in
  let sorted := sort_Slice (fun a b => snd b <? snd a) suggestions in
  map fst sorted.

Definition getUniqueFiles (issues : list Issue) : list string :=
  map fst (range_bool (filesMap issues)).

End Reporter.

(** [strings.Split(s, sep)] for a separator of one byte. *)
Fixpoint Split (sep : ascii) (s : string) : list string :=
  match s with
  | EmptyString => [EmptyString]
  | String c t =>
      if Ascii.eqb c sep then EmptyString :: Split sep t
      else match Split sep t with
           | [] => [String c EmptyString]
           | part :: parts => String c part :: parts
           end
  end.

Definition newline : ascii := ascii_of_nat 10.

(** The block of [generateMarkdown] that prints the code snippet of an
    issue: for each line of the window, whether it is marked, its number
    and its text. [None] stands for an index out of range. *)
Definition snippet_rows (issue : Issue) : option (list (bool * Z * string)) :=
  let lines := Split newline (CodeSnippet issue) in
  let contextStart := Z.max 0 (Line issue - 3) in
  let contextEnd := Z.min (Z.of_nat (length lines)) (Line issue + 3) in
  mapM (fun i =>
          match lines !! Z.to_nat i with
          | Some text => Some (i =? Line issue - 1, i + 1, text)
          | None => None
          end)
       (map (fun k => contextStart + Z.of_nat k)
            (seq 0 (Z.to_nat (contextEnd - contextStart)))).

(** The number of issues that carry a given suggestion. *)
Definition suggestion_count (issues : list Issue) (x : string) : Z :=
  Z.of_nat (length (filter (fun issue => Suggestion issue = x) issues)).

(** One admissible order of iteration and one admissible sort. *)
Definition sample_range {V} (m : gmap string V) : list (string * V) :=
  map_to_list m.

(** [a] may come before [b] in a slice sorted by [less]. *)
Definition may_precede (less : string * Z -> string * Z -> bool)
    (a b : string * Z) : Prop := less b a = false.

#[local] Instance may_precede_dec less : RelDecision (may_precede less).
Proof. intros a b. unfold may_precede. apply _. Defined.

Definition sample_sort (less : string * Z -> string * Z -> bool)
    (l : list (string * Z)) : list (string * Z) :=
  merge_sort (may_precede less) l.

Definition sample_issues : list Issue :=
  [ mkIssue "a" "x.go" 3 "high" "d1" "add tests" "l1";
    mkIssue "b" "y.go" 1 "low" "d2" "" "";
    mkIssue "c" "x.go" 9 "low" "d3" "rename" "";
    mkIssue "d" "z.go" 2 "info" "d4" "add tests" "" ]%string.

(** * The model clients: package [model] *)

Module Model.

(** A [Config]. The field [ExtraParams] is written by the constructors and
    read nowhere. *)
Record Config := mkConfig {
  Type_ : string;
  APIKey : string;
  Model : string;
  MaxTokens : Z;
  Temperature : float }.

(** A value of [Models] is a [*Config], which may be nil. *)
Record ModelConfig := mkModelConfig {
  DefaultModel : string;
  Models : gmap string (option Config) }.

Record Message := mkMessage { Role : string; Content : string }.

(** A [ChatRequest], with the fields the program sets; the others keep
    their zero value in every request it builds. *)
Record ChatRequest := mkChatRequest {
  req_Model : string;
  req_Messages : list Message;
  req_MaxTokens : Z;
  req_Temperature : float }.

Inductive error :=
| ErrConfigNil                   (* config cannot be nil *)
| ErrAPIKeyRequired              (* API key is required *)
| ErrUnsupportedType (t : string)(* unsupported model type *)
| ErrModelConfigNil              (* model config cannot be nil *)
| ErrNoDefaultModel              (* default model must be specified *)
| ErrNoModels                    (* at least one model configuration *)
| ErrConfigNotFound (t : string) (* model config not found for type *)
| ErrCreateClient (e : error)    (* failed to create model client *)
| PanicNil.                      (* runtime: nil pointer dereference *)

(** The four implementations of the interface [ModelClient]; each holds
    the configuration it was built from. *)
Inductive ModelClient :=
| DeepSeekClient (config : Config)
| OpenAIClient (config : Config)
| ChatGLMClient (config : Config)
| QWENClient (config : Config).

Definition client_config (c : ModelClient) : Config :=
  match c with
  | DeepSeekClient config | OpenAIClient config
  | ChatGLMClient config | QWENClient config => config
  end.

Definition DeepSeekAPIURL : string :=
  "https://api.siliconflow.cn/v1/chat/completions".
Definition OpenAIAPIURL : string :=
  "https://api.openai.com/v1/chat/completions".
Definition ChatGLMAPIURL : string :=
  "https://open.bigmodel.cn/api/paas/v4/chat/completions".
Definition QWENAPIURL : string :=
  "https://dashscope.aliyuncs.com/compatible-mode/v1/chat/completions".

Definition ApplyConfig (config : Config) (req : ChatRequest) : ChatRequest :=
  {| req_Model :=
       if decide (req_Model req = EmptyString) then Model config
       else req_Model req;
     req_Messages := req_Messages req;
     req_MaxTokens :=
       if decide (req_MaxTokens req = 0) then MaxTokens config
       else req_MaxTokens req;
     req_Temperature :=
       if PrimFloat.eqb (req_Temperature req) 0%float then Temperature config
       else req_Temperature req |}.

(** What [Chat] hands to [SendRequest]: the address and the request. *)
Definition Chat_request (c : ModelClient) (req : ChatRequest)
  : string * ChatRequest :=
  let url := match c with
             | DeepSeekClient _ => DeepSeekAPIURL
             | OpenAIClient _ => OpenAIAPIURL
             | ChatGLMClient _ => ChatGLMAPIURL
             | QWENClient _ => QWENAPIURL
             end in
  (url, ApplyConfig (client_config c) req).

Definition NewModelClient (cfg : option Config) : ModelClient + error :=
  match cfg with
  | None => inr ErrConfigNil
  | Some cfg =>
      if decide (APIKey cfg = EmptyString) then inr ErrAPIKeyRequired
      else if decide (Type_ cfg = "deepseek"%string)
           then inl (DeepSeekClient cfg)
      else if decide (Type_ cfg = "openai"%string)
           then inl (OpenAIClient cfg)
      else if decide (Type_ cfg = "chatglm"%string)
           then inl (ChatGLMClient cfg)
      else if decide (Type_ cfg = "qwen"%string)
           then inl (QWENClient cfg)
      else inr (ErrUnsupportedType (Type_ cfg))
  end.

Record ModelManager := mkModelManager {
  config : ModelConfig;
  clients : gmap string ModelClient }.

Definition NewModelManager (config : option ModelConfig)
  : ModelManager + error :=
  match config with
  | None => inr ErrModelConfigNil
  | Some config =>
      if decide (DefaultModel config = EmptyString) then inr ErrNoDefaultModel
      else if decide (size (Models config) = 0%nat) then inr ErrNoModels
      else inl (mkModelManager config ∅)
  end.

(** [GetClient]. On the path of a client already created, the message
    printed reads the field [Model] of [m.config.Models[modelType]]. *)
Definition GetClient (m : ModelManager) (modelType : string)
  : (ModelClient + error) * ModelManager :=
  let modelType :=
    if decide (modelType = EmptyString) then DefaultModel (config m)
    else modelType in
  match clients m !! modelType with
  | Some client =>
      match Models (config m) !! modelType with
      | Some (Some _) => (inl client, m)
      | _ => (inr PanicNil, m)
      end
  | None =>
      match Models (config m) !! modelType with
      | None => (inr (ErrConfigNotFound modelType), m)
      | Some config' =>
          match NewModelClient config' with
          | inr err => (inr (ErrCreateClient err), m)
          | inl client =>
              (inl client,
               mkModelManager (config m) (<[modelType := client]> (clients m)))
          end
      end
  end.

(** The literal [0.7] as a [float64]. *)
Definition f0_7 : float := 0x1.6666666666666p-1%float.

Definition NewModelConfigWithKeys
    (deepseekKey openaiKey chatglmKey qwenKey : string) : ModelConfig :=
  let Models := ∅ in
  let Models :=
    if decide (qwenKey = EmptyString) then Models
    else <["qwen"%string :=
             Some (mkConfig "qwen" qwenKey "qwen-coder-plus" 2000 f0_7)]>
           Models in
  let Models :=
    if decide (deepseekKey = EmptyString) then Models
    else <["deepseek"%string :=
             Some (mkConfig "deepseek" deepseekKey "deepseek-ai/DeepSeek-R1"
                            2000 f0_7)]>
           Models in
  let Models :=
    if decide (openaiKey = EmptyString) then Models
    else <["openai"%string :=
             Some (mkConfig "openai" openaiKey "gpt-3.5-turbo" 2000 f0_7)]>
           Models in
  let Models :=
    if decide (chatglmKey = EmptyString) then Models
    else <["chatglm"%string :=
             Some (mkConfig "chatglm" chatglmKey "glm-4" 2000 f0_7)]>
           Models in
  mkModelConfig "qwen" Models.

(** The steps by which [main] obtains its client from the two keys of the
    environment and the flag [-model]; an error ends the program. *)
Definition main_client (deepseekKey qwenKey model : string)
  : (ModelConfig * ModelClient) + error :=
  let modelCfg :=
    NewModelConfigWithKeys deepseekKey EmptyString EmptyString qwenKey in
  match NewModelManager (Some modelCfg) with
  | inr err => inr err
  | inl modelManager =>
      match fst (GetClient modelManager model) with
      | inr err => inr err
      | inl modelClient => inl (modelCfg, modelClient)
      end
  end.

(** The same steps in [reviewRef] of the pre-push hook, from the option
    [api_key]. *)
Definition reviewRef_client (api_key : string)
  : (ModelConfig * ModelClient) + error :=
  let modelCfg :=
    NewModelConfigWithKeys api_key EmptyString EmptyString EmptyString in
  match NewModelManager (Some modelCfg) with
  | inr err => inr err
  | inl modelManager =>
      match fst (GetClient modelManager EmptyString) with
      | inr err => inr err
      | inl modelClient => inl (modelCfg, modelClient)
      end
  end.

(** The request that [main] and [reviewRef] build for a change: its three
    parameters are read from [modelCfg.Models[modelCfg.DefaultModel]]. *)
Definition review_request (modelCfg : ModelConfig) (messages : list Message)
  : ChatRequest + error :=
  match Models modelCfg !! DefaultModel modelCfg with
  | Some (Some cfg) =>
      inl (mkChatRequest (Model cfg) messages (MaxTokens cfg)
                         (Temperature cfg))
  | _ => inr PanicNil
  end.

(** The managers a program can hold: built by [NewModelManager], then used
    through [GetClient]. *)
Inductive manager_reachable : ModelManager -> Prop :=
| reach_NewModelManager cfg m :
    NewModelManager cfg = inl m -> manager_reachable m
| reach_GetClient m modelType :
    manager_reachable m -> manager_reachable (snd (GetClient m modelType)).

End Model.

(** * The command line: package [cli] *)

Module Cli.

Record Options := mkOptions {
  Files : string;
  CommitRange : string;
  OutputFormat : string;
  OutputFile : string;
  Model : string;
  Verbose : bool }.

Inductive error :=
| ErrFormat (format : string)    (* unsupported output format *)
| ErrModel (model : string).     (* unsupported model *)

(** [validateOptions] fills in the range of commits before it checks the
    rest; the result is the error and the options as it leaves them. *)
Definition validateOptions (opts : Options) : option error * Options :=
  let opts :=
    if decide (Files opts = EmptyString ∧ CommitRange opts = EmptyString)
    then mkOptions (Files opts) "HEAD~1..HEAD" (OutputFormat opts)
                   (OutputFile opts) (Model opts) (Verbose opts)
    else opts in
  if negb (bool_decide
             (OutputFormat opts ∈ ["markdown"; "html"; "pdf"]%string))
  then (Some (ErrFormat (OutputFormat opts)), opts)
  else if bool_decide (Model opts ≠ EmptyString) &&
          negb (bool_decide
                  (Model opts ∈
                     ["qwen"; "deepseek"; "openai"; "chatglm"]%string))
  then (Some (ErrModel (Model opts)), opts)
  else (None, opts).

End Cli.

(** ** The formats of a report *)

Definition MarkdownFormat : string := "markdown".
Definition HTMLFormat : string := "html".
Definition PDFFormat : string := "pdf".

Definition IsValid (f : string) : bool :=
  bool_decide (f = MarkdownFormat ∨ f = HTMLFormat ∨ f = PDFFormat).

(** The branch that [Generate] takes; [None] is the error
    [unsupported format]. *)
Inductive generator := generateMarkdown | generateHTML | generatePDF.

Definition Generate_branch (format : string) : option generator :=
  if decide (format = MarkdownFormat) then Some generateMarkdown
  else if decide (format = HTMLFormat) then Some generateHTML
  else if decide (format = PDFFormat) then Some generatePDF
  else None.

(** * The pre-push hook: [parseRefInfo] *)

Record RefInfo := mkRefInfo {
  Name : string;
  OldHash : string;
  NewHash : string;
  Remote : string }.

Definition space : ascii := ascii_of_nat 32.

(** One turn of the loop over the lines; [None] stands for an index out of
    range. *)
Definition parseRefInfo_step (refs : list RefInfo) (line : string)
  : option (list RefInfo) :=
  if decide (line = EmptyString) then Some refs
  else
    let parts := Split space line in
    if (length parts <? 4)%nat then Some refs
    else
      name ← parts !! 2%nat;
      old ← parts !! 0%nat;
      new ← parts !! 1%nat;
      remote ← parts !! 3%nat;
      Some (refs ++ [mkRefInfo name old new remote]).

Definition parseRefInfo (info : string) : option (list RefInfo) :=
  fold_left (fun acc line => refs ← acc; parseRefInfo_step refs line)
            (Split newline info) (Some []).

(** The line that announces a reference, and the text of several. *)
Definition ref_line (r : RefInfo) : string :=
  OldHash r +:+ " " +:+ NewHash r +:+ " " +:+ Name r +:+ " " +:+ Remote r.

Definition ref_lines (refs : list RefInfo) : string :=
  fold_right (fun r text => ref_line r +:+ String newline text)
             EmptyString refs.

(** No byte of [s] is a space or a newline. *)
Definition word (s : string) : bool :=
  all_chars (fun c => negb (Ascii.eqb c space) && negb (Ascii.eqb c newline)) s.

Definition words (r : RefInfo) : bool :=
  word (Name r) && word (OldHash r) && word (NewHash r) && word (Remote r).

(** * The severities of a report *)

(** The first loop of [generateMarkdown]: the issues of each severity. *)
Definition severityCount (issues : list Issue) : gmap string Z :=
  fold_left (fun m issue => incr (Severity issue) m) issues ∅.

(** The number of issues of a given severity. *)
Definition severity_count (issues : list Issue) (x : string) : Z :=
  Z.of_nat (length (filter (fun issue => Severity issue = x) issues)).

Definition sum_Z (l : list Z) : Z := fold_right Z.add 0 l.

(** * The difference of one file: [extractFileDiff] *)

(** [strings.HasPrefix] and [strings.Contains]. *)
Definition HasPrefix (s prefix : string) : bool := String.prefix prefix s.

Fixpoint Contains (s substr : string) : bool :=
  String.prefix substr s ||
  match s with
  | EmptyString => false
  | String _ t => Contains t substr
  end.

(** The line that opens the difference of a file. *)
Definition diff_header (filePath : string) : string :=
  "diff --git a/" +:+ filePath +:+ " b/" +:+ filePath.

(** The loop over the lines, with the flag [inFile] and the text written
    so far; leaving the loop returns that text. *)
Fixpoint extractFileDiff_loop (header : string) (lines : list string)
    (inFile : bool) (fileDiff : string) : string :=
  match lines with
  | [] => fileDiff
  | line :: lines =>
      let here := Contains line header in
      if negb here && HasPrefix line "diff --git" && inFile then fileDiff
      else
        let inFile := if here then true else inFile in
        extractFileDiff_loop header lines inFile
          (if inFile then (fileDiff +:+ line) +:+ String newline EmptyString
           else fileDiff)
  end.

Definition extractFileDiff (diff filePath : string) : string :=
  extractFileDiff_loop (diff_header filePath) (Split newline diff)
                       false EmptyString.

(** The text made of the given lines, each followed by a newline. *)
Definition write_lines (lines : list string) : string :=
  fold_right (fun line text => line +:+ String newline text)
             EmptyString lines.

(** * Properties *)

(** ** The fingerprint and the shard names *)

Example hashContent_abc :
  hashContent "abc" =
  "ba7816bf8f01cfea414140de5dae2223b00361a396177a9cb410ff61f20015ad"%string.
Proof. vm_compute. reflexivity. Qed.

Example hashContent_empty :
  hashContent "" =
  "e3b0c44298fc1c149afbf4c8996fb92427ae41e4649b934ca495991b7852b855"%string.
Proof. vm_compute. reflexivity. Qed.

Example hashContent_two_blocks :
  hashContent "abcdbcdecdefdefgefghfghighijhijkijkljklmklmnlmnomnopnopq" =
  "248d6a61d20638b8e5c026930c3e6039a33ce45964ff2167f6ecedd419db06c1"%string.
Proof. vm_compute. reflexivity. Qed.

Example Sha256_constants :
  (nth 0 Sha256.K 0, nth 63 Sha256.K 0, Sha256.h0 Sha256.init,
   Sha256.h7 Sha256.init)
  = (0x428a2f98, 0xc67178f2, 0x6a09e667, 0x5be0cd19).
Proof. vm_compute. reflexivity. Qed.

Example fmt_02x_samples :
  (fmt_02x 0, fmt_02x 15, fmt_02x 16, fmt_02x 97, fmt_02x 255, fmt_02x 256)
  = ("00", "0f", "10", "61", "ff", "100")%string.
Proof. vm_compute. reflexivity. Qed.

Example Ext_samples :
  (Ext "a.json", Ext ".json", Ext "a.json.tmp", Ext "json", Ext "a.")
  = (".json", ".json", ".tmp", "", ".")%string.
Proof. vm_compute. reflexivity. Qed.

Lemma land_15_range x : 0 <= Z.land x 15 < 16.
Proof.
  change 15 with (Z.ones 4). rewrite Z.land_ones by lia.
  apply Z.mod_pos_bound. lia.
Qed.

(** The hash string is never empty: it starts with a hexadecimal digit. *)
Lemma hashContent_head content :
  ∃ d t, 0 <= d < 16 ∧ hashContent content = String (hex_digit d) t.
Proof.
  unfold hashContent, Sha256.Sum256.
  destruct (Sha256.final _) as [a b c d e f g h].
  cbn [Sha256.be_bytes app fmt_x_bytes].
  eexists _, _. split; [apply land_15_range | reflexivity].
Qed.

Example Set_shards_names :
  Set_shards = ["30"; "31"; "32"; "33"; "34"; "35"; "36"; "37"; "38"; "39";
                "61"; "62"; "63"; "64"; "65"; "66"]%string.
Proof. vm_compute. reflexivity. Qed.

Example Clear_shards_names :
  Clear_shards fresh_cache =
  ["00"; "01"; "02"; "03"; "04"; "05"; "06"; "07"; "08"; "09";
   "0a"; "0b"; "0c"; "0d"; "0e"; "0f"]%string.
Proof. vm_compute. reflexivity. Qed.

(** [Set] always finds a first byte, and names its directory after the
    character code of a hexadecimal digit. *)
Lemma subDir_of_hashContent content :
  ∃ sub, subDir_of (hashContent content) = Some sub ∧ sub ∈ Set_shards.
Proof.
  destruct (hashContent_head content) as (d & t & Hd & ->).
  eexists. split; [reflexivity |].
  unfold Set_shards. apply list_elem_of_fmap. exists d. split; [done |].
  apply list_elem_of_fmap. exists (Z.to_nat d). split; [lia |].
  apply elem_of_seq. lia.
Qed.

(** None of those names is one of the sixteen that [Clear] scans. *)
Lemma Set_shards_not_scanned s sub :
  subDirCount s = 16 → sub ∈ Set_shards → sub ∉ Clear_shards s.
Proof.
  intros Hc Hin Hout. unfold Clear_shards, shard_indices in Hout.
  rewrite Hc in Hout.
  assert (Hb : forallb (fun x =>
            negb (existsb (String.eqb x)
                    (map fmt_02x (map Z.of_nat (seq 0 (Z.to_nat 16))))))
            Set_shards = true) by (vm_compute; reflexivity).
  rewrite forallb_forall in Hb.
  apply list_elem_of_In in Hin. specialize (Hb _ Hin).
  apply negb_true_iff in Hb.
  assert (existsb (String.eqb sub)
            (map fmt_02x (map Z.of_nat (seq 0 (Z.to_nat 16)))) = true);
    [| congruence].
  apply existsb_exists. exists sub. split.
  - by apply list_elem_of_In.
  - apply String.eqb_refl.
Qed.

Lemma length_blank n : String.length (blank n) = n.
Proof. induction n as [| n IH]; simpl; [done | by rewrite IH]. Qed.

Section Properties.

Variable clock : nat -> Time.
Variable json_len : CacheItem -> N.

(** ** [Get], path by path *)

Lemma Get_hit s content elem :
  memCache s !! hashContent content = Some elem →
  Get clock s content =
  (Some elem, None,
   with_mem (memCache s) (MoveToFront elem (lru s))
     (with_heap (alter (touch (clock (ticks s))) elem (heap s))
        (with_ticks (S (ticks s)) s))).
Proof. intros H. unfold Get. rewrite H. reflexivity. Qed.

Lemma Get_absent s content :
  memCache s !! hashContent content = None →
  disk s !! json_name (hashContent content) = None →
  Get clock s content = (None, None, s).
Proof.
  intros Hm Hd. unfold Get, ReadFile_root. rewrite Hm, Hd. reflexivity.
Qed.

Lemma Get_unparsable s content f :
  memCache s !! hashContent content = None →
  disk s !! json_name (hashContent content) = Some (NFile f) →
  decoded f = None →
  Get clock s content = (None, Some ErrUnmarshal, s).
Proof.
  intros Hm Hd Hf. unfold Get, ReadFile_root. rewrite Hm, Hd, Hf.
  reflexivity.
Qed.

Lemma Get_directory s content dir :
  memCache s !! hashContent content = None →
  disk s !! json_name (hashContent content) = Some (NDir dir) →
  Get clock s content = (None, Some EISDIR, s).
Proof.
  intros Hm Hd. unfold Get, ReadFile_root. rewrite Hm, Hd. reflexivity.
Qed.

(** C7, as amended. A content that is not in the memory tier and has no
    file is a miss without error; when its file is there and does not
    parse, [Get] returns the decoding error and leaves the file where it
    is. *)
Theorem Get_missing_or_unparsable s content :
  memCache s !! hashContent content = None →
  (disk s !! json_name (hashContent content) = None →
   Get clock s content = (None, None, s)) ∧
  (∀ f, disk s !! json_name (hashContent content) = Some (NFile f) →
        decoded f = None →
        Get clock s content = (None, Some ErrUnmarshal, s)).
Proof.
  intros Hm. split.
  - by apply Get_absent.
  - intros f. by apply Get_unparsable.
Qed.

(** ** The per-item size limit *)

(** C10. A content of more than 5 MiB is refused before anything else
    happens: [Set] returns an error and the cache, memory and directory,
    is the one it was called on. *)
Theorem Set_rejects_oversized s content result expireAfter :
  maxFileSize s = 5 * 1024 * 1024 →
  5 * 1024 * 1024 < Z.of_nat (String.length content) →
  Set_ clock json_len s content result expireAfter = (Some ErrTooLarge, s).
Proof.
  intros Hmax Hlen. unfold Set_. rewrite Hmax.
  destruct (Z.ltb_spec (5 * 1024 * 1024) (Z.of_nat (String.length content)));
    [reflexivity | lia].
Qed.

(** ** The cleanup pass *)

Lemma sweep_refl s : sweep clock s s.
Proof.
  split; try done; try lia.
  - intros name. by destruct (disk s !! name) as [[]|].
  - intros sub name f Hf. by left.
Qed.

Lemma sweep_trans s1 s2 s3 :
  sweep clock s1 s2 → sweep clock s2 s3 → sweep clock s1 s3.
Proof.
  intros [] []. split; try congruence; try lia.
  - intros name. specialize (sweep_root0 name). specialize (sweep_root1 name).
    destruct (disk s1 !! name) as [[]|], (disk s2 !! name) as [[]|],
             (disk s3 !! name) as [[]|]; try done. congruence.
  - auto.
  - auto.
  - intros sub name f Hf.
    destruct (sweep_removed0 _ _ _ Hf) as [H2 | (item & n & ? & ? & ?)].
    + destruct (sweep_removed1 _ _ _ H2) as [H3 | (item & n & ? & ? & ?)].
      * by left.
      * right. exists item, n. repeat split; try done; lia.
    + right. exists item, n. repeat split; try done; lia.
Qed.

Lemma sweep_with_ticks s k :
  (ticks s <= k)%nat → sweep clock s (with_ticks k s).
Proof.
  intros Hk. split; simpl; try done; try lia.
  - intros name. by destruct (disk s !! name) as [[]|].
  - intros sub name f Hf. by left.
Qed.

(** The staleness test only reads the clock, and a positive answer comes
    from one of its readings. *)
Lemma stale_spec item s b s' :
  stale clock item s = (b, s') →
  s' = with_ticks (ticks s') s ∧ (ticks s <= ticks s')%nat ∧
  (b = true →
   ∃ n, (ticks s <= n < ticks s')%nat ∧ stale_at (clock n) item = true).
Proof.
  unfold stale, expired, stale_at, Now.
  destruct (ExpireAt item) as [e |]; simpl.
  - destruct (After (clock (ticks s)) e) eqn:Ha; intros [= <- <-]; simpl.
    + split_and!; [by destruct s | lia |]. intros _. exists (ticks s).
      rewrite Ha. split; [lia | done].
    + split_and!; [by destruct s | lia |]. intros Hb. exists (S (ticks s)).
      rewrite Hb. split; [lia | apply orb_true_r].
  - intros [= <- <-]; simpl.
    split_and!; [by destruct s | lia |]. intros Hb. exists (ticks s).
    rewrite Hb. split; [lia | done].
Qed.

Lemma file_at_Remove_in d sub name sub' name' :
  file_at (Remove_in d sub name) sub' name' =
  if decide (sub' = sub ∧ name' = name) then None else file_at d sub' name'.
Proof.
  unfold Remove_in, file_at.
  destruct (d !! sub) as [[f | dir] |] eqn:Hsub.
  - case_decide as Hd; [| done]. destruct Hd as [-> ->]. by rewrite Hsub.
  - destruct (decide (sub' = sub)) as [-> | Hne].
    + rewrite lookup_insert_eq.
      destruct (decide (name' = name)) as [-> | Hne'].
      * rewrite lookup_delete_eq. by rewrite decide_True.
      * rewrite lookup_delete_ne by done. rewrite Hsub.
        rewrite decide_False; [done | by intros [_ ?]].
    + rewrite lookup_insert_ne by done.
      rewrite decide_False; [done | by intros [? _]].
  - case_decide as Hd; [| done]. destruct Hd as [-> ->]. by rewrite Hsub.
Qed.

Lemma disk_ok_Remove_in d sub name :
  disk_ok d → disk_ok (Remove_in d sub name).
Proof.
  intros Hok. unfold Remove_in.
  destruct (d !! sub) as [[f | dir] |] eqn:Hsub; try done.
  intros x n. destruct (decide (sub = x)) as [<- | Hne].
  - rewrite lookup_insert_eq. intros [= <-].
    destruct (Hok _ _ Hsub) as (dir' & [= <-] & Hfiles).
    eexists. split; [done |]. intros y e Hy.
    apply lookup_delete_Some in Hy as [_ Hy]. eauto.
  - rewrite lookup_insert_ne by done. apply Hok.
Qed.

Lemma root_Remove_in d sub name x :
  match d !! x, Remove_in d sub name !! x with
  | None, None => True
  | Some (NFile f), Some (NFile f') => f = f'
  | Some (NDir _), Some (NDir _) => True
  | _, _ => False
  end.
Proof.
  unfold Remove_in.
  destruct (d !! sub) as [[f | dir] |] eqn:Hsub;
    try by destruct (d !! x) as [[]|].
  destruct (decide (sub = x)) as [<- | Hne].
  - by rewrite lookup_insert_eq, Hsub.
  - rewrite lookup_insert_ne by done. by destruct (d !! x) as [[]|].
Qed.

Lemma Clear_file_sweep sub s name entry :
  (∀ f, file_at (disk s) sub name = Some f → entry = EFile f) →
  sweep clock s (Clear_file clock sub s (name, entry)).
Proof.
  intros Hlist. unfold Clear_file.
  destruct (negb (Ext name =? ".json")%string); [apply sweep_refl |].
  destruct entry as [data |]; [| apply sweep_refl].
  destruct (decoded data) as [item |] eqn:Hdec; [| apply sweep_refl].
  destruct (stale clock item s) as [b s1] eqn:Hstale.
  apply stale_spec in Hstale as (Hs1 & Hticks & Hb).
  destruct b; [| rewrite Hs1; by apply sweep_with_ticks].
  destruct (Hb eq_refl) as (n & Hn & Hstale).
  rewrite Hs1. split; simpl; try done; try lia.
  - intros x. apply root_Remove_in.
  - apply disk_ok_Remove_in.
  - intros sub' name' f. rewrite file_at_Remove_in. by case_decide.
  - intros sub' name' f Hf. rewrite file_at_Remove_in.
    case_decide as Hd; [| by left]. destruct Hd as [-> ->].
    right. specialize (Hlist _ Hf) as [= ->]. eauto.
Qed.

Lemma Clear_files_sweep sub l s :
  listing_ok (disk s) sub l →
  sweep clock s (fold_left (Clear_file clock sub) l s).
Proof.
  revert s. induction l as [| [name entry] l IH]; intros s Hl; simpl.
  - apply sweep_refl.
  - assert (Hstep : sweep clock s (Clear_file clock sub s (name, entry))).
    { apply Clear_file_sweep. intros f. apply Hl. left. }
    eapply sweep_trans; [exact Hstep |]. apply IH.
    intros name' entry' f Hin Hf. eapply Hl; [by right |].
    by apply (sweep_no_new _ _ _ Hstep).
Qed.

Lemma listing_ok_ReadDir d sub dir :
  d !! sub = Some (NDir dir) → listing_ok d sub (ReadDir dir).
Proof.
  intros Hsub name entry f Hin. unfold file_at. rewrite Hsub.
  unfold ReadDir in Hin. rewrite merge_sort_Permutation in Hin.
  apply elem_of_map_to_list in Hin. rewrite Hin.
  destruct entry; [by intros [= ->] | done].
Qed.

Lemma Clear_shard_sweep s i : sweep clock s (Clear_shard clock s i).
Proof.
  unfold Clear_shard.
  destruct (disk s !! fmt_02x i) as [[f | dir] |] eqn:Hsub;
    try apply sweep_refl.
  apply Clear_files_sweep. by apply listing_ok_ReadDir.
Qed.

Lemma Clear_shards_sweep l s :
  sweep clock s (fold_left (Clear_shard clock) l s).
Proof.
  revert s. induction l as [| i l IH]; intros s; simpl.
  - apply sweep_refl.
  - eapply sweep_trans; [apply Clear_shard_sweep | apply IH].
Qed.

(** [Clear] is the reset of the memory tier and of the size counter
    followed by a sweep. *)
Lemma Clear_sweep s :
  fst (Clear clock s) = None ∧
  sweep clock (with_currentSize 0 (with_mem ∅ [] s)) (snd (Clear clock s)).
Proof. split; [done |]. apply Clear_shards_sweep. Qed.

(** ** [Set] *)

Lemma Set_too_large s content result expireAfter :
  maxFileSize s < Z.of_nat (String.length content) →
  Set_ clock json_len s content result expireAfter = (Some ErrTooLarge, s).
Proof.
  intros Hlen. unfold Set_.
  destruct (Z.ltb_spec (maxFileSize s) (Z.of_nat (String.length content)));
    [reflexivity | lia].
Qed.

Lemma MkdirAll_ok d sub :
  disk_ok d →
  ∃ d1 dir, MkdirAll d sub = inl d1 ∧ d1 !! sub = Some (NDir dir) ∧
            disk_ok d1 ∧
            (∀ x, x ≠ sub → d1 !! x = d !! x) ∧
            (∀ sub' name', file_at d1 sub' name' = file_at d sub' name').
Proof.
  intros Hok. unfold MkdirAll.
  destruct (d !! sub) as [[f | dir] |] eqn:Hsub.
  - by destruct (Hok _ _ Hsub) as (? & ? & _).
  - exists d, dir. by split_and!.
  - exists (<[sub := NDir ∅]> d), ∅. split_and!; try done.
    + apply lookup_insert_eq.
    + intros x n. destruct (decide (sub = x)) as [<- | Hne].
      * rewrite lookup_insert_eq. intros [= <-]. eexists. split; [done |].
        intros y e. by rewrite lookup_empty.
      * rewrite lookup_insert_ne by done. apply Hok.
    + intros x Hx. by rewrite lookup_insert_ne.
    + intros sub' name'. unfold file_at.
      destruct (decide (sub = sub')) as [<- | Hne].
      * by rewrite lookup_insert_eq, Hsub, lookup_empty.
      * by rewrite lookup_insert_ne.
Qed.

Lemma WriteFile_ok d sub dir name f :
  disk_ok d → d !! sub = Some (NDir dir) →
  ∃ d2, WriteFile d sub name f = inl d2 ∧ disk_ok d2 ∧
        file_at d2 sub name = Some f ∧
        (∀ x, x ≠ sub → d2 !! x = d !! x) ∧
        (∀ sub' name', (sub', name') ≠ (sub, name) →
                       file_at d2 sub' name' = file_at d sub' name').
Proof.
  intros Hok Hsub. unfold WriteFile. rewrite Hsub.
  destruct (Hok _ _ Hsub) as (dir' & [= <-] & Hfiles).
  assert (Hres : ∃ d2, match dir !! name with
                       | Some ESubdir => inr EISDIR
                       | _ => inl (<[sub := NDir (<[name := EFile f]> dir)]> d)
                       end = inl d2 ∧
                       d2 = <[sub := NDir (<[name := EFile f]> dir)]> d).
  { destruct (dir !! name) as [[g |] |] eqn:Hname; eauto.
    by destruct (Hfiles _ _ Hname). }
  destruct Hres as (d2 & -> & ->). eexists. split_and!; try done.
  - intros x n. destruct (decide (sub = x)) as [<- | Hne].
    + rewrite lookup_insert_eq. intros [= <-]. eexists. split; [done |].
      intros y e. destruct (decide (name = y)) as [<- | Hne'].
      * rewrite lookup_insert_eq. intros [= <-]. eauto.
      * rewrite lookup_insert_ne by done. apply Hfiles.
    + rewrite lookup_insert_ne by done. apply Hok.
  - unfold file_at. by rewrite !lookup_insert_eq.
  - intros x Hx. by rewrite lookup_insert_ne.
  - intros sub' name' Hne. unfold file_at.
    destruct (decide (sub = sub')) as [<- | Hne1].
    + rewrite lookup_insert_eq, Hsub.
      rewrite lookup_insert_ne; [done | congruence].
    + by rewrite lookup_insert_ne.
Qed.

Lemma make_room_with_disk s d :
  make_room (with_disk d s) = with_disk d (make_room s).
Proof.
  unfold make_room, removeOldest. simpl.
  destruct (Z.of_nat (length (lru s)) >=? maxItems s); [| done].
  destruct (last (lru s)) as [elem |]; [| done].
  by destruct (heap s !! elem).
Qed.

Lemma make_room_with_ticks s n :
  make_room (with_ticks n s) = with_ticks n (make_room s).
Proof.
  unfold make_room, removeOldest. simpl.
  destruct (Z.of_nat (length (lru s)) >=? maxItems s); [| done].
  destruct (last (lru s)) as [elem |]; [| done].
  by destruct (heap s !! elem).
Qed.

(** Making room touches the map and the list only. *)
Lemma make_room_frame s :
  heap (make_room s) = heap s ∧ nextPtr (make_room s) = nextPtr s ∧
  disk (make_room s) = disk s ∧ ticks (make_room s) = ticks s ∧
  currentSize (make_room s) = currentSize s ∧
  maxItems (make_room s) = maxItems s ∧
  maxFileSize (make_room s) = maxFileSize s ∧
  maxCacheSize (make_room s) = maxCacheSize s ∧
  subDirCount (make_room s) = subDirCount s.
Proof.
  unfold make_room, removeOldest.
  destruct (Z.of_nat (length (lru s)) >=? maxItems s); [| done].
  destruct (last (lru s)) as [elem |]; [| done].
  by destruct (heap s !! elem).
Qed.

(** What a [Set] does when the content is within the per-item limit, the
    budget test passes and the directory is the cache's own: it succeeds,
    writes the entry to its shard and makes it the front of the memory
    tier. *)
Lemma Set_accepts s content result expireAfter :
  Z.of_nat (String.length content) <= maxFileSize s →
  currentSize s + Z.of_nat (String.length content) <= maxCacheSize s →
  disk_ok (disk s) →
  ∃ s' sub,
    Set_ clock json_len s content result expireAfter = (None, s') ∧
    subDir_of (hashContent content) = Some sub ∧
    memCache s' = <[hashContent content := nextPtr s]> (memCache (make_room s))
    ∧ lru s' = nextPtr s :: lru (make_room s)
    ∧ heap s' =
      <[nextPtr s := Set_item clock s content result expireAfter]> (heap s)
    ∧ nextPtr s' = S (nextPtr s)
    ∧ ticks s' = S (S (ticks s))
    ∧ currentSize s' = currentSize s
    ∧ maxItems s' = maxItems s
    ∧ maxFileSize s' = maxFileSize s
    ∧ maxCacheSize s' = maxCacheSize s
    ∧ subDirCount s' = subDirCount s
    ∧ disk_ok (disk s')
    ∧ file_at (disk s') sub (json_name (hashContent content)) =
      Some (Marshal json_len (Set_item clock s content result expireAfter))
    ∧ (∀ x, x ≠ sub → disk s' !! x = disk s !! x)
    ∧ (∀ sub' name', (sub', name') ≠ (sub, json_name (hashContent content)) →
         file_at (disk s') sub' name' = file_at (disk s) sub' name').
Proof.
  intros Hlen Hbudget Hok. unfold Set_.
  destruct (Z.ltb_spec (maxFileSize s) (Z.of_nat (String.length content)));
    [lia |].
  destruct (Z.ltb_spec (maxCacheSize s)
              (currentSize s + Z.of_nat (String.length content))); [lia |].
  destruct (subDir_of_hashContent content) as (sub & Hsub & _).
  cbn [Now fst snd]. rewrite Hsub.
  destruct (MkdirAll_ok (disk s) sub Hok) as (d1 & dir & Hmk & Hd1 & Hok1 & Hroot1 & Hf1).
  cbn [disk with_ticks]. rewrite Hmk.
  destruct (WriteFile_ok d1 sub dir (json_name (hashContent content))
              (Marshal json_len (Set_item clock s content result expireAfter))
              Hok1 Hd1) as (d2 & Hwr & Hok2 & Hnew & Hroot2 & Hf2).
  unfold Set_item in *. cbn [ticks with_ticks] in *. rewrite Hwr.
  set (X := with_disk d2 _).
  change (if Z.of_nat (length (lru X)) >=? maxItems X
          then removeOldest X else X) with (make_room X).
  subst X. rewrite make_room_with_disk, !make_room_with_ticks.
  destruct (make_room_frame s) as (Hh & Hp & Hd & Ht & Hc & H1 & H2 & H3 & H4).
  eexists _, sub. split; [reflexivity |].
  cbn [PushFront memCache lru heap nextPtr disk ticks currentSize maxItems
       maxFileSize maxCacheSize subDirCount with_mem with_heap with_nextPtr
       with_disk with_ticks].
  rewrite Hh, Hp, Hc, H1, H2, H3, H4.
  split_and!; try done.
  - intros x Hx. rewrite Hroot2, Hroot1; done.
  - intros sub' name' Hne. by rewrite Hf2, Hf1.
Qed.

(** ** What [Get] leaves untouched *)

(** On a directory of the cache's own, [Get] answers from the memory tier
    alone and changes neither the map nor the directory. *)
Lemma Get_own_directory s content :
  disk_ok (disk s) →
  ∃ err s',
    Get clock s content = (memCache s !! hashContent content, err, s') ∧
    (is_Some (memCache s !! hashContent content) → err = None) ∧
    memCache s' = memCache s ∧ disk s' = disk s ∧
    currentSize s' = currentSize s ∧ maxItems s' = maxItems s ∧
    maxFileSize s' = maxFileSize s ∧ maxCacheSize s' = maxCacheSize s ∧
    subDirCount s' = subDirCount s.
Proof.
  intros Hok.
  destruct (memCache s !! hashContent content) as [elem |] eqn:Hm.
  - rewrite (Get_hit _ _ _ Hm). eexists _, _. by split_and!.
  - destruct (disk s !! json_name (hashContent content)) as [n |] eqn:Hd.
    + destruct (Hok _ _ Hd) as (dir & -> & _).
      rewrite (Get_directory _ _ _ Hm Hd). eexists _, _. by split_and!.
    + rewrite (Get_absent _ _ Hm Hd). eexists _, _. by split_and!.
Qed.

Lemma cached_own_directory s content :
  disk_ok (disk s) →
  cached clock s content = true ↔
  is_Some (memCache s !! hashContent content).
Proof.
  intros Hok. unfold cached.
  destruct (Get_own_directory s content Hok) as (err & s' & -> & Herr & _).
  destruct (memCache s !! hashContent content) as [elem |].
  - rewrite Herr by eauto. split; eauto.
  - split; [done | by intros [? ?]].
Qed.

(** ** The invariant of the reachable states *)

Lemma inv_Get s content : inv s → inv (snd (Get clock s content)).
Proof.
  intros [H1 H2 H3 H4 H5 H6].
  destruct (Get_own_directory s content H5)
    as (err & s' & -> & _ & _ & Hd & Hc & _ & Hf & Hb & Hn).
  split; simpl; rewrite ?Hd, ?Hc, ?Hf, ?Hb, ?Hn; done.
Qed.

Lemma inv_Set s content result expireAfter :
  inv s → inv (snd (Set_ clock json_len s content result expireAfter)).
Proof.
  intros Hinv. pose proof Hinv as [H1 H2 H3 H4 H5 H6].
  destruct (Z.le_gt_cases (Z.of_nat (String.length content)) (maxFileSize s))
    as [Hlen | Hlen].
  - destruct (Set_accepts s content result expireAfter) as
      (s' & sub & -> & Hsub & _ & _ & _ & _ & _ & Hc & _ & Hf & Hb & Hn & Hd
       & _ & Hroot & _); [lia | lia | done |].
    split; simpl; rewrite ?Hc, ?Hf, ?Hb, ?Hn; try done.
    intros name n. destruct (decide (name = sub)) as [-> | Hne].
    + intros _. destruct (subDir_of_hashContent content) as (sub' & Hsub' & Hin).
      congruence.
    + rewrite Hroot by done. apply H6.
  - by rewrite Set_too_large by lia.
Qed.

Lemma inv_Clear s : inv s → inv (snd (Clear clock s)).
Proof.
  intros [H1 H2 H3 H4 H5 H6]. destruct (Clear_sweep s) as [_ []].
  simpl in *. split; try congruence; try lia; auto.
  intros name n Hn. specialize (sweep_root0 name). rewrite Hn in sweep_root0.
  destruct (disk s !! name) as [n' |] eqn:Hn'; [by eapply H6 | done].
Qed.

Lemma reachable_inv s :
  reachable clock json_len s → inv s ∧ maxItems s = 100.
Proof.
  induction 1 as [n | s _ [IH Hm] | s content _ [IH Hm]
                 | s content result e _ [IH Hm] | s _ [IH Hm]].
  - by split; [split |].
  - split; [| done]. destruct IH. by split.
  - split; [by apply inv_Get |].
    destruct (Get_own_directory s content (inv_disk _ IH))
      as (err & s' & -> & _ & _ & _ & _ & Hi & _). simpl. congruence.
  - split; [by apply inv_Set |].
    destruct IH as [H1 H2 H3 H4 H5 H6].
    destruct (Z.le_gt_cases (Z.of_nat (String.length content))
                (maxFileSize s)) as [Hlen | Hlen].
    + destruct (Set_accepts s content result e) as
        (s' & sub & -> & _ & _ & _ & _ & _ & _ & _ & Hi & _);
        [lia | lia | done |]. simpl. congruence.
    + by rewrite Set_too_large by lia.
  - split; [by apply inv_Clear |].
    destruct (Clear_sweep s) as [_ []]. simpl in *. congruence.
Qed.

(** ** Write, then read *)

(** In any state whatsoever, a [Set] that returns no error has put the
    entry behind the key of the content in the memory tier. *)
Lemma Set_ok_memory s content result expireAfter s1 :
  Set_ clock json_len s content result expireAfter = (None, s1) →
  ∃ elem item,
    memCache s1 !! hashContent content = Some elem ∧
    heap s1 !! elem = Some item ∧
    ReviewResult item = result ∧ ContentHash item = hashContent content.
Proof.
  unfold Set_, Clear, Now, PushFront. intros H.
  repeat case_match; simplify_eq; simpl;
    eexists _, _; rewrite !lookup_insert_eq; done.
Qed.

(** Hence the [Get] that follows a successful [Set] is a hit on that
    entry, in any state. *)
Lemma Get_after_Set s content result expireAfter s1 :
  Set_ clock json_len s content result expireAfter = (None, s1) →
  ∃ elem s2 item,
    Get clock s1 content = (Some elem, None, s2) ∧
    load s2 elem = Some item ∧
    ReviewResult item = result ∧ ContentHash item = hashContent content.
Proof.
  intros HSet.
  destruct (Set_ok_memory _ _ _ _ _ HSet) as (elem & item & Hm & Hh & Hr & Hc).
  eexists elem, _, _. split; [by apply Get_hit |].
  unfold load. simpl. rewrite lookup_alter_eq, Hh. by split_and!.
Qed.

(** C1, as amended. On a reachable cache, for every content of at most
    5 MiB and every value and expiry, [Set] succeeds and the [Get] that
    follows finds an entry, without error, whose value is the one that was
    set. *)
Theorem Set_then_Get s content result expireAfter :
  reachable clock json_len s →
  Z.of_nat (String.length content) <= 5 * 1024 * 1024 →
  ∃ s1 elem s2 item,
    Set_ clock json_len s content result expireAfter = (None, s1) ∧
    Get clock s1 content = (Some elem, None, s2) ∧
    load s2 elem = Some item ∧
    ReviewResult item = result ∧ ContentHash item = hashContent content.
Proof.
  intros Hr Hlen. destruct (reachable_inv _ Hr) as [[H1 H2 H3 H4 H5 H6] _].
  destruct (Set_accepts s content result expireAfter)
    as (s1 & sub & HSet & _ & Hm & _ & Hh & _); [lia | lia | done |].
  assert (Hlook : memCache s1 !! hashContent content = Some (nextPtr s))
    by (rewrite Hm; apply lookup_insert_eq).
  eexists s1, _, _, _. split; [done |]. split; [by apply Get_hit |].
  unfold load. simpl. rewrite lookup_alter_eq, Hh, lookup_insert_eq.
  by split_and!.
Qed.

(** ** The size budget *)

(** C4, on the code. The size counter of a reachable cache is never
    positive, so the budget test of [Set] never fires: whatever is already
    stored, a content within the per-item limit is written, nothing is
    cleaned up first, no capacity error is returned and every file that was
    there is still there. *)
Theorem Set_budget_check_never_fires s content result expireAfter :
  reachable clock json_len s →
  Z.of_nat (String.length content) <= 5 * 1024 * 1024 →
  currentSize s <= 0 ∧
  ∃ s1 sub,
    Set_ clock json_len s content result expireAfter = (None, s1) ∧
    currentSize s1 = currentSize s ∧
    file_at (disk s1) sub (json_name (hashContent content)) =
      Some (Marshal json_len (Set_item clock s content result expireAfter)) ∧
    ∀ sub' name' f,
      (sub', name') ≠ (sub, json_name (hashContent content)) →
      file_at (disk s) sub' name' = Some f →
      file_at (disk s1) sub' name' = Some f.
Proof.
  intros Hr Hlen. destruct (reachable_inv _ Hr) as [[H1 H2 H3 H4 H5 H6] _].
  split; [done |].
  destruct (Set_accepts s content result expireAfter)
    as (s1 & sub & HSet & _ & _ & _ & _ & _ & _ & Hc & _ & _ & _ & _ & _
        & Hnew & _ & Hold); [lia | lia | done |].
  exists s1, sub. split_and!; try done.
  intros sub' name' f Hne Hf. by rewrite Hold.
Qed.

Lemma BatchSet_fold items expireAfter errMsgs s :
  reachable clock json_len s →
  Forall (λ kv, Z.of_nat (String.length (fst kv)) <= 5 * 1024 * 1024) items →
  fst (fold_left (BatchSet_step clock json_len expireAfter) items (errMsgs, s))
  = errMsgs ∧
  reachable clock json_len
    (snd (fold_left (BatchSet_step clock json_len expireAfter) items
            (errMsgs, s))) ∧
  ∀ sub name,
    is_Some (file_at (disk s) sub name) ∨
    (∃ kv, kv ∈ items ∧ subDir_of (hashContent (fst kv)) = Some sub ∧
           name = json_name (hashContent (fst kv))) →
    is_Some (file_at
               (disk (snd (fold_left (BatchSet_step clock json_len expireAfter)
                             items (errMsgs, s)))) sub name).
Proof.
  revert errMsgs s. induction items as [| [c r] items IH];
    intros errMsgs s Hr Hlen; simpl.
  - split_and!; try done. intros sub name [? | (kv & Hin & _)]; [done |].
    by apply elem_of_nil in Hin.
  - apply Forall_cons in Hlen as [Hc Hlen]. simpl in Hc.
    pose proof (reach_Set clock json_len s c r expireAfter Hr) as Hr1.
    destruct (reachable_inv _ Hr) as [[H1 H2 H3 H4 H5 H6] _].
    destruct (Set_accepts s c r expireAfter)
      as (s1 & sub1 & HSet & Hsub1 & _ & _ & _ & _ & _ & _ & _ & _ & _ & _ & _
          & Hnew & _ & Hold); [lia | lia | done |].
    rewrite HSet in Hr1 |- *. simpl in Hr1.
    destruct (IH errMsgs s1 Hr1 Hlen) as (Herr & Hreach & Hfiles).
    split_and!; try done. intros sub name Hcase. apply Hfiles.
    destruct (decide ((sub, name) = (sub1, json_name (hashContent c))))
      as [[= -> ->] | Hne].
    { left. rewrite Hnew. eauto. }
    destruct Hcase as [Hthere | (kv & Hin & Hsub & Hname)].
    + left. by rewrite Hold.
    + apply elem_of_cons in Hin as [-> | Hin].
      * simpl in Hsub, Hname. congruence.
      * right. eauto.
Qed.

(** However many contents are written, none of the writes is refused for
    lack of room and every one of the files is on disk at the end. *)
Lemma BatchSet_never_over_budget s items expireAfter :
  reachable clock json_len s →
  Forall (λ kv, Z.of_nat (String.length (fst kv)) <= 5 * 1024 * 1024) items →
  fst (BatchSet clock json_len s items expireAfter) = [] ∧
  currentSize (snd (BatchSet clock json_len s items expireAfter)) <= 0 ∧
  ∀ kv, kv ∈ items →
    ∃ sub, subDir_of (hashContent (fst kv)) = Some sub ∧
           is_Some (file_at
                      (disk (snd (BatchSet clock json_len s items expireAfter)))
                      sub (json_name (hashContent (fst kv)))).
Proof.
  intros Hr Hlen. unfold BatchSet.
  destruct (BatchSet_fold items expireAfter [] s Hr Hlen)
    as (Herr & Hreach & Hfiles).
  split_and!; try done.
  - by destruct (reachable_inv _ Hreach) as [[] _].
  - intros kv Hin.
    destruct (subDir_of_hashContent (fst kv)) as (sub & Hsub & _).
    exists sub. split; [done |]. apply Hfiles. right. eauto.
Qed.

(** ** The cleanup pass, seen from outside *)

(** C6, as amended. [Clear] returns no error and empties the memory tier;
    in the directory it creates nothing and deletes a file only when one of
    the clock readings of the pass finds its entry expired or idle for more
    than a day: every other persisted entry is still there afterwards. *)
Theorem Clear_purges_memory_and_stale_files s :
  fst (Clear clock s) = None ∧
  memCache (snd (Clear clock s)) = ∅ ∧
  lru (snd (Clear clock s)) = [] ∧
  (∀ sub name f,
     file_at (disk (snd (Clear clock s))) sub name = Some f →
     file_at (disk s) sub name = Some f) ∧
  (∀ sub name f,
     file_at (disk s) sub name = Some f →
     file_at (disk (snd (Clear clock s))) sub name = Some f ∨
     ∃ item n, decoded f = Some item ∧
               (ticks s <= n < ticks (snd (Clear clock s)))%nat ∧
               stale_at (clock n) item = true).
Proof.
  destruct (Clear_sweep s) as [Herr Hsw]. destruct Hsw. simpl in *.
  split_and!; try done.
Qed.

Lemma Clear_file_root sub s file x :
  x ≠ sub → disk (Clear_file clock sub s file) !! x = disk s !! x.
Proof.
  intros Hx. destruct file as [name entry]. unfold Clear_file.
  destruct (negb (Ext name =? ".json")%string); [done |].
  destruct entry as [data |]; [| done].
  destruct (decoded data) as [item |]; [| done].
  destruct (stale clock item s) as [b s1] eqn:Hstale.
  apply stale_spec in Hstale as (Hs1 & _ & _).
  assert (Hd : disk s1 = disk s) by (rewrite Hs1; done).
  destruct b; [| by rewrite Hd]. simpl. rewrite Hd. unfold Remove_in.
  destruct (disk s !! sub) as [[f | dir] |]; try done.
  by rewrite lookup_insert_ne.
Qed.

Lemma Clear_files_root sub l s x :
  x ≠ sub → disk (fold_left (Clear_file clock sub) l s) !! x = disk s !! x.
Proof.
  intros Hx. revert s. induction l as [| file l IH]; intros s; simpl.
  - done.
  - rewrite IH. by apply Clear_file_root.
Qed.

Lemma Clear_shard_root s i x :
  x ≠ fmt_02x i → disk (Clear_shard clock s i) !! x = disk s !! x.
Proof.
  intros Hx. unfold Clear_shard.
  destruct (disk s !! fmt_02x i) as [[f | dir] |]; try done.
  by apply Clear_files_root.
Qed.

Lemma Clear_shards_root l s x :
  x ∉ map fmt_02x l →
  disk (fold_left (Clear_shard clock) l s) !! x = disk s !! x.
Proof.
  revert s. induction l as [| i l IH]; intros s Hx; simpl.
  - done.
  - simpl in Hx. apply not_elem_of_cons in Hx as [Hi Hl].
    rewrite IH by done. by apply Clear_shard_root.
Qed.

(** [Clear] leaves alone every directory whose name is not one of those it
    scans; the directories [Set] writes to are among them. *)
Lemma Clear_root s x :
  x ∉ Clear_shards s → disk (snd (Clear clock s)) !! x = disk s !! x.
Proof. intros Hx. unfold Clear. simpl. by rewrite Clear_shards_root. Qed.

Lemma Clear_skips_Set_shards s sub :
  subDirCount s = 16 → sub ∈ Set_shards →
  disk (snd (Clear clock s)) !! sub = disk s !! sub.
Proof.
  intros Hc Hin. apply Clear_root. by apply Set_shards_not_scanned.
Qed.

(** ** Batch lookup *)

Lemma BatchGet_fold l result s :
  disk_ok (disk s) →
  ∀ c, is_Some (fst (fold_left (BatchGet_step clock) l (result, s)) !! c) ↔
       is_Some (result !! c) ∨
       (c ∈ l ∧ is_Some (memCache s !! hashContent c)).
Proof.
  revert result s. induction l as [| x l IH]; intros result s Hok c; simpl.
  - split; [by left | intros [? | [Hin _]]; [done | by inversion Hin]].
  - destruct (Get_own_directory s x Hok)
      as (err & s' & -> & Herr & Hm & Hd & _).
    assert (Hok' : disk_ok (disk s')) by (by rewrite Hd).
    rewrite elem_of_cons.
    destruct (memCache s !! hashContent x) as [elem |] eqn:Hx.
    + rewrite Herr by eauto. rewrite (IH _ _ Hok'), Hm.
      destruct (decide (c = x)) as [-> | Hne].
      * rewrite lookup_insert_eq, Hx. split; [intros _ | eauto].
        right. split; [by left | eauto].
      * rewrite lookup_insert_ne by done.
        split; [intros [? | [? ?]]; auto | intros [? | [[? | ?] ?]]; auto].
        done.
    + rewrite (IH _ _ Hok'), Hm.
      split; [intros [? | [? ?]]; auto |].
      intros [? | [[-> | ?] Hs]]; [by left | | by right].
      rewrite Hx in Hs. by destruct Hs.
Qed.

(** C9. On a reachable cache, the keys of the mapping [BatchGet] returns
    are exactly those contents of the list that are cached: none is
    missing, none is spurious, the others are absent; the mapping has as
    many keys as there are distinct cached contents in the list, which is
    [M] when the list has no repetition and [M] of its contents are
    cached. *)
Theorem BatchGet_exact s contents :
  reachable clock json_len s →
  (∀ c, is_Some (fst (BatchGet clock s contents) !! c) ↔
        c ∈ contents ∧ cached clock s c = true) ∧
  size (fst (BatchGet clock s contents)) =
  size (filter (λ c, cached clock s c = true)
               (list_to_set contents : gset string)) ∧
  (NoDup contents →
   size (fst (BatchGet clock s contents)) =
   length (filter (λ c, cached clock s c = true) contents)).
Proof.
  intros Hr. destruct (reachable_inv _ Hr) as [[_ _ _ _ Hok _] _].
  assert (Hkeys : ∀ c, is_Some (fst (BatchGet clock s contents) !! c) ↔
                       c ∈ contents ∧ cached clock s c = true).
  { intros c. unfold BatchGet. rewrite (BatchGet_fold _ _ _ Hok).
    rewrite lookup_empty, (cached_own_directory _ _ Hok).
    split; [intros [[? ?] | ?]; done | by right]. }
  split; [done |]. split.
  { rewrite <- size_dom.
    replace (dom (fst (BatchGet clock s contents)))
      with (filter (λ c, cached clock s c = true)
                   (list_to_set contents : gset string)); [done |].
    apply set_eq. intros c.
    rewrite elem_of_filter, elem_of_list_to_set, elem_of_dom, Hkeys. tauto. }
  intros Hnd.
  rewrite <- size_dom.
  replace (dom (fst (BatchGet clock s contents)))
    with (list_to_set (C := gset string)
            (filter (λ c, cached clock s c = true) contents)).
  - apply size_list_to_set. by apply NoDup_filter.
  - apply set_eq. intros c.
    rewrite elem_of_list_to_set, list_elem_of_filter, elem_of_dom, Hkeys.
    tauto.
Qed.

(** ** The memory tier is an LRU list *)

Lemma make_room_below s :
  Z.of_nat (length (lru s)) < maxItems s → make_room s = s.
Proof.
  intros H. unfold make_room.
  destruct (Z.geb_spec (Z.of_nat (length (lru s))) (maxItems s)); [lia | done].
Qed.

Lemma make_room_full s :
  maxItems s <= Z.of_nat (length (lru s)) → make_room s = removeOldest s.
Proof.
  intros H. unfold make_room.
  destruct (Z.geb_spec (Z.of_nat (length (lru s))) (maxItems s)); [done | lia].
Qed.

Lemma lru_removeOldest s : lru (removeOldest s) = removelast (lru s).
Proof.
  unfold removeOldest. destruct (last (lru s)) as [elem |] eqn:Hlast.
  - by destruct (heap s !! elem).
  - apply last_None in Hlast. by rewrite Hlast.
Qed.

Lemma memCache_removeOldest s elem item :
  last (lru s) = Some elem → heap s !! elem = Some item →
  memCache (removeOldest s) = delete (ContentHash item) (memCache s).
Proof. intros Hlast Hitem. unfold removeOldest. by rewrite Hlast, Hitem. Qed.

(** A hit moves the element to the front of the list. *)
Lemma Get_hit_moves_to_front s content elem :
  memCache s !! hashContent content = Some elem → elem ∈ lru s →
  lru (snd (Get clock s content)) = elem :: List.remove Nat.eq_dec elem (lru s).
Proof.
  intros Hm Hin. rewrite (Get_hit _ _ _ Hm). simpl. unfold MoveToFront.
  by rewrite bool_decide_eq_true_2.
Qed.

(** An insertion into a full list drops the element at the back, and its
    key, before the new element goes to the front. *)
Lemma Set_at_capacity_evicts_oldest s content result expireAfter :
  inv s → Z.of_nat (String.length content) <= 5 * 1024 * 1024 →
  maxItems s <= Z.of_nat (length (lru s)) →
  ∃ s', Set_ clock json_len s content result expireAfter = (None, s') ∧
        lru s' = nextPtr s :: removelast (lru s) ∧
        ∀ elem item,
          last (lru s) = Some elem → heap s !! elem = Some item →
          ContentHash item ≠ hashContent content →
          memCache s' !! ContentHash item = None.
Proof.
  intros [H1 H2 H3 H4 H5 H6] Hlen Hfull.
  destruct (Set_accepts s content result expireAfter)
    as (s' & sub & HSet & _ & Hm & Hl & _); [lia | lia | done |].
  exists s'. split; [done |]. rewrite make_room_full in Hm, Hl by done.
  split; [by rewrite Hl, lru_removeOldest |].
  intros elem item Hlast Hitem Hne.
  rewrite Hm, lookup_insert_ne by done.
  rewrite (memCache_removeOldest _ _ _ Hlast Hitem). apply lookup_delete_eq.
Qed.

(** C8. With room for two entries and an empty memory tier, inserting [A]
    then [B], reading [A] and inserting [C] leaves exactly [A] and [C] in
    the memory tier, [C] in front; in general a hit moves the entry to the
    front and an insertion into a full tier first drops the entry at the
    back. *)
Theorem lru_capacity_two s0 A B C vA vB vC eA eB eC :
  inv s0 → maxItems s0 = 2 → memCache s0 = ∅ → lru s0 = [] →
  Z.of_nat (String.length A) <= 5 * 1024 * 1024 →
  Z.of_nat (String.length B) <= 5 * 1024 * 1024 →
  Z.of_nat (String.length C) <= 5 * 1024 * 1024 →
  hashContent A ≠ hashContent B → hashContent A ≠ hashContent C →
  hashContent B ≠ hashContent C →
  (∃ s1 s2 s3 s4 elem,
     Set_ clock json_len s0 A vA eA = (None, s1) ∧
     Set_ clock json_len s1 B vB eB = (None, s2) ∧
     Get clock s2 A = (Some elem, None, s3) ∧
     Set_ clock json_len s3 C vC eC = (None, s4) ∧
     dom (memCache s4) = {[hashContent A; hashContent C]} ∧
     lru_hashes s4 = [Some (hashContent C); Some (hashContent A)]) ∧
  (∀ s content elem,
     memCache s !! hashContent content = Some elem → elem ∈ lru s →
     lru (snd (Get clock s content)) =
     elem :: List.remove Nat.eq_dec elem (lru s)) ∧
  (∀ s content result expireAfter,
     inv s → Z.of_nat (String.length content) <= 5 * 1024 * 1024 →
     maxItems s <= Z.of_nat (length (lru s)) →
     ∃ s', Set_ clock json_len s content result expireAfter = (None, s') ∧
           lru s' = nextPtr s :: removelast (lru s) ∧
           ∀ elem item,
             last (lru s) = Some elem → heap s !! elem = Some item →
             ContentHash item ≠ hashContent content →
             memCache s' !! ContentHash item = None).
Proof.
  intros Hinv0 Hmax0 Hmem0 Hlru0 HlenA HlenB HlenC HAB HAC HBC.
  split; [| split; [apply Get_hit_moves_to_front
                   | apply Set_at_capacity_evicts_oldest]].
  (* insert A *)
  pose proof (inv_Set s0 A vA eA Hinv0) as Hinv1.
  destruct (Set_accepts s0 A vA eA)
    as (s1 & subA & HSet1 & _ & Hm1 & Hl1 & Hh1 & Hp1 & _ & _ & Hmax1 & _);
    [destruct Hinv0; lia | destruct Hinv0; lia | by destruct Hinv0 |].
  rewrite HSet1 in Hinv1. simpl in Hinv1.
  rewrite make_room_below in Hm1, Hl1 by (rewrite Hlru0; simpl; lia).
  rewrite Hmem0 in Hm1. rewrite Hlru0 in Hl1. rewrite Hmax0 in Hmax1.
  (* insert B *)
  pose proof (inv_Set s1 B vB eB Hinv1) as Hinv2.
  destruct (Set_accepts s1 B vB eB)
    as (s2 & subB & HSet2 & _ & Hm2 & Hl2 & Hh2 & Hp2 & _ & _ & Hmax2 & _);
    [destruct Hinv1; lia | destruct Hinv1; lia | by destruct Hinv1 |].
  rewrite HSet2 in Hinv2. simpl in Hinv2.
  rewrite make_room_below in Hm2, Hl2 by (rewrite Hl1; simpl; lia).
  rewrite Hm1 in Hm2. rewrite Hl1, Hp1 in Hl2. rewrite Hmax1 in Hmax2.
  rewrite Hp1 in Hm2, Hh2.
  (* read A *)
  assert (HgetA : memCache s2 !! hashContent A = Some (nextPtr s0)).
  { rewrite Hm2, lookup_insert_ne by done. apply lookup_insert_eq. }
  pose proof (inv_Get s2 A Hinv2) as Hinv3.
  pose proof (Get_hit s2 A _ HgetA) as HGet. rewrite HGet in Hinv3.
  set (s3 := with_mem _ _ _) in HGet, Hinv3. simpl in Hinv3.
  assert (Hl3 : lru s3 = [nextPtr s0; S (nextPtr s0)]).
  { subst s3. simpl. rewrite Hl2. unfold MoveToFront.
    rewrite bool_decide_eq_true_2 by (apply elem_of_cons; right; left).
    simpl. destruct (Nat.eq_dec (nextPtr s0) (S (nextPtr s0))); [lia |].
    by destruct (Nat.eq_dec (nextPtr s0) (nextPtr s0)). }
  assert (Hm3 : memCache s3 = memCache s2) by done.
  assert (Hh3 : heap s3 =
                alter (touch (clock (ticks s2))) (nextPtr s0) (heap s2)) by done.
  assert (Hp3 : nextPtr s3 = S (S (nextPtr s0))) by (subst s3; simpl; lia).
  assert (Hmax3 : maxItems s3 = 2) by done.
  clearbody s3.
  (* insert C *)
  destruct (Set_accepts s3 C vC eC)
    as (s4 & subC & HSet4 & _ & Hm4 & Hl4 & Hh4 & _);
    [destruct Hinv3; lia | destruct Hinv3; lia | by destruct Hinv3 |].
  rewrite make_room_full in Hm4, Hl4 by (rewrite Hl3, Hmax3; simpl; lia).
  assert (HitemB : heap s3 !! S (nextPtr s0) =
                   Some (Set_item clock s1 B vB eB)).
  { rewrite Hh3, lookup_alter_ne by lia. rewrite Hh2. apply lookup_insert_eq. }
  assert (HitemA : heap s3 !! nextPtr s0 =
                   Some (touch (clock (ticks s2)) (Set_item clock s0 A vA eA))).
  { rewrite Hh3, lookup_alter_eq, Hh2, lookup_insert_ne by lia.
    by rewrite Hh1, lookup_insert_eq. }
  rewrite (memCache_removeOldest s3 (S (nextPtr s0))
             (Set_item clock s1 B vB eB)) in Hm4;
    [| by rewrite Hl3 | exact HitemB].
  rewrite lru_removeOldest, Hl3 in Hl4.
  cbn [removelast ContentHash Set_item] in Hm4, Hl4.
  rewrite Hm3, Hm2, delete_insert_eq in Hm4.
  rewrite delete_insert_ne, delete_empty in Hm4 by done.
  exists s1, s2, s3, s4, (nextPtr s0). split_and!; try done.
  - rewrite Hm4, !dom_insert_L, dom_empty_L. apply set_eq. intros x.
    rewrite !elem_of_union, !elem_of_singleton, elem_of_empty. tauto.
  - unfold lru_hashes. rewrite Hl4, Hh4, Hp3. cbn [map].
    rewrite lookup_insert_eq, lookup_insert_ne by lia. by rewrite HitemA.
Qed.

(** ** The three defects, for every content *)

Lemma length_json_name h :
  String.length (json_name h) = (String.length h + 5)%nat.
Proof.
  unfold json_name. induction h as [| c h IH]; simpl; [done | by rewrite IH].
Qed.

(** No shard directory has the name of an entry file. *)
Lemma Set_shards_not_json sub h : sub ∈ Set_shards → sub ≠ json_name h.
Proof.
  intros Hin ->.
  assert (Hlen : Forall (λ x, String.length x = 2%nat) Set_shards)
    by (vm_compute; repeat constructor).
  rewrite Forall_forall in Hlen. specialize (Hlen _ Hin).
  rewrite length_json_name in Hlen. lia.
Qed.

(** C2, on the code. On a reachable cache, whatever content within the
    per-item limit [Set] stores, the entry is written to a file of a shard
    directory, and after a restart [Get] on the same content is a miss:
    [Get] looks for the file at the root of the cache directory. *)
Theorem Set_then_restart_misses s content result expireAfter :
  reachable clock json_len s →
  Z.of_nat (String.length content) <= 5 * 1024 * 1024 →
  ∃ s1 sub,
    Set_ clock json_len s content result expireAfter = (None, s1) ∧
    file_at (disk s1) sub (json_name (hashContent content)) =
      Some (Marshal json_len (Set_item clock s content result expireAfter)) ∧
    Get clock (restart s1) content = (None, None, restart s1).
Proof.
  intros Hr Hlen. destruct (reachable_inv _ Hr) as [Hinv _].
  pose proof (inv_Set s content result expireAfter Hinv) as Hinv1.
  destruct Hinv as [H1 H2 H3 H4 H5 H6].
  destruct (Set_accepts s content result expireAfter)
    as (s1 & sub & HSet & _ & _ & _ & _ & _ & _ & _ & _ & _ & _ & _ & _
        & Hnew & _); [lia | lia | done |].
  rewrite HSet in Hinv1. simpl in Hinv1.
  exists s1, sub. split_and!; try done.
  apply Get_absent; [apply lookup_empty |]. simpl.
  destruct (disk s1 !! json_name (hashContent content)) as [n |] eqn:Hn;
    [| done].
  apply (inv_root _ Hinv1) in Hn.
  exfalso. exact (Set_shards_not_json _ _ Hn eq_refl).
Qed.

(** C3, on the code. On a reachable cache, an entry set with an expiry
    that has passed when the next [Get] reads the clock is returned by that
    [Get] all the same, from the memory tier, with its expiry time in the
    past. *)
Theorem Get_returns_expired_entry s content result d :
  reachable clock json_len s →
  Z.of_nat (String.length content) <= 5 * 1024 * 1024 →
  After (clock (S (S (ticks s)))) (Add (clock (ticks s)) d) = true →
  ∃ s1 elem s2 item,
    Set_ clock json_len s content result (Some d) = (None, s1) ∧
    Get clock s1 content = (Some elem, None, s2) ∧
    load s2 elem = Some item ∧
    ReviewResult item = result ∧
    ExpireAt item = Some (Add (clock (ticks s)) d) ∧
    LastAccessed item = clock (ticks s1) ∧
    After (LastAccessed item) (Add (clock (ticks s)) d) = true.
Proof.
  intros Hr Hlen Hexp.
  destruct (reachable_inv _ Hr) as [[H1 H2 H3 H4 H5 H6] _].
  destruct (Set_accepts s content result (Some d))
    as (s1 & sub & HSet & _ & Hm & _ & Hh & _ & Ht & _); [lia | lia | done |].
  assert (Hlook : memCache s1 !! hashContent content = Some (nextPtr s))
    by (rewrite Hm; apply lookup_insert_eq).
  eexists s1, _, _, _. split; [done |]. split; [by apply Get_hit |].
  unfold load. simpl. rewrite lookup_alter_eq, Hh, lookup_insert_eq.
  split; [reflexivity |]. simpl. rewrite Ht. by split_and!.
Qed.

(** C5, on the code. On a reachable cache, whatever content within the
    per-item limit [Set] stores and whatever its expiry, the directory it
    is written to is not one of those the cleanup pass scans: the pass
    that follows leaves that directory as it is, the entry with it. *)
Theorem Clear_never_visits_Set_entries s content result expireAfter :
  reachable clock json_len s →
  Z.of_nat (String.length content) <= 5 * 1024 * 1024 →
  ∃ s1 sub,
    Set_ clock json_len s content result expireAfter = (None, s1) ∧
    subDir_of (hashContent content) = Some sub ∧
    (sub ∉ Clear_shards s1) ∧
    disk (snd (Clear clock s1)) !! sub = disk s1 !! sub ∧
    file_at (disk (snd (Clear clock s1))) sub (json_name (hashContent content))
    = Some (Marshal json_len (Set_item clock s content result expireAfter)).
Proof.
  intros Hr Hlen. destruct (reachable_inv _ Hr) as [[H1 H2 H3 H4 H5 H6] _].
  destruct (Set_accepts s content result expireAfter)
    as (s1 & sub & HSet & Hsub & _ & _ & _ & _ & _ & _ & _ & _ & _ & Hn & _
        & Hnew & _); [lia | lia | done |].
  destruct (subDir_of_hashContent content) as (sub' & Hsub' & Hin).
  assert (Heq : sub' = sub) by congruence. subst sub'.
  assert (Hout : sub ∉ Clear_shards s1)
    by (apply Set_shards_not_scanned; [congruence | done]).
  exists s1, sub. split_and!; try done.
  - by apply Clear_root.
  - unfold file_at in *. by rewrite Clear_root.
Qed.

(** ** Further properties: the fingerprint *)

Lemma is_lower_hex_hex_digit d : is_lower_hex (hex_digit d) = true.
Proof.
  destruct d as [| p | p]; [reflexivity | | reflexivity].
  do 4 (try destruct p as [p | p |]); reflexivity.
Qed.

Lemma fmt_x_bytes_format bs :
  String.length (fmt_x_bytes bs) = (2 * length bs)%nat ∧
  all_chars is_lower_hex (fmt_x_bytes bs) = true.
Proof.
  induction bs as [| b bs [IHl IHc]]; [done |].
  cbn [fmt_x_bytes String.length all_chars length].
  rewrite !is_lower_hex_hex_digit, IHl, IHc. split; [lia | done].
Qed.

Lemma length_Sum256 content : length (Sha256.Sum256 content) = 32%nat.
Proof.
  unfold Sha256.Sum256. by destruct (Sha256.final _).
Qed.

(** X1. The key of a content is always a string of exactly 64 lowercase
    hexadecimal digits. *)
Theorem hashContent_format content :
  String.length (hashContent content) = 64%nat ∧
  all_chars is_lower_hex (hashContent content) = true.
Proof.
  unfold hashContent.
  destruct (fmt_x_bytes_format (Sha256.Sum256 content)) as [Hl Hc].
  by rewrite Hl, length_Sum256.
Qed.

Lemma MkdirAll_cases d sub :
  (∃ d1 dir, MkdirAll d sub = inl d1 ∧ d1 !! sub = Some (NDir dir)) ∨
  MkdirAll d sub = inr ENOTDIR.
Proof.
  unfold MkdirAll. destruct (d !! sub) as [[f | dir] |] eqn:Hsub.
  - by right.
  - left. eauto.
  - left. eexists _, _. split; [done |]. apply lookup_insert_eq.
Qed.

Lemma WriteFile_cases d sub dir name f :
  d !! sub = Some (NDir dir) →
  (∃ d2, WriteFile d sub name f = inl d2) ∨ WriteFile d sub name f = inr EISDIR.
Proof.
  intros Hsub. unfold WriteFile. rewrite Hsub.
  destruct (dir !! name) as [[g |] |]; eauto.
Qed.

(** X2. [Set] never indexes outside the hash string: in no state and for
    no arguments does it end in the index-out-of-range panic, and the only
    errors it returns are the size error, the capacity error and the
    errors of creating the shard directory or writing the file. *)
Theorem Set_errors s content result expireAfter err :
  fst (Set_ clock json_len s content result expireAfter) = Some err →
  err = ErrTooLarge ∨ err = ErrCacheFull ∨ err = ErrMkdir ENOTDIR ∨
  err = EISDIR.
Proof.
  unfold Set_.
  destruct (maxFileSize s <? _); [intros [= <-]; auto |].
  set (budget := if maxCacheSize s <? _ then _ else _).
  assert (Hb : ∃ s1, budget = (None, s1) ∨ budget = (Some ErrCacheFull, s1)).
  { subst budget. destruct (maxCacheSize s <? _); [| eauto].
    unfold Clear. cbn [fst snd]. destruct (_ <? _); eauto. }
  destruct Hb as (s1 & [-> | ->]); [| intros [= <-]; auto].
  destruct (subDir_of_hashContent content) as (sub & -> & _).
  cbn [Now fst snd].
  match goal with |- context [MkdirAll ?d sub] =>
    destruct (MkdirAll_cases d sub) as [(d1 & dir & -> & Hd1) | ->] end;
    [| intros [= <-]; auto].
  match goal with |- context [WriteFile d1 sub ?n ?f] =>
    destruct (WriteFile_cases d1 sub dir n f Hd1) as [(d2 & ->) | ->] end;
    [| intros [= <-]; auto].
  unfold PushFront. simpl. discriminate.
Qed.

(** ** Further properties: the memory tier *)

Lemma elem_of_remove (x y : ptr) l :
  x ∈ List.remove Nat.eq_dec y l ↔ x ∈ l ∧ x ≠ y.
Proof.
  rewrite !list_elem_of_In. split.
  - apply in_remove.
  - intros [? ?]. by apply in_in_remove.
Qed.

Lemma NoDup_remove_ptr (y : ptr) l :
  NoDup l → NoDup (List.remove Nat.eq_dec y l).
Proof.
  induction 1 as [| x l Hx Hl IH]; simpl; [constructor |].
  destruct (Nat.eq_dec y x); [done |].
  constructor; [| done]. rewrite elem_of_remove. tauto.
Qed.

Lemma length_remove_ptr (y : ptr) l :
  NoDup l → y ∈ l → S (length (List.remove Nat.eq_dec y l)) = length l.
Proof.
  induction 1 as [| x l Hx Hl IH]; intros Hin; [by apply elem_of_nil in Hin |].
  simpl. destruct (Nat.eq_dec y x) as [-> | Hne].
  - rewrite notin_remove; [done |]. by rewrite <- list_elem_of_In.
  - apply elem_of_cons in Hin as [? | Hin]; [done |]. simpl. by rewrite IH.
Qed.

Lemma lru_last_split s elem :
  last (lru s) = Some elem → lru s = removelast (lru s) ++ [elem].
Proof.
  intros Hlast. destruct (lru s) as [| x l] eqn:Hl; [done |].
  rewrite (app_removelast_last x) at 1 by done. f_equal. f_equal.
  rewrite last_Some in Hlast. destruct Hlast as [l' Hl'].
  rewrite Hl'. by rewrite List.last_last.
Qed.

(** Making room keeps the memory tier well formed and leaves a free slot
    when the tier was full. *)
Lemma mem_ok_make_room s :
  mem_ok s →
  NoDup (lru (make_room s)) ∧
  (∀ p, p ∈ lru (make_room s) → p ∈ lru s) ∧
  (∀ h p, memCache (make_room s) !! h = Some p →
     p ∈ lru (make_room s) ∧
     ∃ item, heap s !! p = Some item ∧ ContentHash item = h) ∧
  Z.of_nat (length (lru (make_room s))) < maxItems s.
Proof.
  intros [Hnd Hal Hk [Hmax Hb]].
  destruct (Z.lt_ge_cases (Z.of_nat (length (lru s))) (maxItems s))
    as [Hlt | Hge].
  { rewrite make_room_below by done. split_and!; auto. }
  rewrite make_room_full by done. rewrite lru_removeOldest.
  destruct (last (lru s)) as [q |] eqn:Hlast.
  2:{ apply last_None in Hlast. rewrite Hlast in Hge. simpl in Hge. lia. }
  pose proof (lru_last_split _ _ Hlast) as Hsplit.
  assert (Hq : q ∈ lru s)
    by (rewrite Hsplit; apply elem_of_app; right; by left).
  destruct (Hal _ Hq) as [_ [item Hitem]].
  rewrite (memCache_removeOldest _ _ _ Hlast Hitem).
  rewrite Hsplit in Hnd. apply NoDup_app in Hnd as (Hnd1 & Hdisj & _).
  split_and!.
  - done.
  - intros p Hp. rewrite Hsplit. apply elem_of_app. by left.
  - intros h p Hdel. apply lookup_delete_Some in Hdel as [Hne Hm].
    destruct (Hk _ _ Hm) as (Hin & item' & Hitem' & Hh). split; [| eauto].
    rewrite Hsplit in Hin. apply elem_of_app in Hin as [? | Hin]; [done |].
    apply list_elem_of_singleton in Hin as ->.
    assert (Heq : Some item = Some item') by (rewrite <- Hitem; exact Hitem').
    injection Heq as <-. done.
  - rewrite Hsplit, length_app in Hb. simpl in Hb. lia.
Qed.

Lemma mem_ok_Set s content result expireAfter :
  inv s → mem_ok s →
  mem_ok (snd (Set_ clock json_len s content result expireAfter)).
Proof.
  intros [H1 H2 H3 H4 H5 H6] Hok.
  destruct (Z.le_gt_cases (Z.of_nat (String.length content)) (maxFileSize s))
    as [Hlen | Hlen]; [| by rewrite Set_too_large by lia].
  destruct (Set_accepts s content result expireAfter)
    as (s' & sub & -> & _ & Hm & Hl & Hh & Hp & _ & _ & Hmax & _);
    [lia | lia | done |].
  destruct (mem_ok_make_room s Hok) as (Hnd & Hsub & Hk & Hb).
  destruct Hok as [_ Hal _ [Hmax0 _]]. simpl.
  assert (Hfresh : ∀ p, p ∈ lru (make_room s) → p ≠ nextPtr s).
  { intros p Hin. apply Hsub, Hal in Hin. lia. }
  split.
  - rewrite Hl. constructor; [| done]. intros Hin. by apply Hfresh in Hin.
  - intros p. rewrite Hl, Hh, Hp. intros [-> | Hin]%elem_of_cons.
    + split; [lia |]. rewrite lookup_insert_eq. eauto.
    + pose proof (Hfresh _ Hin). destruct (Hal _ (Hsub _ Hin)).
      split; [lia |]. by rewrite lookup_insert_ne.
  - intros h p. rewrite Hm, Hl, Hh.
    destruct (decide (h = hashContent content)) as [-> | Hne].
    + rewrite lookup_insert_eq. intros [= <-]. split; [by left |].
      rewrite lookup_insert_eq. eauto.
    + rewrite lookup_insert_ne by done. intros Hmk.
      destruct (Hk _ _ Hmk) as (Hin & item & Hitem & Hhash).
      split; [by right |]. exists item.
      rewrite lookup_insert_ne; [done |]. intros <-. by apply (Hfresh _ Hin).
  - rewrite Hmax, Hl. simpl. split; [done | lia].
Qed.

(** On a directory of its own, [Get] either is a hit that refreshes the
    entry and moves it to the front, or changes nothing at all. *)
Lemma Get_own_directory_cases s content :
  disk_ok (disk s) →
  (∃ elem, memCache s !! hashContent content = Some elem ∧
     Get clock s content =
     (Some elem, None,
      with_mem (memCache s) (MoveToFront elem (lru s))
        (with_heap (alter (touch (clock (ticks s))) elem (heap s))
           (with_ticks (S (ticks s)) s)))) ∨
  (memCache s !! hashContent content = None ∧
   ∃ err, Get clock s content = (None, err, s)).
Proof.
  intros Hok.
  destruct (memCache s !! hashContent content) as [elem |] eqn:Hm.
  - left. exists elem. split; [done |]. by apply Get_hit.
  - right. split; [done |].
    destruct (disk s !! json_name (hashContent content)) as [n |] eqn:Hd.
    + destruct (Hok _ _ Hd) as (dir & -> & _). eexists.
      by apply (Get_directory _ _ dir).
    + eexists. by apply Get_absent.
Qed.

Lemma mem_ok_Get s content :
  disk_ok (disk s) → mem_ok s → mem_ok (snd (Get clock s content)).
Proof.
  intros Hd Hok.
  destruct (Get_own_directory_cases s content Hd)
    as [(elem & Hm & ->) | (_ & err & ->)]; [| done].
  destruct Hok as [Hnd Hal Hk Hb]. destruct (Hk _ _ Hm) as (Hin & _).
  simpl. unfold MoveToFront. rewrite bool_decide_eq_true_2 by done.
  assert (Hmem : ∀ p, p ∈ elem :: List.remove Nat.eq_dec elem (lru s) ↔
                      p ∈ lru s).
  { intros p. rewrite elem_of_cons, elem_of_remove.
    destruct (decide (p = elem)) as [-> | ?]; tauto. }
  split; simpl.
  - constructor; [| by apply NoDup_remove_ptr]. rewrite elem_of_remove. tauto.
  - intros p Hp. apply Hmem in Hp. destruct (Hal _ Hp) as [? [item Hitem]].
    split; [done |]. destruct (decide (p = elem)) as [-> | Hne].
    + rewrite lookup_alter_eq, Hitem. eauto.
    + rewrite lookup_alter_ne by done. eauto.
  - intros h p Hhp. destruct (Hk _ _ Hhp) as (Hp & item & Hitem & Hhash).
    split; [by apply Hmem |]. destruct (decide (p = elem)) as [-> | Hne].
    + rewrite lookup_alter_eq, Hitem. eauto.
    + rewrite lookup_alter_ne by done. eauto.
  - destruct Hb as [Hmax Hb]. split; [done |].
    pose proof (length_remove_ptr elem (lru s) Hnd Hin) as Hlen.
    cbn [length]. unfold ptr in *. lia.
Qed.

Lemma mem_ok_Clear s : maxItems s = 100 → mem_ok (snd (Clear clock s)).
Proof.
  intros Hmax. destruct (Clear_sweep s) as [_ []]. simpl in *.
  split.
  - rewrite sweep_lru0. constructor.
  - intros p. rewrite sweep_lru0. by intros ?%elem_of_nil.
  - intros h p. rewrite sweep_memCache0. by rewrite lookup_empty.
  - rewrite sweep_lru0, sweep_maxItems0. simpl. split; [done | lia].
Qed.

Lemma reachable_mem_ok s : reachable clock json_len s → mem_ok s.
Proof.
  induction 1 as [n | s Hr IH | s content Hr IH
                 | s content result e Hr IH | s Hr IH].
  - split; simpl; [constructor | by intros p ?%elem_of_nil
                   | by intros h p; rewrite lookup_empty | split; [done | lia]].
  - split; simpl; [constructor | by intros p ?%elem_of_nil
                   | by intros h p; rewrite lookup_empty | split; [done | lia]].
  - apply mem_ok_Get; [| done]. by destruct (reachable_inv _ Hr) as [[] _].
  - apply mem_ok_Set; [| done]. by destruct (reachable_inv _ Hr) as [? _].
  - apply mem_ok_Clear. by destruct (reachable_inv _ Hr) as [_ ?].
Qed.


(** X4. On a reachable cache, whatever [Get] returns for a content is an
    entry whose hash is the hash of that content, returned without
    error. *)
Theorem Get_returns_own_entry s content elem err s' :
  reachable clock json_len s →
  Get clock s content = (Some elem, err, s') →
  err = None ∧
  ∃ item, load s' elem = Some item ∧
          ContentHash item = hashContent content ∧
          LastAccessed item = clock (ticks s).
Proof.
  intros Hr HGet. destruct (reachable_inv _ Hr) as [[_ _ _ _ Hd _] _].
  destruct (reachable_mem_ok s Hr) as [_ _ Hk _].
  destruct (Get_own_directory_cases s content Hd)
    as [(p & Hm & HGet') | (_ & err' & HGet')];
    rewrite HGet' in HGet; [| done].
  injection HGet as <- <- <-. split; [done |].
  destruct (Hk _ _ Hm) as (_ & item & Hitem & Hhash).
  exists (touch (clock (ticks s)) item). unfold load. simpl.
  by rewrite lookup_alter_eq, Hitem.
Qed.

(** ** Further properties: the disk branch of [Get] *)


(** X6. A content that is not in the memory tier and whose file at the
    root of the cache directory holds an entry that has expired is a miss:
    [Get] deletes the file, returns nothing and no error, and leaves the
    memory tier as it was; the next [Get] finds no file and is a miss as
    well. *)
Theorem Get_drops_expired_file s content f item e :
  memCache s !! hashContent content = None →
  disk s !! json_name (hashContent content) = Some (NFile f) →
  decoded f = Some item →
  ExpireAt item = Some e → After (clock (ticks s)) e = true →
  ∃ s1,
    Get clock s content = (None, None, s1) ∧
    disk s1 = delete (json_name (hashContent content)) (disk s) ∧
    memCache s1 = memCache s ∧ lru s1 = lru s ∧
    Get clock s1 content = (None, None, s1).
Proof.
  intros Hm Hd Hf He Hafter.
  assert (HGet : Get clock s content =
    (None, None,
     with_disk (delete (json_name (hashContent content)) (disk s))
       (with_ticks (S (ticks s)) s))).
  { unfold Get, ReadFile_root, expired, Now, Remove_root.
    rewrite Hm, Hd, Hf, He, Hafter. simpl. by rewrite Hd. }
  rewrite HGet. eexists. split_and!; try done.
  apply Get_absent; simpl; [done | apply lookup_delete_eq].
Qed.

(** ** Further properties: what the cleanup pass deletes and keeps *)

Section Monotone_clock.

Hypothesis clock_mono : ∀ m n, (m <= n)%nat → clock m <= clock n.

Lemma stale_at_mono item m n :
  (m <= n)%nat → stale_at (clock m) item = true →
  stale_at (clock n) item = true.
Proof.
  intros Hmn. pose proof (clock_mono m n Hmn) as Hc.
  unfold stale_at, After. rewrite !orb_true_iff.
  intros [H | H].
  - left. destruct (ExpireAt item) as [e |]; [| done].
    apply Z.ltb_lt in H. apply Z.ltb_lt. lia.
  - right. apply Z.ltb_lt in H. apply Z.ltb_lt. lia.
Qed.

(** With a clock that does not go back, an entry that is stale when the
    test starts is found stale by the test. *)
Lemma stale_true item s :
  stale_at (clock (ticks s)) item = true → fst (stale clock item s) = true.
Proof.
  intros Hs. pose proof (clock_mono (ticks s) (S (ticks s))) as Hc.
  unfold stale_at, After in Hs. unfold stale, expired, Now, After.
  destruct (ExpireAt item) as [e |]; simpl in *.
  - destruct (e <? clock (ticks s)) eqn:He; simpl; [done |].
    simpl in Hs. apply Z.ltb_lt in Hs. apply Z.ltb_lt. lia.
  - done.
Qed.

Lemma Clear_file_deletes sub s name f item :
  Ext name = ".json"%string → decoded f = Some item →
  stale_at (clock (ticks s)) item = true →
  file_at (disk (Clear_file clock sub s (name, EFile f))) sub name = None.
Proof.
  intros Hext Hdec Hs. unfold Clear_file. rewrite Hext, Hdec. simpl.
  pose proof (stale_true item s Hs) as Hb.
  destruct (stale clock item s) as [b s1]. simpl in Hb. subst b. simpl.
  rewrite file_at_Remove_in. by rewrite decide_True.
Qed.

Lemma sweep_gone s s' sub name :
  sweep clock s s' → file_at (disk s) sub name = None →
  file_at (disk s') sub name = None.
Proof.
  intros Hsw Hnone.
  destruct (file_at (disk s') sub name) as [g |] eqn:Hg; [| done].
  apply (sweep_no_new _ _ _ Hsw) in Hg. congruence.
Qed.

Lemma Clear_files_delete sub name f item l s :
  Ext name = ".json"%string → decoded f = Some item →
  listing_ok (disk s) sub l → (name, EFile f) ∈ l →
  stale_at (clock (ticks s)) item = true →
  file_at (disk (fold_left (Clear_file clock sub) l s)) sub name = None.
Proof.
  intros Hext Hdec. revert s.
  induction l as [| [name' entry'] l IH]; intros s Hl Hin Hs;
    [by apply elem_of_nil in Hin |].
  simpl.
  assert (Hstep : sweep clock s (Clear_file clock sub s (name', entry'))).
  { apply Clear_file_sweep. intros g. apply Hl. by left. }
  assert (Hl' : listing_ok (disk (Clear_file clock sub s (name', entry')))
                  sub l).
  { intros n e g Hn Hg. eapply Hl; [by right |].
    by apply (sweep_no_new _ _ _ Hstep). }
  apply elem_of_cons in Hin as [[= <- <-] | Hin].
  - eapply sweep_gone; [by apply Clear_files_sweep |].
    by eapply Clear_file_deletes.
  - apply IH; [done | done |].
    eapply stale_at_mono; [| done]. apply (sweep_ticks _ _ _ Hstep).
Qed.

Lemma Clear_shard_deletes s i name f item :
  Ext name = ".json"%string → decoded f = Some item →
  file_at (disk s) (fmt_02x i) name = Some f →
  stale_at (clock (ticks s)) item = true →
  file_at (disk (Clear_shard clock s i)) (fmt_02x i) name = None.
Proof.
  intros Hext Hdec Hf Hs. unfold Clear_shard.
  unfold file_at in Hf.
  destruct (disk s !! fmt_02x i) as [[g | dir] |] eqn:Hsub; try done.
  destruct (dir !! name) as [[g |] |] eqn:Hname; try done.
  injection Hf as ->.
  eapply Clear_files_delete; try done.
  - by apply listing_ok_ReadDir.
  - unfold ReadDir. rewrite merge_sort_Permutation.
    by apply elem_of_map_to_list.
Qed.

Lemma Clear_shards_delete sub name f item l s :
  Ext name = ".json"%string → decoded f = Some item →
  sub ∈ map fmt_02x l →
  (∀ g, file_at (disk s) sub name = Some g → g = f) →
  stale_at (clock (ticks s)) item = true →
  file_at (disk (fold_left (Clear_shard clock) l s)) sub name = None.
Proof.
  intros Hext Hdec. revert s.
  induction l as [| i l IH]; intros s Hin Hf Hs;
    [by apply elem_of_nil in Hin |].
  simpl. pose proof (Clear_shard_sweep s i) as Hstep.
  destruct (file_at (disk s) sub name) as [g |] eqn:Hg.
  2:{ eapply sweep_gone; [apply Clear_shards_sweep |].
      by eapply sweep_gone. }
  rewrite (Hf g eq_refl) in Hg.
  simpl in Hin. apply elem_of_cons in Hin as [-> | Hin].
  - eapply sweep_gone; [apply Clear_shards_sweep |].
    by eapply Clear_shard_deletes.
  - apply IH; [done | |].
    + intros g' Hg'. apply (sweep_no_new _ _ _ Hstep) in Hg'. congruence.
    + eapply stale_at_mono; [| done]. apply (sweep_ticks _ _ _ Hstep).
Qed.

(** X7. With a clock that does not go back, a pass of [Clear] deletes
    every file of the shard directories it scans whose name ends in
    [.json] and whose entry is expired, or has not been accessed for more
    than 24 hours, when the pass starts. *)
Theorem Clear_deletes_stale_files s sub name f item :
  sub ∈ Clear_shards s →
  file_at (disk s) sub name = Some f →
  Ext name = ".json"%string → decoded f = Some item →
  stale_at (clock (ticks s)) item = true →
  file_at (disk (snd (Clear clock s))) sub name = None.
Proof.
  intros Hsub Hf Hext Hdec Hs. unfold Clear. simpl.
  eapply Clear_shards_delete; try done.
  simpl. intros g Hg. congruence.
Qed.

End Monotone_clock.

Lemma Clear_file_keeps sub s file sub' name' f :
  Ext name' ≠ ".json"%string →
  file_at (disk s) sub' name' = Some f →
  file_at (disk (Clear_file clock sub s file)) sub' name' = Some f.
Proof.
  intros Hext Hf. destruct file as [name entry]. unfold Clear_file.
  destruct (Ext name =? ".json")%string eqn:Hname; simpl; [| done].
  apply String.eqb_eq in Hname.
  destruct entry as [data |]; [| done].
  destruct (decoded data) as [item |]; [| done].
  destruct (stale clock item s) as [b s1] eqn:Hstale.
  apply stale_spec in Hstale as (Hs1 & _ & _).
  assert (Hd : disk s1 = disk s) by (rewrite Hs1; done).
  destruct b; [| by rewrite Hd]. simpl. rewrite Hd, file_at_Remove_in.
  rewrite decide_False; [done |]. intros [_ ->]. done.
Qed.

Lemma Clear_files_keep sub l s sub' name' f :
  Ext name' ≠ ".json"%string →
  file_at (disk s) sub' name' = Some f →
  file_at (disk (fold_left (Clear_file clock sub) l s)) sub' name' = Some f.
Proof.
  intros Hext. revert s. induction l as [| file l IH]; intros s Hf; simpl.
  - done.
  - apply IH. by apply Clear_file_keeps.
Qed.

Lemma Clear_shards_keep l s sub' name' f :
  Ext name' ≠ ".json"%string →
  file_at (disk s) sub' name' = Some f →
  file_at (disk (fold_left (Clear_shard clock) l s)) sub' name' = Some f.
Proof.
  intros Hext. revert s. induction l as [| i l IH]; intros s Hf; simpl.
  - done.
  - apply IH. unfold Clear_shard.
    destruct (disk s !! fmt_02x i) as [[g | dir] |]; try done.
    by apply Clear_files_keep.
Qed.

(** X8. A pass of [Clear] never deletes a file whose name does not end in
    [.json], a file whose content does not parse, a file of a directory it
    does not scan, or anything at the root of the cache directory. *)
Theorem Clear_keeps_other_files s :
  (∀ sub name f,
     file_at (disk s) sub name = Some f →
     Ext name ≠ ".json"%string ∨ decoded f = None ∨ sub ∉ Clear_shards s →
     file_at (disk (snd (Clear clock s))) sub name = Some f) ∧
  (∀ name f,
     disk s !! name = Some (NFile f) →
     disk (snd (Clear clock s)) !! name = Some (NFile f)).
Proof.
  destruct (Clear_sweep s) as [_ Hsw]. split.
  - intros sub name f Hf [Hext | [Hdec | Hsub]].
    + unfold Clear. simpl. by apply Clear_shards_keep.
    + destruct (sweep_removed _ _ _ Hsw sub name f Hf)
        as [? | (item & n & Hitem & _)]; [done | congruence].
    + unfold file_at in *. by rewrite Clear_root.
  - intros name f Hf. pose proof (sweep_root _ _ _ Hsw name) as Hroot.
    cbn [disk with_currentSize with_mem] in Hroot. rewrite Hf in Hroot.
    destruct (disk (snd (Clear clock s)) !! name) as [[g | dir] |];
      [by subst | done | done].
Qed.

(** ** Further properties: batches, reads and the layout of the directory *)

Lemma BatchSet_mixed_fold items expireAfter errMsgs s :
  reachable clock json_len s →
  fst (fold_left (BatchSet_step clock json_len expireAfter) items (errMsgs, s))
  = errMsgs ++ repeat ErrTooLarge (length (filter too_large items)) ∧
  reachable clock json_len
    (snd (fold_left (BatchSet_step clock json_len expireAfter) items
            (errMsgs, s))) ∧
  ∀ sub name,
    is_Some (file_at (disk s) sub name) ∨
    (∃ kv, kv ∈ items ∧ ¬ too_large kv ∧
           subDir_of (hashContent (fst kv)) = Some sub ∧
           name = json_name (hashContent (fst kv))) →
    is_Some (file_at
               (disk (snd (fold_left (BatchSet_step clock json_len expireAfter)
                             items (errMsgs, s)))) sub name).
Proof.
  revert errMsgs s. induction items as [| [c r] items IH];
    intros errMsgs s Hr; simpl.
  - split_and!; [by rewrite app_nil_r | done |].
    intros sub name [? | (kv & Hin & _)]; [done |].
    by apply elem_of_nil in Hin.
  - pose proof (reach_Set clock json_len s c r expireAfter Hr) as Hr1.
    destruct (reachable_inv _ Hr) as [[H1 H2 H3 H4 H5 H6] _].
    rewrite filter_cons. destruct (decide (too_large (c, r))) as [Hbig | Hok].
    + unfold too_large in Hbig. simpl in Hbig.
      rewrite Set_too_large in Hr1 |- * by lia. simpl in Hr1.
      destruct (IH (errMsgs ++ [ErrTooLarge]) s Hr)
        as (Herr & Hreach & Hfiles).
      split_and!; try done.
      * rewrite Herr. simpl. by rewrite <- app_assoc.
      * intros sub name [Hthere | (kv & Hin & Hsmall & Hsub & Hname)];
          apply Hfiles; [by left |].
        apply elem_of_cons in Hin as [-> | Hin]; [| right; eauto].
        exfalso. apply Hsmall. unfold too_large. simpl. lia.
    + unfold too_large in Hok. simpl in Hok.
      destruct (Set_accepts s c r expireAfter)
        as (s1 & sub1 & HSet & Hsub1 & _ & _ & _ & _ & _ & _ & _ & _ & _ & _
            & _ & Hnew & _ & Hold); [lia | lia | done |].
      rewrite HSet in Hr1 |- *. simpl in Hr1.
      destruct (IH errMsgs s1 Hr1) as (Herr & Hreach & Hfiles).
      split_and!; try done. intros sub name Hcase. apply Hfiles.
      destruct (decide ((sub, name) = (sub1, json_name (hashContent c))))
        as [[= -> ->] | Hne].
      { left. rewrite Hnew. eauto. }
      destruct Hcase as [Hthere | (kv & Hin & Hsmall & Hsub & Hname)].
      * left. by rewrite Hold.
      * apply elem_of_cons in Hin as [-> | Hin].
        -- simpl in Hsub, Hname. congruence.
        -- right. eauto.
Qed.

(** X9. The items of a batch are independent. On a reachable cache,
    [BatchSet] collects one size error for each item whose content is over
    5 MiB and no other error, and every other item of the batch is on disk
    when it returns, whatever its position among the refused ones. *)
Theorem BatchSet_collects_errors s items expireAfter :
  reachable clock json_len s →
  fst (BatchSet clock json_len s items expireAfter) =
  repeat ErrTooLarge (length (filter too_large items)) ∧
  ∀ kv, kv ∈ items → ¬ too_large kv →
    ∃ sub, subDir_of (hashContent (fst kv)) = Some sub ∧
           is_Some (file_at
                      (disk (snd (BatchSet clock json_len s items expireAfter)))
                      sub (json_name (hashContent (fst kv)))).
Proof.
  intros Hr. unfold BatchSet.
  destruct (BatchSet_mixed_fold items expireAfter [] s Hr)
    as (Herr & _ & Hfiles).
  split; [done |]. intros kv Hin Hsmall.
  destruct (subDir_of_hashContent (fst kv)) as (sub & Hsub & _).
  exists sub. split; [done |]. apply Hfiles. right. eauto.
Qed.

Lemma same_entry_touch t item : same_entry item (touch t item).
Proof. by split_and!. Qed.

Lemma MoveToFront_Permutation elem l :
  NoDup l → MoveToFront elem l ≡ₚ l.
Proof.
  intros Hnd. unfold MoveToFront. case_bool_decide as Hin; [| done].
  apply NoDup_Permutation.
  - constructor; [| by apply NoDup_remove_ptr]. rewrite elem_of_remove. tauto.
  - done.
  - intros p. rewrite elem_of_cons, elem_of_remove.
    destruct (decide (p = elem)) as [-> | ?]; tauto.
Qed.

(** X10. On a reachable cache [Get] only reads: it changes neither the
    directory nor the size counter nor the map of the memory tier; the
    list of the memory tier keeps its elements, in another order at most,
    and every entry keeps its hash, value, creation and expiry times. *)
Theorem Get_only_reads s content :
  reachable clock json_len s →
  disk (snd (Get clock s content)) = disk s ∧
  currentSize (snd (Get clock s content)) = currentSize s ∧
  memCache (snd (Get clock s content)) = memCache s ∧
  lru (snd (Get clock s content)) ≡ₚ lru s ∧
  ∀ p item, heap s !! p = Some item →
    ∃ item', heap (snd (Get clock s content)) !! p = Some item' ∧
             same_entry item item'.
Proof.
  intros Hr. destruct (reachable_inv _ Hr) as [[_ _ _ _ Hd _] _].
  destruct (reachable_mem_ok s Hr) as [Hnd _ _ _].
  destruct (Get_own_directory_cases s content Hd)
    as [(elem & Hm & ->) | (_ & err & ->)]; simpl.
  - split_and!; try done; [by apply MoveToFront_Permutation |].
    intros p item Hitem. destruct (decide (p = elem)) as [-> | Hne].
    + rewrite lookup_alter_eq, Hitem. eexists. split; [done |].
      apply same_entry_touch.
    + rewrite lookup_alter_ne by done. exists item. by split_and!.
  - split_and!; try done. intros p item Hitem. exists item. by split_and!.
Qed.

Lemma layout_ok_Set s content result expireAfter :
  inv s → layout_ok (disk s) →
  layout_ok (disk (snd (Set_ clock json_len s content result expireAfter))).
Proof.
  intros [H1 H2 H3 H4 H5 H6] Hlay.
  destruct (Z.le_gt_cases (Z.of_nat (String.length content)) (maxFileSize s))
    as [Hlen | Hlen]; [| by rewrite Set_too_large by lia].
  destruct (Set_accepts s content result expireAfter)
    as (s' & sub & -> & Hsub & _ & _ & _ & _ & _ & _ & _ & _ & _ & _ & _
        & Hnew & _ & Hold); [lia | lia | done |].
  simpl. intros sub' name' f Hf.
  destruct (decide ((sub', name') = (sub, json_name (hashContent content))))
    as [[= -> ->] | Hne].
  - rewrite Hnew in Hf. injection Hf as <-. eexists. split; [done |].
    simpl. split_and!; eauto.
  - rewrite Hold in Hf by done. by apply Hlay.
Qed.

Lemma reachable_layout_ok s :
  reachable clock json_len s → layout_ok (disk s).
Proof.
  induction 1 as [n | s Hr IH | s content Hr IH
                 | s content result e Hr IH | s Hr IH].
  - intros sub name f. unfold file_at. simpl. by rewrite lookup_empty.
  - done.
  - destruct (reachable_inv _ Hr) as [[_ _ _ _ Hd _] _].
    destruct (Get_own_directory s content Hd)
      as (err & s' & -> & _ & _ & Hdisk & _). simpl. by rewrite Hdisk.
  - apply layout_ok_Set; [| done]. by destruct (reachable_inv _ Hr).
  - destruct (Clear_sweep s) as [_ Hsw]. intros sub name f Hf.
    apply (sweep_no_new _ _ _ Hsw) in Hf. by apply IH.
Qed.

(** X11. The directory of a reachable cache holds nothing but shard
    directories named by two hexadecimal digits; every file in them parses,
    is named [<hash>.json] after the hash of the entry it holds, that hash
    being the hash of some content, and sits in the shard [Set] derives
    from that hash. *)
Theorem directory_layout s :
  reachable clock json_len s →
  (∀ name n, disk s !! name = Some n →
     name ∈ Set_shards ∧ ∃ dir, n = NDir dir) ∧
  (∀ sub name f, file_at (disk s) sub name = Some f →
     ∃ item content,
       decoded f = Some item ∧
       ContentHash item = hashContent content ∧
       name = json_name (hashContent content) ∧
       subDir_of (hashContent content) = Some sub).
Proof.
  intros Hr. destruct (reachable_inv _ Hr) as [[_ _ _ _ Hd Hroot] _].
  split.
  - intros name n Hn. split; [by eapply Hroot |].
    destruct (Hd _ _ Hn) as (dir & -> & _). eauto.
  - intros sub name f Hf.
    destruct (reachable_layout_ok s Hr _ _ _ Hf)
      as (item & Hdec & -> & Hsub & content & Hc).
    exists item, content. rewrite <- Hc. by split_and!.
Qed.

Lemma reachable_Set_each contents s :
  reachable clock json_len s →
  reachable clock json_len (Set_each clock json_len s contents).
Proof.
  revert s. induction contents as [| c l IH]; intros s Hr; [done |].
  apply IH. by apply reach_Set.
Qed.

(** X12. [Set] does not look for an element already stored under the same
    key: the older element stays in the list. When it reaches the back of
    a full list and is evicted by the insertion of another content, the
    key is removed from the map although the newer element for that key is
    still in the list, so the entry can no longer be found. *)
Theorem evicting_old_duplicate_drops_key
    s q p old content result expireAfter :
  inv s → maxItems s <= Z.of_nat (length (lru s)) →
  last (lru s) = Some q → heap s !! q = Some old →
  memCache s !! ContentHash old = Some p → p ≠ q → p ∈ lru s →
  Z.of_nat (String.length content) <= 5 * 1024 * 1024 →
  hashContent content ≠ ContentHash old →
  ∃ s', Set_ clock json_len s content result expireAfter = (None, s') ∧
        p ∈ lru s' ∧ memCache s' !! ContentHash old = None.
Proof.
  intros [H1 H2 H3 H4 H5 H6] Hfull Hlast Hold Hkey Hpq Hp Hlen Hne.
  destruct (Set_accepts s content result expireAfter)
    as (s' & sub & HSet & _ & Hm & Hl & _); [lia | lia | done |].
  rewrite make_room_full in Hm, Hl by done.
  rewrite lru_removeOldest in Hl.
  rewrite (memCache_removeOldest _ _ _ Hlast Hold) in Hm.
  exists s'. split_and!; [done | |].
  - rewrite Hl. right. rewrite (lru_last_split _ _ Hlast) in Hp.
    apply elem_of_app in Hp as [? | Hp]; [done |].
    by apply list_elem_of_singleton in Hp.
  - rewrite Hm, lookup_insert_ne by done. apply lookup_delete_eq.
Qed.

(** ** Further properties: the flat version of the cache *)



(** X14. In the flat version an entry whose expiry has passed when [Get]
    reads the clock is never returned: [Get] deletes its file and reports
    a miss without error, and so does every later [Get] as long as nothing
    is set again. *)
Theorem Flat_Get_expired s content item e :
  Flat.disk s !! json_name (hashContent content)
  = Some (Flat.NFile (Some item)) →
  Flat.ExpireAt item = Some e → After (clock (Flat.ticks s)) e = true →
  ∃ s1,
    Flat.Get clock s content = (None, None, s1) ∧
    Flat.disk s1 = delete (json_name (hashContent content)) (Flat.disk s) ∧
    Flat.Get clock s1 content = (None, None, s1).
Proof.
  intros Hd He Hafter. unfold Flat.Get at 1. rewrite Hd.
  unfold Flat.expired, Flat.Now. rewrite He, Hafter. simpl.
  eexists. split_and!; try done.
  unfold Flat.Get. simpl. by rewrite lookup_delete_eq.
Qed.

(** What one step of the loop of the flat [Clear] may change. *)
Lemma Flat_Clear_file_spec s name :
  let s' := Flat.Clear_file clock s name in
  (Flat.ticks s <= Flat.ticks s')%nat ∧
  (∀ x, x ≠ name → Flat.disk s' !! x = Flat.disk s !! x) ∧
  (Flat.disk s' !! name = Flat.disk s !! name ∨
   Flat.disk s' !! name = None ∧ Ext name = ".json"%string ∧
   (Flat.ticks s < Flat.ticks s')%nat ∧
   ∃ item, Flat.disk s !! name = Some (Flat.NFile (Some item)) ∧
           Flat.expired_at (clock (Flat.ticks s)) item = true) ∧
  (Ext name = ".json"%string →
   ∀ item, Flat.disk s !! name = Some (Flat.NFile (Some item)) →
           Flat.expired_at (clock (Flat.ticks s)) item = true →
           Flat.disk s' !! name = None).
Proof.
  unfold Flat.Clear_file.
  destruct (Ext name =? ".json")%string eqn:Hext; simpl.
  2:{ apply String.eqb_neq in Hext.
      split_and!; try done; try lia; by left. }
  apply String.eqb_eq in Hext.
  destruct (Flat.disk s !! name) as [[[item |] |] |] eqn:Hname;
    try (split_and!; try done; try lia; by left).
  unfold Flat.expired, Flat.expired_at, Flat.Now.
  destruct (Flat.ExpireAt item) as [e |] eqn:He; simpl.
  - destruct (After (clock (Flat.ticks s)) e) eqn:Hexp; simpl.
    + split_and!.
      * lia.
      * intros x Hx. by rewrite lookup_delete_ne.
      * right. rewrite lookup_delete_eq. split_and!; try done; [lia |].
        exists item. by rewrite He.
      * intros _ item' _ _. apply lookup_delete_eq.
    + split_and!; try done; try lia; [by left |].
      intros _ item' [= <-]. rewrite He. congruence.
  - split_and!; try done; try lia; [by left |].
    intros _ item' [= <-]. by rewrite He.
Qed.

Lemma Flat_Clear_files_spec l s :
  let s' := fold_left (Flat.Clear_file clock) l s in
  (Flat.ticks s <= Flat.ticks s')%nat ∧
  (∀ x n, Flat.disk s' !! x = Some n → Flat.disk s !! x = Some n) ∧
  (∀ x n, Flat.disk s !! x = Some n →
     Flat.disk s' !! x = Some n ∨
     Flat.disk s' !! x = None ∧ Ext x = ".json"%string ∧
     ∃ item k, n = Flat.NFile (Some item) ∧
               (Flat.ticks s <= k < Flat.ticks s')%nat ∧
               Flat.expired_at (clock k) item = true).
Proof.
  revert s. induction l as [| name l IH]; intros s; simpl.
  - split_and!; [lia | done | by left].
  - destruct (Flat_Clear_file_spec s name) as (Ht & Hframe & Hname & _).
    destruct (IH (Flat.Clear_file clock s name)) as (Ht' & Hnew & Hdel).
    set (s1 := Flat.Clear_file clock s name) in *.
    set (s' := fold_left _ l s1) in *. simpl in *.
    split_and!.
    + lia.
    + intros x n Hx. apply Hnew in Hx.
      destruct (decide (x = name)) as [-> | Hne]; [| by rewrite <- Hframe].
      destruct Hname as [<- | [Hnone _]]; [done | congruence].
    + intros x n Hx.
      assert (Hcase : Flat.disk s1 !! x = Some n ∨
                Flat.disk s1 !! x = None ∧ Ext x = ".json"%string ∧
                (Flat.ticks s < Flat.ticks s1)%nat ∧
                ∃ item, n = Flat.NFile (Some item) ∧
                        Flat.expired_at (clock (Flat.ticks s)) item = true).
      { destruct (decide (x = name)) as [-> | Hne];
          [| left; by rewrite Hframe].
        destruct Hname as [-> | (Hnone & Hext & Hlt & item & Hitem & Hexp)];
          [by left | right].
        split_and!; try done. exists item. split; [congruence | done]. }
      destruct Hcase as [H1 | (Hnone & Hext & Hlt & item & -> & Hexp)].
      * destruct (Hdel _ _ H1) as [? | (Hn & He & item & k & -> & Hk & Hexp)];
          [by left | right].
        split_and!; try done. exists item, k. split_and!; try done; lia.
      * right. split_and!; try done.
        -- destruct (Flat.disk s' !! x) as [n' |] eqn:Hn'; [| done].
           apply Hnew in Hn'. congruence.
        -- exists item, (Flat.ticks s). split_and!; try done; lia.
Qed.

Lemma Flat_expired_at_mono item m n :
  (∀ a b, (a <= b)%nat → clock a <= clock b) →
  (m <= n)%nat → Flat.expired_at (clock m) item = true →
  Flat.expired_at (clock n) item = true.
Proof.
  intros Hmono Hmn. pose proof (Hmono m n Hmn).
  unfold Flat.expired_at, After. destruct (Flat.ExpireAt item); [| done].
  rewrite !Z.ltb_lt. lia.
Qed.

Lemma Flat_Clear_files_delete l s name item :
  (∀ a b, (a <= b)%nat → clock a <= clock b) →
  name ∈ l → Ext name = ".json"%string →
  (∀ n, Flat.disk s !! name = Some n → n = Flat.NFile (Some item)) →
  Flat.expired_at (clock (Flat.ticks s)) item = true →
  Flat.disk (fold_left (Flat.Clear_file clock) l s) !! name = None.
Proof.
  intros Hmono. revert s.
  induction l as [| x l IH]; intros s Hin Hext Hfile Hexp;
    [by apply elem_of_nil in Hin |].
  simpl.
  destruct (Flat_Clear_file_spec s x) as (Ht & Hframe & Hx & Hdelx).
  destruct (Flat_Clear_files_spec l (Flat.Clear_file clock s x))
    as (_ & Hnew & _).
  set (s1 := Flat.Clear_file clock s x) in *. simpl in *.
  assert (Hgone : Flat.disk s1 !! name = None →
                  Flat.disk (fold_left (Flat.Clear_file clock) l s1) !! name
                  = None).
  { intros Hnone.
    destruct (Flat.disk (fold_left _ l s1) !! name) as [n |] eqn:Hn; [| done].
    apply Hnew in Hn. congruence. }
  destruct (Flat.disk s !! name) as [n |] eqn:Hn.
  2:{ apply Hgone. destruct (decide (name = x)) as [-> | Hne].
      - destruct Hx as [-> | [? _]]; done.
      - by rewrite Hframe. }
  rewrite (Hfile n eq_refl) in Hn.
  destruct (decide (name = x)) as [-> | Hne].
  - apply Hgone. by eapply Hdelx.
  - apply elem_of_cons in Hin as [? | Hin]; [done |].
    apply IH; try done.
    + intros n'. rewrite Hframe by done. rewrite Hn. by intros [= <-].
    + by eapply Flat_expired_at_mono.
Qed.

(** X15. A pass of the flat [Clear] returns no error, creates or changes
    no file, and deletes a file only if its name ends in [.json] and a
    clock reading of the pass finds its entry expired; with a clock that
    does not go back it deletes every such file whose entry is expired
    when the pass starts. *)
Theorem Flat_Clear_removes_expired s :
  fst (Flat.Clear clock s) = None ∧
  (∀ x n, Flat.disk (snd (Flat.Clear clock s)) !! x = Some n →
          Flat.disk s !! x = Some n) ∧
  (∀ x n, Flat.disk s !! x = Some n →
     Flat.disk (snd (Flat.Clear clock s)) !! x = Some n ∨
     Flat.disk (snd (Flat.Clear clock s)) !! x = None ∧
     Ext x = ".json"%string ∧
     ∃ item k, n = Flat.NFile (Some item) ∧
               (Flat.ticks s <= k < Flat.ticks (snd (Flat.Clear clock s)))%nat
               ∧ Flat.expired_at (clock k) item = true) ∧
  ((∀ a b, (a <= b)%nat → clock a <= clock b) →
   ∀ x item, Flat.disk s !! x = Some (Flat.NFile (Some item)) →
     Ext x = ".json"%string →
     Flat.expired_at (clock (Flat.ticks s)) item = true →
     Flat.disk (snd (Flat.Clear clock s)) !! x = None).
Proof.
  unfold Flat.Clear. simpl.
  destruct (Flat_Clear_files_spec (map fst (Flat.ReadDir (Flat.disk s))) s)
    as (_ & Hnew & Hdel).
  split_and!; try done.
  intros Hmono x item Hx Hext Hexp.
  eapply Flat_Clear_files_delete; try done.
  - apply list_elem_of_fmap. exists (x, Flat.NFile (Some item)).
    split; [done |]. unfold Flat.ReadDir. rewrite merge_sort_Permutation.
    by apply elem_of_map_to_list.
  - intros n. rewrite Hx. by intros [= <-].
Qed.

End Properties.

Lemma Set_rejects_oversized_witness :
  Set_ sample_clock sample_json_len fresh_cache oversized "LGTM" None
  = (Some ErrTooLarge, fresh_cache).
Proof.
  apply Set_rejects_oversized.
  - reflexivity.
  - unfold oversized. rewrite length_blank, Z2Nat.id; lia.
Defined.

Lemma Get_missing_or_unparsable_witness :
  Get sample_clock fresh_cache "x" = (None, None, fresh_cache) ∧
  Get sample_clock (NewReviewCache corrupt_disk 0) "x"
  = (None, Some ErrUnmarshal, NewReviewCache corrupt_disk 0).
Proof.
  split.
  - apply (Get_missing_or_unparsable sample_clock fresh_cache "x");
      reflexivity.
  - apply (proj2 (Get_missing_or_unparsable sample_clock
                    (NewReviewCache corrupt_disk 0) "x" eq_refl)
             (mkFile None 7)).
    + apply lookup_singleton_eq.
    + reflexivity.
Defined.

(** C7, as stated, fails: the file of ["x"] holds bytes that do not parse;
    [Get] reports the decoding error to its caller and the file is still
    in the directory afterwards. *)
Lemma Get_unparsable_is_error :
  let s := NewReviewCache corrupt_disk 0 in
  fst (Get sample_clock s "x") = (None, Some ErrUnmarshal) ∧
  disk (snd (Get sample_clock s "x")) !! json_name (hashContent "x")
  = Some (NFile (mkFile None 7)).
Proof. vm_compute. split; reflexivity. Qed.

(** ** The executions behind the findings *)

Example hashContent_hello : hashContent "hello" = hello_hash.
Proof. vm_compute. reflexivity. Qed.

Lemma Set_then_Get_witness :
  ∃ s1 elem s2 item,
    Set_ sample_clock sample_json_len fresh_cache "hello" "LGTM" None
    = (None, s1) ∧
    Get sample_clock s1 "hello" = (Some elem, None, s2) ∧
    load s2 elem = Some item ∧
    ReviewResult item = "LGTM"%string ∧
    ContentHash item = hashContent "hello".
Proof.
  apply Set_then_Get.
  - apply reach_new.
  - simpl. lia.
Defined.

(** C1, as stated, fails on a content over the per-item limit: [Set]
    refuses it and the [Get] that follows finds nothing. *)
Lemma Set_oversized_then_Get_misses :
  Set_ sample_clock sample_json_len fresh_cache oversized "LGTM" None
  = (Some ErrTooLarge, fresh_cache) ∧
  Get sample_clock fresh_cache oversized = (None, None, fresh_cache).
Proof.
  split.
  - apply Set_too_large. change (maxFileSize fresh_cache) with (5 * 1024 * 1024).
    unfold oversized. rewrite length_blank, Z2Nat.id; lia.
  - apply Get_absent; apply lookup_empty.
Qed.

(** [Set] writes the entry of ["hello"] to [cacheDir/32/<hash>.json];
    after a restart [Get] looks for [cacheDir/<hash>.json] and reports a
    miss. *)
Example entry_lost_by_restart :
  fst (Set_ sample_clock sample_json_len fresh_cache "hello" "LGTM" None)
  = None ∧
  file_at (disk stored) "32" (json_name (hashContent "hello"))
  = Some (mkFile (Some (hello_item None)) 204) ∧
  disk stored !! json_name (hashContent "hello") = None ∧
  fst (Get sample_clock (restart stored) "hello") = (None, None).
Proof. vm_compute. repeat split; reflexivity. Qed.

(** The entry of ["hello"] expires one nanosecond after it is set; the
    [Get] that follows reads the clock two seconds later and returns the
    entry from the memory tier. *)
Example expired_entry_returned_from_memory :
  After (sample_clock (ticks stored_1ns)) 1 = true ∧
  fst (Get sample_clock stored_1ns "hello") = (Some 0%nat, None) ∧
  load (snd (Get sample_clock stored_1ns "hello")) 0%nat
  = Some (touch 2000000000 (hello_item (Some 1))).
Proof. vm_compute. repeat split; reflexivity. Qed.

Lemma Set_budget_check_never_fires_witness :
  currentSize fresh_cache <= 0 ∧
  ∃ s1 sub,
    Set_ sample_clock sample_json_len fresh_cache "hello" "LGTM" None
    = (None, s1) ∧
    currentSize s1 = currentSize fresh_cache ∧
    file_at (disk s1) sub (json_name (hashContent "hello")) =
      Some (Marshal sample_json_len
              (Set_item sample_clock fresh_cache "hello" "LGTM" None)) ∧
    ∀ sub' name' f,
      (sub', name') ≠ (sub, json_name (hashContent "hello")) →
      file_at (disk fresh_cache) sub' name' = Some f →
      file_at (disk s1) sub' name' = Some f.
Proof.
  apply Set_budget_check_never_fires.
  - apply reach_new.
  - simpl. lia.
Defined.

(** The entry of ["hello"] is in shard [32] and is expired when the
    cleanup pass runs; the pass scans [00] to [0f], takes no clock reading
    at all and leaves the file where it is. *)
Example expired_entry_survives_Clear :
  stale_at (sample_clock (ticks stored_1ns)) (hello_item (Some 1)) = true ∧
  file_at (disk stored_1ns) "32" (json_name (hashContent "hello"))
  = Some (mkFile (Some (hello_item (Some 1))) 204) ∧
  fst (Clear sample_clock stored_1ns) = None ∧
  ticks (snd (Clear sample_clock stored_1ns)) = ticks stored_1ns ∧
  file_at (disk (snd (Clear sample_clock stored_1ns))) "32"
          (json_name (hashContent "hello"))
  = Some (mkFile (Some (hello_item (Some 1))) 204).
Proof. vm_compute. repeat split; reflexivity. Qed.

(** C6, as stated, fails: [Clear] returns without error and the entry of
    ["hello"], which has no expiry and was accessed a second ago, is still
    in the directory. *)
Lemma Clear_keeps_fresh_entry :
  fst (Clear sample_clock stored) = None ∧
  stale_at (sample_clock (ticks stored)) (hello_item None) = false ∧
  file_at (disk (snd (Clear sample_clock stored))) "32"
          (json_name (hashContent "hello"))
  = Some (mkFile (Some (hello_item None)) 204).
Proof. vm_compute. repeat split; reflexivity. Qed.

Lemma lru_capacity_two_witness :
  ∃ s1 s2 s3 s4 elem,
    Set_ sample_clock sample_json_len two_slots "A" "a" None = (None, s1) ∧
    Set_ sample_clock sample_json_len s1 "B" "b" None = (None, s2) ∧
    Get sample_clock s2 "A" = (Some elem, None, s3) ∧
    Set_ sample_clock sample_json_len s3 "C" "c" None = (None, s4) ∧
    dom (memCache s4) = {[hashContent "A"; hashContent "C"]} ∧
    lru_hashes s4 = [Some (hashContent "C"); Some (hashContent "A")].
Proof.
  apply (lru_capacity_two sample_clock sample_json_len two_slots
           "A" "B" "C" "a" "b" "c" None None None).
  - split; simpl; try reflexivity; try lia.
    + intros name n. by rewrite lookup_empty.
    + intros name n. by rewrite lookup_empty.
  - reflexivity.
  - reflexivity.
  - reflexivity.
  - simpl. lia.
  - simpl. lia.
  - simpl. lia.
  - vm_compute. discriminate.
  - vm_compute. discriminate.
  - vm_compute. discriminate.
Defined.

Example lru_capacity_two_run :
  let s1 := snd (Set_ sample_clock sample_json_len two_slots "A" "a" None) in
  let s2 := snd (Set_ sample_clock sample_json_len s1 "B" "b" None) in
  let s3 := snd (Get sample_clock s2 "A") in
  let s4 := snd (Set_ sample_clock sample_json_len s3 "C" "c" None) in
  lru_hashes s2 = [Some (hashContent "B"); Some (hashContent "A")] ∧
  lru_hashes s3 = [Some (hashContent "A"); Some (hashContent "B")] ∧
  lru_hashes s4 = [Some (hashContent "C"); Some (hashContent "A")] ∧
  memCache s4 !! hashContent "B" = None.
Proof. vm_compute. repeat split; reflexivity. Qed.

Lemma BatchGet_exact_witness :
  (∀ c, is_Some (fst (BatchGet sample_clock stored ["hello"; "world"]) !! c)
        ↔ c ∈ ["hello"; "world"]%string ∧ cached sample_clock stored c = true) ∧
  size (fst (BatchGet sample_clock stored ["hello"; "world"])) =
  size (filter (λ c, cached sample_clock stored c = true)
               (list_to_set ["hello"; "world"]%string : gset string)) ∧
  (NoDup ["hello"; "world"]%string →
   size (fst (BatchGet sample_clock stored ["hello"; "world"])) =
   length (filter (λ c, cached sample_clock stored c = true)
                  ["hello"; "world"]%string)).
Proof.
  apply (BatchGet_exact sample_clock sample_json_len).
  unfold stored. apply reach_Set, reach_new.
Defined.

Example BatchGet_run :
  map fst (map_to_list (fst (BatchGet sample_clock stored ["hello"; "world"])))
  = ["hello"%string].
Proof. vm_compute. reflexivity. Qed.

Lemma Set_then_restart_misses_witness :
  ∃ s1 sub,
    Set_ sample_clock sample_json_len fresh_cache "hello" "LGTM" None
    = (None, s1) ∧
    file_at (disk s1) sub (json_name (hashContent "hello")) =
      Some (Marshal sample_json_len
              (Set_item sample_clock fresh_cache "hello" "LGTM" None)) ∧
    Get sample_clock (restart s1) "hello" = (None, None, restart s1).
Proof.
  apply Set_then_restart_misses.
  - apply reach_new.
  - simpl. lia.
Defined.

Lemma Get_returns_expired_entry_witness :
  ∃ s1 elem s2 item,
    Set_ sample_clock sample_json_len fresh_cache "hello" "LGTM" (Some 1)
    = (None, s1) ∧
    Get sample_clock s1 "hello" = (Some elem, None, s2) ∧
    load s2 elem = Some item ∧
    ReviewResult item = "LGTM"%string ∧
    ExpireAt item = Some (Add (sample_clock (ticks fresh_cache)) 1) ∧
    LastAccessed item = sample_clock (ticks s1) ∧
    After (LastAccessed item) (Add (sample_clock (ticks fresh_cache)) 1) = true.
Proof.
  apply Get_returns_expired_entry.
  - apply reach_new.
  - simpl. lia.
  - reflexivity.
Defined.

Lemma Clear_never_visits_Set_entries_witness :
  ∃ s1 sub,
    Set_ sample_clock sample_json_len fresh_cache "hello" "LGTM" (Some 1)
    = (None, s1) ∧
    subDir_of (hashContent "hello") = Some sub ∧
    (sub ∉ Clear_shards s1) ∧
    disk (snd (Clear sample_clock s1)) !! sub = disk s1 !! sub ∧
    file_at (disk (snd (Clear sample_clock s1))) sub
            (json_name (hashContent "hello"))
    = Some (Marshal sample_json_len
              (Set_item sample_clock fresh_cache "hello" "LGTM" (Some 1))).
Proof.
  apply Clear_never_visits_Set_entries.
  - apply reach_new.
  - simpl. lia.
Defined.

Lemma evicting_old_duplicate_drops_key_witness :
  ∃ s', Set_ sample_clock sample_json_len crowded "world" "LGTM" None
        = (None, s') ∧
        1%nat ∈ lru s' ∧ memCache s' !! hashContent "hello" = None.
Proof.
  apply (evicting_old_duplicate_drops_key sample_clock sample_json_len
           crowded 0%nat 1%nat (hello_item None) "world" "LGTM" None).
  - apply (reachable_inv sample_clock sample_json_len).
    apply reachable_Set_each, reach_new.
  - vm_compute. discriminate.
  - vm_compute. reflexivity.
  - vm_compute. reflexivity.
  - vm_compute. reflexivity.
  - discriminate.
  - apply list_elem_of_lookup. exists 98%nat. vm_compute. reflexivity.
  - simpl. lia.
  - vm_compute. discriminate.
Defined.

(** ** Instances of the further properties *)

Lemma sample_clock_mono m n :
  (m <= n)%nat → sample_clock m <= sample_clock n.
Proof. unfold sample_clock. lia. Qed.

Lemma Set_errors_witness :
  ErrTooLarge = ErrTooLarge ∨ ErrTooLarge = ErrCacheFull ∨
  ErrTooLarge = ErrMkdir ENOTDIR ∨ ErrTooLarge = EISDIR.
Proof.
  apply (Set_errors sample_clock sample_json_len fresh_cache oversized
           "LGTM" None).
  rewrite Set_too_large; [reflexivity |].
  change (maxFileSize fresh_cache) with (5 * 1024 * 1024).
  unfold oversized. rewrite length_blank, Z2Nat.id; lia.
Defined.


Lemma Get_returns_own_entry_witness :
  (None : option error) = None ∧
  ∃ item, load (snd (Get sample_clock stored "hello")) 0%nat = Some item ∧
          ContentHash item = hashContent "hello" ∧
          LastAccessed item = sample_clock (ticks stored).
Proof.
  apply (Get_returns_own_entry sample_clock sample_json_len stored "hello").
  - unfold stored. apply reach_Set, reach_new.
  - vm_compute. reflexivity.
Defined.


Lemma Get_drops_expired_file_witness :
  ∃ s1,
    Get sample_clock (root_file_cache (Some 1)) "x" = (None, None, s1) ∧
    disk s1 = delete (json_name (hashContent "x"))
                     (disk (root_file_cache (Some 1))) ∧
    memCache s1 = memCache (root_file_cache (Some 1)) ∧
    lru s1 = lru (root_file_cache (Some 1)) ∧
    Get sample_clock s1 "x" = (None, None, s1).
Proof.
  apply (Get_drops_expired_file sample_clock (root_file_cache (Some 1)) "x"
           (mkFile (Some (x_item (Some 1))) 150) (x_item (Some 1)) 1).
  - apply lookup_empty.
  - apply lookup_singleton_eq.
  - reflexivity.
  - reflexivity.
  - reflexivity.
Defined.

Lemma Clear_deletes_stale_files_witness :
  file_at (disk (snd (Clear sample_clock scanned_shard_cache))) "0a" "k.json"
  = None.
Proof.
  apply (Clear_deletes_stale_files sample_clock sample_clock_mono
           scanned_shard_cache "0a" "k.json"
           (mkFile (Some (x_item (Some 1))) 150) (x_item (Some 1))).
  - apply list_elem_of_lookup. exists 10%nat. vm_compute. reflexivity.
  - vm_compute. reflexivity.
  - vm_compute. reflexivity.
  - reflexivity.
  - vm_compute. reflexivity.
Defined.

Lemma BatchSet_collects_errors_witness :
  fst (BatchSet sample_clock sample_json_len fresh_cache
         [("hello", "a"); (oversized, "b"); ("world", "c")]%string None) =
  repeat ErrTooLarge
    (length (filter too_large
               [("hello", "a"); (oversized, "b"); ("world", "c")]%string)) ∧
  ∀ kv, kv ∈ [("hello", "a"); (oversized, "b"); ("world", "c")]%string →
    ¬ too_large kv →
    ∃ sub, subDir_of (hashContent (fst kv)) = Some sub ∧
           is_Some (file_at
                      (disk (snd (BatchSet sample_clock sample_json_len
                                    fresh_cache
                                    [("hello", "a"); (oversized, "b");
                                     ("world", "c")]%string None)))
                      sub (json_name (hashContent (fst kv)))).
Proof.
  apply (BatchSet_collects_errors sample_clock sample_json_len).
  apply reach_new.
Defined.

Lemma Get_only_reads_witness :
  disk (snd (Get sample_clock stored "hello")) = disk stored ∧
  currentSize (snd (Get sample_clock stored "hello")) = currentSize stored ∧
  memCache (snd (Get sample_clock stored "hello")) = memCache stored ∧
  lru (snd (Get sample_clock stored "hello")) ≡ₚ lru stored ∧
  ∀ p item, heap stored !! p = Some item →
    ∃ item', heap (snd (Get sample_clock stored "hello")) !! p = Some item' ∧
             same_entry item item'.
Proof.
  apply (Get_only_reads sample_clock sample_json_len).
  unfold stored. apply reach_Set, reach_new.
Defined.

Lemma directory_layout_witness :
  (∀ name n, disk crowded !! name = Some n →
     name ∈ Set_shards ∧ ∃ dir, n = NDir dir) ∧
  (∀ sub name f, file_at (disk crowded) sub name = Some f →
     ∃ item content,
       decoded f = Some item ∧
       ContentHash item = hashContent content ∧
       name = json_name (hashContent content) ∧
       subDir_of (hashContent content) = Some sub).
Proof.
  apply (directory_layout sample_clock sample_json_len).
  apply reachable_Set_each, reach_new.
Defined.


Lemma Flat_Get_expired_witness :
  ∃ s1,
    Flat.Get sample_clock flat_expired "x" = (None, None, s1) ∧
    Flat.disk s1 = delete (json_name (hashContent "x")) (Flat.disk flat_expired)
    ∧ Flat.Get sample_clock s1 "x" = (None, None, s1).
Proof.
  apply (Flat_Get_expired sample_clock flat_expired "x" flat_x_item 1).
  - apply lookup_singleton_eq.
  - reflexivity.
  - reflexivity.
Defined.

(** ** Further properties: the report generator *)

Lemma suggestionMap_fold issues m x :
  fold_left
    (fun m issue =>
       if decide (Suggestion issue = EmptyString) then m
       else incr (Suggestion issue) m) issues m !! x =
  if decide (x = EmptyString ∨ suggestion_count issues x = 0) then m !! x
  else Some (default 0 (m !! x) + suggestion_count issues x).
Proof.
  revert m. induction issues as [| issue issues IH]; intros m.
  { simpl. rewrite decide_True; [done | by right]. }
  cbn [fold_left]. rewrite IH. unfold suggestion_count.
  rewrite filter_cons.
  destruct (decide (Suggestion issue = EmptyString)) as [He | Hne].
  - destruct (decide (Suggestion issue = x)) as [<- | Hx].
    + rewrite !decide_True; auto.
    + done.
  - destruct (decide (Suggestion issue = x)) as [<- | Hx].
    + unfold incr. rewrite lookup_insert_eq. cbn [length default]. unfold id.
      repeat case_decide; first [f_equal; intuition lia | exfalso; intuition lia].
    + unfold incr. by rewrite lookup_insert_ne.
Qed.

Lemma suggestionMap_lookup issues x c :
  suggestionMap issues !! x = Some c ↔
  x ≠ EmptyString ∧ 0 < c ∧ c = suggestion_count issues x.
Proof.
  unfold suggestionMap. rewrite suggestionMap_fold, lookup_empty.
  assert (0 <= suggestion_count issues x) by (unfold suggestion_count; lia).
  case_decide as Hc; simpl.
  - split; [done |]. intros (? & ? & ?). destruct Hc; [done | lia].
  - split.
    + intros [= <-]. split_and!; [tauto | lia | lia].
    + intros (_ & _ & ->). done.
Qed.

Lemma suggestion_count_pos issues x :
  0 < suggestion_count issues x ↔ ∃ issue, issue ∈ issues ∧ Suggestion issue = x.
Proof.
  unfold suggestion_count. split.
  - intros Hpos.
    destruct (filter (λ issue, Suggestion issue = x) issues) as [| i l] eqn:Hf;
      [simpl in Hpos; lia |].
    assert (Hin : i ∈ filter (λ issue, Suggestion issue = x) issues)
      by (rewrite Hf; left).
    apply list_elem_of_filter in Hin as [? ?]. eauto.
  - intros (issue & Hin & Hs).
    assert (Hin' : issue ∈ filter (λ issue, Suggestion issue = x) issues)
      by (by apply list_elem_of_filter).
    destruct (filter _ issues); [by apply elem_of_nil in Hin' | simpl; lia].
Qed.

Lemma StronglySorted_lookup {A} (R : A → A → Prop) l i j x y :
  StronglySorted R l → (i < j)%nat →
  l !! i = Some x → l !! j = Some y → R x y.
Proof.
  intros Hs. revert i j. induction Hs as [| a l Hs IH Hall]; intros i j Hij Hi Hj.
  { by rewrite lookup_nil in Hi. }
  destruct j as [| j]; [lia |]. simpl in Hj.
  destruct i as [| i]; simpl in Hi.
  - injection Hi as <-. rewrite Forall_forall in Hall. apply Hall.
    by eapply list_elem_of_lookup_2.
  - apply (IH i j); [lia | done | done].
Qed.

Section Reporter_properties.

Variable range_int : gmap string Z -> list (string * Z).
Variable range_bool : gmap string bool -> list (string * bool).
Variable sort_Slice :
  (string * Z -> string * Z -> bool) -> list (string * Z) -> list (string * Z).

(** [range] visits every entry of the map once; [sort.Slice] rearranges
    the slice so that no element is less than one before it. *)
Hypothesis range_int_perm : ∀ m, range_int m ≡ₚ map_to_list m.
Hypothesis range_bool_perm : ∀ m, range_bool m ≡ₚ map_to_list m.
Hypothesis sort_Slice_perm : ∀ less l, sort_Slice less l ≡ₚ l.
Hypothesis sort_Slice_sorted : ∀ l,
  StronglySorted (may_precede (fun a b => snd b <? snd a))
                 (sort_Slice (fun a b => snd b <? snd a) l).

Lemma sorted_suggestions issues x c :
  (x, c) ∈ sort_Slice (fun a b => snd b <? snd a)
             (range_int (suggestionMap issues)) ↔
  x ≠ EmptyString ∧ 0 < c ∧ c = suggestion_count issues x.
Proof.
  rewrite sort_Slice_perm, range_int_perm, elem_of_map_to_list.
  apply suggestionMap_lookup.
Qed.

(** X16. Whatever the order of iteration and the choices of the sort,
    [summarizeSuggestions] returns each distinct non-empty suggestion of
    the issues exactly once, and nothing else, the suggestions made more
    often first. *)
Theorem summarizeSuggestions_spec issues :
  NoDup (summarizeSuggestions range_int sort_Slice issues) ∧
  (∀ x, x ∈ summarizeSuggestions range_int sort_Slice issues ↔
        x ≠ EmptyString ∧ ∃ issue, issue ∈ issues ∧ Suggestion issue = x) ∧
  (∀ i j x y, (i < j)%nat →
     summarizeSuggestions range_int sort_Slice issues !! i = Some x →
     summarizeSuggestions range_int sort_Slice issues !! j = Some y →
     suggestion_count issues y <= suggestion_count issues x).
Proof.
  unfold summarizeSuggestions. cbv zeta. split_and!.
  - change (map fst ?l) with (l.*1).
    rewrite sort_Slice_perm, range_int_perm. apply NoDup_fst_map_to_list.
  - intros x. change (map fst ?l) with (fst <$> l).
    rewrite list_elem_of_fmap. split.
    + intros ([x' c] & -> & Hin). apply sorted_suggestions in Hin
        as (Hne & Hpos & ->). split; [done |]. by apply suggestion_count_pos.
    + intros (Hne & Hex). apply suggestion_count_pos in Hex.
      exists (x, suggestion_count issues x). split; [done |].
      by apply sorted_suggestions.
  - intros i j x y Hij Hx Hy.
    change (map fst ?l) with (fst <$> l) in Hx, Hy.
    apply list_lookup_fmap_Some in Hx as ([x' cx] & -> & Hx).
    apply list_lookup_fmap_Some in Hy as ([y' cy] & -> & Hy). simpl.
    pose proof (StronglySorted_lookup _ _ _ _ _ _ (sort_Slice_sorted _)
                  Hij Hx Hy) as Hord.
    apply list_elem_of_lookup_2 in Hx, Hy.
    apply sorted_suggestions in Hx as (_ & _ & <-).
    apply sorted_suggestions in Hy as (_ & _ & <-).
    unfold may_precede in Hord. simpl in Hord. apply Z.ltb_ge in Hord. done.
Qed.

Lemma filesMap_lookup issues x :
  is_Some (filesMap issues !! x) ↔
  ∃ issue, issue ∈ issues ∧ FilePath issue = x.
Proof.
  unfold filesMap.
  assert (Hgen : ∀ m : gmap string bool,
    is_Some (fold_left (fun m issue => <[FilePath issue := true]> m)
               issues m !! x) ↔
    is_Some (m !! x) ∨ ∃ issue, issue ∈ issues ∧ FilePath issue = x).
  { induction issues as [| issue issues IH]; intros m; simpl.
    - split; [by left | intros [? | (? & Hin & _)]; [done |]].
      by apply elem_of_nil in Hin.
    - rewrite IH. destruct (decide (FilePath issue = x)) as [<- | Hne].
      + rewrite lookup_insert_eq. split; [| eauto].
        intros _. right. exists issue. split; [left | done].
      + rewrite lookup_insert_ne by done. split.
        * intros [? | (i & Hin & Hi)]; [by left | right].
          exists i. split; [by right | done].
        * intros [? | (i & [-> | Hin]%elem_of_cons & Hi)];
            [by left | done | right; eauto]. }
  rewrite Hgen, lookup_empty. split; [| eauto].
  intros [[? ?] | ?]; done.
Qed.

(** X17. Whatever the order of iteration, [getUniqueFiles] returns each
    file path that occurs in the issues exactly once, and nothing else; it
    never returns more paths than there are issues. *)
Theorem getUniqueFiles_spec issues :
  NoDup (getUniqueFiles range_bool issues) ∧
  (∀ x, x ∈ getUniqueFiles range_bool issues ↔
        ∃ issue, issue ∈ issues ∧ FilePath issue = x) ∧
  (length (getUniqueFiles range_bool issues) <= length issues)%nat.
Proof.
  unfold getUniqueFiles.
  assert (Hnd : NoDup (map fst (range_bool (filesMap issues)))).
  { change (map fst ?l) with (l.*1). rewrite range_bool_perm.
    apply NoDup_fst_map_to_list. }
  assert (Hmem : ∀ x, x ∈ map fst (range_bool (filesMap issues)) ↔
                      ∃ issue, issue ∈ issues ∧ FilePath issue = x).
  { intros x. change (map fst ?l) with (fst <$> l).
    rewrite list_elem_of_fmap, <- filesMap_lookup. split.
    - intros ([x' b] & -> & Hin). rewrite range_bool_perm in Hin.
      apply elem_of_map_to_list in Hin. eauto.
    - intros [b Hb]. exists (x, b). split; [done |].
      rewrite range_bool_perm. by apply elem_of_map_to_list. }
  split_and!; [done | done |].
  rewrite <- (length_fmap FilePath issues). apply submseteq_length.
  apply NoDup_submseteq; [done |]. intros x Hx.
  apply Hmem in Hx as (issue & Hin & <-). by apply list_elem_of_fmap_2.
Qed.

End Reporter_properties.

(** X18. The block that prints the code snippet of an issue never indexes
    outside the lines of the snippet, whatever the line number of the
    issue; it prints at most six lines, each with the number that follows
    its index, and marks the line whose number is the line of the issue
    and no other. *)
Theorem snippet_rows_in_range issue :
  ∃ rows,
    snippet_rows issue = Some rows ∧ (length rows <= 6)%nat ∧
    ∀ marked n text, (marked, n, text) ∈ rows →
      Split newline (CodeSnippet issue) !! Z.to_nat (n - 1) = Some text ∧
      1 <= n ∧ Line issue - 2 <= n <= Line issue + 3 ∧
      (marked = true ↔ n = Line issue).
Proof.
  unfold snippet_rows.
  set (lines := Split newline (CodeSnippet issue)).
  set (cs := Z.max 0 (Line issue - 3)).
  set (ce := Z.min (Z.of_nat (length lines)) (Line issue + 3)).
  set (idx := map (fun k => cs + Z.of_nat k) (seq 0 (Z.to_nat (ce - cs)))).
  assert (Hidx : ∀ i, i ∈ idx → cs <= i < ce).
  { intros i. subst idx. change (map ?f ?l) with (f <$> l).
    rewrite list_elem_of_fmap. intros (k & -> & Hk).
    apply elem_of_seq in Hk. lia. }
  set (f := fun i => match lines !! Z.to_nat i with
                     | Some text => Some (i =? Line issue - 1, i + 1, text)
                     | None => None
                     end).
  assert (Hsome : is_Some (mapM f idx)).
  { apply mapM_is_Some, Forall_forall. intros i Hi. apply Hidx in Hi.
    unfold compose, f.
    destruct (lookup_lt_is_Some_2 lines (Z.to_nat i)) as [text ->]; [| done].
    subst cs ce. lia. }
  destruct Hsome as [rows Hrows]. exists rows. split; [done |].
  pose proof (length_mapM _ _ _ Hrows) as Hlen.
  apply mapM_Some in Hrows. split.
  - rewrite <- Hlen. subst idx. rewrite length_map, length_seq.
    subst cs ce. lia.
  - intros marked n text Hin. apply list_elem_of_lookup in Hin as [k Hk].
    destruct (Forall2_lookup_r _ _ _ _ _ Hrows Hk) as (i & Hi & Hf).
    apply list_elem_of_lookup_2, Hidx in Hi. unfold f in Hf.
    destruct (lines !! Z.to_nat i) as [text' |] eqn:Hline; [| done].
    injection Hf as <- <- <-.
    replace (i + 1 - 1) with i by lia. split_and!; try done.
    + subst cs. lia.
    + subst cs. lia.
    + subst ce. lia.
    + rewrite Z.eqb_eq. lia.
Qed.

(** The sample order of iteration and the sample sort meet the
    requirements on [range] and [sort.Slice]. *)
Lemma sample_range_perm {V} (m : gmap string V) :
  sample_range m ≡ₚ map_to_list m.
Proof. done. Qed.

Lemma sample_sort_perm less l : sample_sort less l ≡ₚ l.
Proof. apply merge_sort_Permutation. Qed.

Lemma sample_sort_sorted l :
  StronglySorted (may_precede (fun a b => snd b <? snd a))
                 (sample_sort (fun a b => snd b <? snd a) l).
Proof.
  apply StronglySorted_merge_sort.
  - intros a b c Hab Hbc. unfold may_precede in *. simpl in *.
    apply Z.ltb_ge in Hab, Hbc. apply Z.ltb_ge. lia.
  - intros a b. unfold may_precede. simpl.
    destruct (Z.ltb_spec a.2 b.2), (Z.ltb_spec b.2 a.2); auto; lia.
Qed.

Lemma summarizeSuggestions_spec_witness :
  summarizeSuggestions sample_range sample_sort sample_issues =
    ["add tests"; "rename"]%string ∧
  NoDup (summarizeSuggestions sample_range sample_sort sample_issues) ∧
  (∀ x, x ∈ summarizeSuggestions sample_range sample_sort sample_issues ↔
        x ≠ EmptyString ∧
        ∃ issue, issue ∈ sample_issues ∧ Suggestion issue = x) ∧
  (∀ i j x y, (i < j)%nat →
     summarizeSuggestions sample_range sample_sort sample_issues !! i
       = Some x →
     summarizeSuggestions sample_range sample_sort sample_issues !! j
       = Some y →
     suggestion_count sample_issues y <= suggestion_count sample_issues x).
Proof.
  split; [by vm_compute |].
  exact (summarizeSuggestions_spec sample_range sample_sort
           (@sample_range_perm Z) sample_sort_perm sample_sort_sorted
           sample_issues).
Defined.

Lemma getUniqueFiles_spec_witness :
  getUniqueFiles sample_range sample_issues ≡ₚ
    ["x.go"; "y.go"; "z.go"]%string ∧
  NoDup (getUniqueFiles sample_range sample_issues) ∧
  (∀ x, x ∈ getUniqueFiles sample_range sample_issues ↔
        ∃ issue, issue ∈ sample_issues ∧ FilePath issue = x) ∧
  (length (getUniqueFiles sample_range sample_issues)
   <= length sample_issues)%nat.
Proof.
  split.
  - apply (bool_decide_unpack _). by vm_compute.
  - exact (getUniqueFiles_spec sample_range (@sample_range_perm bool)
             sample_issues).
Defined.

(** ** The model manager *)

Lemma manager_reachable_clients m :
  Model.manager_reachable m →
  ∀ t c, Model.clients m !! t = Some c →
    ∃ cfg, Model.Models (Model.config m) !! t = Some (Some cfg) ∧
           Model.NewModelClient (Some cfg) = inl c.
Proof.
  induction 1 as [cfg m Hnew | m t0 Hm IH]; intros t c Hc.
  - unfold Model.NewModelManager in Hnew. destruct cfg as [cfg |]; [| done].
    repeat case_decide; try done. injection Hnew as <-.
    simpl in Hc. by rewrite lookup_empty in Hc.
  - unfold Model.GetClient in Hc |- *.
    set (t' := if decide (t0 = EmptyString)
               then Model.DefaultModel (Model.config m) else t0) in *.
    destruct (Model.clients m !! t') as [c' |] eqn:Hcl.
    { destruct (Model.Models (Model.config m) !! t') as [[? |] |];
        simpl in *; eauto. }
    destruct (Model.Models (Model.config m) !! t') as [cfg' |] eqn:Hcfg;
      simpl in *; [| eauto].
    destruct (Model.NewModelClient cfg') as [c' | e] eqn:Hn;
      simpl in *; [| eauto].
    destruct (decide (t' = t)) as [<- | Hne].
    + rewrite lookup_insert_eq in Hc. injection Hc as <-.
      destruct cfg' as [cfg' |]; [eauto | done].
    + rewrite lookup_insert_ne in Hc by done. eauto.
Qed.

(** X19. On a manager built by [NewModelManager] and used through
    [GetClient], a call of [GetClient] never dereferences a nil pointer and
    never changes the configuration; it returns a client exactly when the
    configuration has an entry for the type asked for (the default type for
    the empty string) from which [NewModelClient] builds one, and then
    returns that client; asking again returns the same client and leaves
    the manager as it is. *)
Theorem GetClient_spec m modelType :
  Model.manager_reachable m →
  let t := if decide (modelType = EmptyString)
           then Model.DefaultModel (Model.config m) else modelType in
  let r := Model.GetClient m modelType in
  fst r ≠ inr Model.PanicNil ∧
  Model.config (snd r) = Model.config m ∧
  (∀ c, fst r = inl c ↔
        ∃ cfg, Model.Models (Model.config m) !! t = Some (Some cfg) ∧
               Model.NewModelClient (Some cfg) = inl c) ∧
  (∀ c, fst r = inl c → Model.GetClient (snd r) modelType = (inl c, snd r)).
Proof.
  intros Hm t r. pose proof (manager_reachable_clients m Hm) as Hok.
  subst r. unfold Model.GetClient. fold t.
  destruct (Model.clients m !! t) as [c' |] eqn:Hcl.
  - destruct (Hok _ _ Hcl) as (cfg & Hcfg & Hnew). rewrite Hcfg. cbn [fst snd Model.config Model.clients].
    fold t. rewrite Hcl, Hcfg. split_and!; try done.
    + intros c. split.
      * intros [= <-]. eauto.
      * intros (cfg' & [= Heq] & Hnew'). congruence.
    + by intros c [= <-].
  - destruct (Model.Models (Model.config m) !! t) as [cfg' |] eqn:Hcfg.
    2: { cbn [fst snd Model.config Model.clients]. split_and!; try done. intros c. split; [done |].
         by intros (? & ? & _). }
    destruct (Model.NewModelClient cfg') as [c' | e] eqn:Hn;
      cbn [fst snd Model.config Model.clients].
    2: { split_and!; try done. intros c. split; [done |].
         intros (cfg & [= Heq] & Hnew). congruence. }
    fold t. rewrite lookup_insert_eq.
    destruct cfg' as [cfg' |]; [| done]. rewrite Hcfg.
    split_and!; try done.
    + intros c. split.
      * intros [= <-]. eauto.
      * intros (cfg & [= Heq] & Hnew). congruence.
    + by intros c [= <-].
Qed.

Lemma NewModelConfigWithKeys_lookup d o c q t :
  Model.Models (Model.NewModelConfigWithKeys d o c q) !! t =
  if decide (t = "qwen"%string) then
    if decide (q = EmptyString) then None
    else Some (Some (Model.mkConfig "qwen" q "qwen-coder-plus" 2000
                                    Model.f0_7))
  else if decide (t = "deepseek"%string) then
    if decide (d = EmptyString) then None
    else Some (Some (Model.mkConfig "deepseek" d "deepseek-ai/DeepSeek-R1"
                                    2000 Model.f0_7))
  else if decide (t = "openai"%string) then
    if decide (o = EmptyString) then None
    else Some (Some (Model.mkConfig "openai" o "gpt-3.5-turbo" 2000
                                    Model.f0_7))
  else if decide (t = "chatglm"%string) then
    if decide (c = EmptyString) then None
    else Some (Some (Model.mkConfig "chatglm" c "glm-4" 2000 Model.f0_7))
  else None.
Proof.
  unfold Model.NewModelConfigWithKeys. cbn [Model.Models].
  destruct (decide (t = "qwen"%string)) as [-> | ?];
  [| destruct (decide (t = "deepseek"%string)) as [-> | ?];
   [| destruct (decide (t = "openai"%string)) as [-> | ?];
    [| destruct (decide (t = "chatglm"%string)) as [-> | ?]]]];
  destruct (decide (q = EmptyString)), (decide (d = EmptyString)),
           (decide (o = EmptyString)), (decide (c = EmptyString));
  repeat first [ rewrite lookup_insert_eq | rewrite lookup_insert_ne by done
               | rewrite lookup_empty ];
  done.
Qed.

Lemma NewModelConfigWithKeys_default d o c q :
  Model.DefaultModel (Model.NewModelConfigWithKeys d o c q) = "qwen"%string.
Proof. done. Qed.

Lemma NewModelManager_WithKeys d o c q :
  Model.NewModelManager (Some (Model.NewModelConfigWithKeys d o c q)) =
  if decide (d = EmptyString ∧ o = EmptyString ∧
             c = EmptyString ∧ q = EmptyString)
  then inr Model.ErrNoModels
  else inl (Model.mkModelManager (Model.NewModelConfigWithKeys d o c q) ∅).
Proof.
  unfold Model.NewModelManager.
  rewrite decide_False by done.
  set (cfg := Model.NewModelConfigWithKeys d o c q).
  destruct (decide (size (Model.Models cfg) = 0%nat)) as [Hz | Hnz].
  - apply map_size_empty_iff in Hz. rewrite decide_True; [done |].
    pose proof (NewModelConfigWithKeys_lookup d o c q) as Hl.
    fold cfg in Hl. rewrite Hz in Hl.
    pose proof (Hl "qwen"%string) as H1. pose proof (Hl "deepseek"%string) as H2.
    pose proof (Hl "openai"%string) as H3. pose proof (Hl "chatglm"%string) as H4.
    rewrite lookup_empty in H1, H2, H3, H4. simpl in *.
    repeat case_decide; done.
  - rewrite decide_False; [done |]. intros (-> & -> & -> & ->).
    apply Hnz. by vm_compute.
Qed.

(** X20. Whatever the option [api_key], the pre-push hook never obtains a
    model client: with no key the manager is refused, and with a key the
    configuration holds the DeepSeek entry only while the default type is
    [qwen]. *)
Theorem reviewRef_never_gets_client api_key :
  Model.reviewRef_client api_key =
  inr (if decide (api_key = EmptyString) then Model.ErrNoModels
       else Model.ErrConfigNotFound "qwen").
Proof.
  unfold Model.reviewRef_client. rewrite NewModelManager_WithKeys.
  destruct (decide (api_key = EmptyString)) as [-> | Hk].
  - by rewrite decide_True.
  - rewrite decide_False by tauto.
    unfold Model.GetClient. cbn [Model.clients Model.config].
    rewrite decide_True by done.
    rewrite NewModelConfigWithKeys_default, lookup_empty,
      NewModelConfigWithKeys_lookup.
    by repeat (rewrite decide_True by done).
Qed.

Lemma main_client_eq d q model :
  Model.main_client d q model =
  let cfg := Model.NewModelConfigWithKeys d EmptyString EmptyString q in
  if decide (d = EmptyString ∧ q = EmptyString) then inr Model.ErrNoModels
  else if decide (model = EmptyString ∨ model = "qwen"%string) then
    if decide (q = EmptyString) then inr (Model.ErrConfigNotFound "qwen")
    else inl (cfg, Model.QWENClient
                     (Model.mkConfig "qwen" q "qwen-coder-plus" 2000
                                     Model.f0_7))
  else if decide (model = "deepseek"%string) then
    if decide (d = EmptyString) then inr (Model.ErrConfigNotFound "deepseek")
    else inl (cfg, Model.DeepSeekClient
                     (Model.mkConfig "deepseek" d "deepseek-ai/DeepSeek-R1"
                                     2000 Model.f0_7))
  else inr (Model.ErrConfigNotFound model).
Proof.
  unfold Model.main_client. rewrite NewModelManager_WithKeys.
  destruct (decide (d = EmptyString ∧ EmptyString = EmptyString ∧
                    EmptyString = EmptyString ∧ q = EmptyString))
    as [(-> & _ & _ & ->) | Hkeys].
  { by rewrite decide_True. }
  cbv zeta. rewrite (decide_False (P := d = EmptyString ∧ q = EmptyString))
    by tauto.
  unfold Model.GetClient. cbn [Model.clients Model.config].
  rewrite NewModelConfigWithKeys_default, lookup_empty,
    NewModelConfigWithKeys_lookup.
  unfold Model.NewModelClient.
  destruct (decide (model = EmptyString)) as [-> | Hm].
  { rewrite (decide_True (P := _ ∨ _)) by (by left).
    destruct (decide (q = EmptyString)) as [-> | Hq]; [done |].
    simpl. by rewrite decide_False. }
  destruct (decide (model = "qwen"%string)) as [-> | Hmq].
  { rewrite (decide_True (P := _ ∨ _)) by (by right).
    destruct (decide (q = EmptyString)) as [-> | Hq]; [done |].
    simpl. by rewrite decide_False. }
  rewrite (decide_False (P := _ ∨ _)) by tauto.
  destruct (decide (model = "deepseek"%string)) as [-> | Hmd].
  { destruct (decide (d = EmptyString)) as [-> | Hd]; [done |].
    simpl. by rewrite decide_False. }
  repeat case_decide; done.
Qed.

(** X21. [main] obtains a model client exactly when the flag [-model] is
    empty or [qwen] and the environment gives a Qwen key, or the flag is
    [deepseek] and the environment gives a DeepSeek key; the client is then
    the Qwen client, respectively the DeepSeek client, with that key. The
    types [openai] and [chatglm] never give a client. *)
Theorem main_client_spec d q model :
  ((∃ r, Model.main_client d q model = inl r) ↔
   ((model = EmptyString ∨ model = "qwen"%string) ∧ q ≠ EmptyString) ∨
   (model = "deepseek"%string ∧ d ≠ EmptyString)) ∧
  (∀ cfg c, Model.main_client d q model = inl (cfg, c) →
     cfg = Model.NewModelConfigWithKeys d EmptyString EmptyString q ∧
     Model.APIKey (Model.client_config c) =
       (if decide (model = "deepseek"%string) then d else q) ∧
     ∃ config, c = if decide (model = "deepseek"%string)
                   then Model.DeepSeekClient config
                   else Model.QWENClient config).
Proof.
  rewrite main_client_eq. cbv zeta.
  destruct (decide (d = EmptyString ∧ q = EmptyString)) as [[-> ->] | Hkeys].
  { split; [| done]. split; [by intros [? ?] | tauto]. }
  destruct (decide (model = EmptyString ∨ model = "qwen"%string)) as [Hm | Hm].
  - assert (Hnd : model ≠ "deepseek"%string) by (by destruct Hm as [-> | ->]).
    rewrite (decide_False (P := model = "deepseek"%string)) by done.
    destruct (decide (q = EmptyString)) as [-> | Hq].
    + split; [| done]. split; [by intros [? ?] | tauto].
    + split; [split; [tauto | eauto] |].
      intros cfg c [= <- <-]. split_and!; [done | done |].
      eexists. by rewrite decide_False.
  - destruct (decide (model = "deepseek"%string)) as [-> | Hmd].
    + destruct (decide (d = EmptyString)) as [-> | Hd].
      * split; [| done]. split; [by intros [? ?] | tauto].
      * split; [split; [tauto | eauto] |].
        intros cfg c [= <- <-]. eauto.
    + split; [| done]. split; [by intros [? ?] | tauto].
Qed.

(** X22. When [main] runs with the DeepSeek client, the request it builds
    for a change is read from the entry of the default type [qwen]: with
    no Qwen key that entry is missing and building the request
    dereferences a nil pointer; with a Qwen key the request goes to the
    DeepSeek address and asks for the model [qwen-coder-plus], which
    [ApplyConfig] leaves in place. *)
Theorem deepseek_request_names_qwen_model d q cfg c messages :
  Model.main_client d q "deepseek" = inl (cfg, c) →
  if decide (q = EmptyString)
  then Model.review_request cfg messages = inr Model.PanicNil
  else ∃ req,
         Model.review_request cfg messages = inl req ∧
         Model.Chat_request c req = (Model.DeepSeekAPIURL, req) ∧
         Model.req_Model req = "qwen-coder-plus"%string.
Proof.
  rewrite main_client_eq. cbv zeta.
  case_decide as Hkeys; [done |].
  rewrite (decide_False (P := _ ∨ _)) by (by intros [? | ?]).
  rewrite (decide_True (P := "deepseek"%string = _)) by done.
  destruct (decide (d = EmptyString)) as [-> | Hd]; [done |].
  intros [= <- <-]. unfold Model.review_request.
  rewrite NewModelConfigWithKeys_default, NewModelConfigWithKeys_lookup.
  destruct (decide (q = EmptyString)) as [-> | Hq]; simpl; [done |].
  eexists. split; [done |]. split; reflexivity.
Qed.

Lemma GetClient_spec_witness :
  let m0 := Model.mkModelManager
              (Model.NewModelConfigWithKeys "dk" "" "" "qk") ∅ in
  let m := snd (Model.GetClient m0 "deepseek") in
  let r := Model.GetClient m "deepseek" in
  Model.manager_reachable m ∧
  fst r = inl (Model.DeepSeekClient
                 (Model.mkConfig "deepseek" "dk" "deepseek-ai/DeepSeek-R1"
                                 2000 Model.f0_7)) ∧
  fst r ≠ inr Model.PanicNil ∧
  Model.config (snd r) = Model.config m ∧
  (∀ c, fst r = inl c ↔
        ∃ cfg, Model.Models (Model.config m) !! "deepseek"%string
                 = Some (Some cfg) ∧
               Model.NewModelClient (Some cfg) = inl c) ∧
  (∀ c, fst r = inl c → Model.GetClient (snd r) "deepseek" = (inl c, snd r)).
Proof.
  intros m0 m r.
  assert (Hm : Model.manager_reachable m).
  { apply Model.reach_GetClient.
    apply (Model.reach_NewModelManager
             (Some (Model.NewModelConfigWithKeys "dk" "" "" "qk"))).
    by vm_compute. }
  split; [exact Hm |]. split; [by vm_compute |].
  exact (GetClient_spec m "deepseek" Hm).
Defined.

Lemma deepseek_request_names_qwen_model_witness :
  let cfg := Model.NewModelConfigWithKeys "dk" "" "" "qk" in
  let c := Model.DeepSeekClient
             (Model.mkConfig "deepseek" "dk" "deepseek-ai/DeepSeek-R1"
                             2000 Model.f0_7) in
  Model.main_client "dk" "qk" "deepseek" = inl (cfg, c) ∧
  ∃ req,
    Model.review_request cfg [] = inl req ∧
    Model.Chat_request c req = (Model.DeepSeekAPIURL, req) ∧
    Model.req_Model req = "qwen-coder-plus"%string.
Proof.
  intros cfg c.
  assert (Hmain : Model.main_client "dk" "qk" "deepseek" = inl (cfg, c))
    by (by vm_compute).
  split; [exact Hmain |].
  exact (deepseek_request_names_qwen_model "dk" "qk" cfg c [] Hmain).
Defined.

(** ** The command line *)

Lemma Generate_branch_IsValid f :
  is_Some (Generate_branch f) ↔ IsValid f = true.
Proof.
  unfold Generate_branch, IsValid. rewrite bool_decide_eq_true.
  unfold MarkdownFormat, HTMLFormat, PDFFormat.
  repeat case_decide; split; intros Hx; eauto.
  - by destruct Hx.
  - tauto.
Qed.

(** X23. [validateOptions] accepts the options exactly when the format is
    one of [markdown], [html] and [pdf] and the model is empty or one of
    [qwen], [deepseek], [openai] and [chatglm]. The options it accepts
    name a range to review and a format that [IsValid] holds of and that
    [Generate] has a branch for, so that [Generate] never answers them
    with its error. *)
Theorem validateOptions_spec opts :
  let r := Cli.validateOptions opts in
  (fst r = None ↔
     Cli.OutputFormat opts ∈ ["markdown"; "html"; "pdf"]%string ∧
     Cli.Model opts ∈
       [""; "qwen"; "deepseek"; "openai"; "chatglm"]%string) ∧
  (fst r = None →
     IsValid (Cli.OutputFormat (snd r)) = true ∧
     is_Some (Generate_branch (Cli.OutputFormat (snd r))) ∧
     (Cli.Files (snd r) ≠ EmptyString ∨
      Cli.CommitRange (snd r) ≠ EmptyString)) ∧
  (∀ f, IsValid f = true ↔ f ∈ ["markdown"; "html"; "pdf"]%string).
Proof.
  assert (Hvalid : ∀ f, IsValid f = true ↔
                        f ∈ ["markdown"; "html"; "pdf"]%string).
  { intros f. unfold IsValid. rewrite bool_decide_eq_true.
    rewrite !elem_of_cons, elem_of_nil.
    unfold MarkdownFormat, HTMLFormat, PDFFormat. tauto. }
  intros r. subst r. unfold Cli.validateOptions.
  set (opts' := if decide (Cli.Files opts = EmptyString ∧
                           Cli.CommitRange opts = EmptyString)
                then _ else opts).
  assert (Hf : Cli.OutputFormat opts' = Cli.OutputFormat opts)
    by (subst opts'; by case_decide).
  assert (Hm : Cli.Model opts' = Cli.Model opts)
    by (subst opts'; by case_decide).
  assert (Hr : Cli.Files opts' ≠ EmptyString ∨
               Cli.CommitRange opts' ≠ EmptyString).
  { subst opts'. case_decide as Hd; simpl; [by right |].
    destruct (decide (Cli.Files opts = EmptyString)); [right | left]; tauto. }
  rewrite Hf, Hm. clearbody opts'.
  destruct (bool_decide_reflect
              (Cli.OutputFormat opts ∈ ["markdown"; "html"; "pdf"]%string))
    as [Hfmt | Hfmt]; cbn [negb].
  2: { split_and!; [split; [done | tauto] | done | done]. }
  destruct (bool_decide_reflect (Cli.Model opts ≠ EmptyString))
    as [Hne | He]; cbn [andb].
  - destruct (bool_decide_reflect
                (Cli.Model opts ∈
                   ["qwen"; "deepseek"; "openai"; "chatglm"]%string))
      as [Hmod | Hmod]; cbn [negb fst snd].
    + split_and!; [| | done].
      * split; [intros _; split; [done | by right] | done].
      * intros _. rewrite Hf. split_and!; [by apply Hvalid | | done].
        by apply Generate_branch_IsValid, Hvalid.
    + split_and!; [| done | done].
      split; [done |]. intros [_ [? | ?]%elem_of_cons]; done.
  - cbn [fst snd]. split_and!; [| | done].
    + split; [intros _; split; [done |] | done].
      apply dec_stable in He. rewrite He. by left.
    + intros _. rewrite Hf. split_and!; [by apply Hvalid | | done].
      by apply Generate_branch_IsValid, Hvalid.
Qed.

(** ** The references of a push *)

Lemma all_chars_app P a b :
  all_chars P (a +:+ b) = all_chars P a && all_chars P b.
Proof.
  induction a as [| c a IH]; simpl; [done |].
  by rewrite IH, andb_assoc.
Qed.

Lemma all_chars_impl (P Q : ascii → bool) s :
  (∀ c, P c = true → Q c = true) →
  all_chars P s = true → all_chars Q s = true.
Proof.
  intros HPQ. induction s as [| c s IH]; simpl; [done |].
  rewrite !andb_true_iff. intros [? ?]. auto.
Qed.

Lemma Split_nonempty sep s : Split sep s ≠ [].
Proof.
  destruct s as [| c s]; simpl; [done |].
  destruct (Ascii.eqb c sep); [done |]. by destruct (Split sep s).
Qed.

Lemma Split_at_sep sep a b :
  all_chars (fun c => negb (Ascii.eqb c sep)) a = true →
  Split sep (a +:+ String sep b) = a :: Split sep b.
Proof.
  induction a as [| c a IH]; simpl.
  - intros _. by rewrite Ascii.eqb_refl.
  - rewrite andb_true_iff, negb_true_iff. intros [-> Ha]. by rewrite IH.
Qed.

Lemma Split_no_sep sep a :
  all_chars (fun c => negb (Ascii.eqb c sep)) a = true →
  Split sep a = [a].
Proof.
  induction a as [| c a IH]; simpl; [done |].
  rewrite andb_true_iff, negb_true_iff. intros [-> Ha]. by rewrite IH.
Qed.

Lemma word_no_space s :
  word s = true → all_chars (fun c => negb (Ascii.eqb c space)) s = true.
Proof.
  apply all_chars_impl. intros c. rewrite andb_true_iff. tauto.
Qed.

Lemma word_no_newline s :
  word s = true → all_chars (fun c => negb (Ascii.eqb c newline)) s = true.
Proof.
  apply all_chars_impl. intros c. rewrite andb_true_iff. tauto.
Qed.

Lemma words_fields r :
  words r = true →
  word (Name r) = true ∧ word (OldHash r) = true ∧
  word (NewHash r) = true ∧ word (Remote r) = true.
Proof. unfold words. rewrite !andb_true_iff. tauto. Qed.

Lemma ref_line_Split r :
  words r = true →
  Split space (ref_line r) = [OldHash r; NewHash r; Name r; Remote r].
Proof.
  intros (Hn & Ho & Hw & Hr)%words_fields. unfold ref_line.
  repeat (progress change (" " +:+ ?s)%string with (String space s)).
  rewrite !Split_at_sep by by apply word_no_space.
  by rewrite Split_no_sep by by apply word_no_space.
Qed.

Lemma ref_line_no_newline r :
  words r = true →
  all_chars (fun c => negb (Ascii.eqb c newline)) (ref_line r) = true.
Proof.
  intros (Hn & Ho & Hw & Hr)%words_fields. unfold ref_line.
  rewrite !all_chars_app, !andb_true_iff.
  repeat split; first [by apply word_no_newline | reflexivity].
Qed.

Lemma ref_line_nonempty r : ref_line r ≠ EmptyString.
Proof.
  unfold ref_line. by destruct (OldHash r).
Qed.

Lemma parseRefInfo_step_ref_line acc r :
  words r = true → parseRefInfo_step acc (ref_line r) = Some (acc ++ [r]).
Proof.
  intros Hr. unfold parseRefInfo_step.
  rewrite decide_False by apply ref_line_nonempty.
  rewrite ref_line_Split by done. simpl. by destruct r.
Qed.

(** X24. [parseRefInfo] reads back what was written: from the text that
    announces a list of references, one line for each with its four
    fields separated by a space, it returns that list, provided no field
    holds a space or a newline. *)
Theorem parseRefInfo_round_trip refs :
  Forall (fun r => words r = true) refs →
  parseRefInfo (ref_lines refs) = Some refs.
Proof.
  intros Hrefs. unfold parseRefInfo.
  enough (Hgen : ∀ acc,
    fold_left (fun acc line => refs ← acc; parseRefInfo_step refs line)
              (Split newline (ref_lines refs)) (Some acc) =
    Some (acc ++ refs)) by apply (Hgen []).
  induction Hrefs as [| r refs Hr _ IH]; intros acc; simpl.
  - by rewrite app_nil_r.
  - rewrite Split_at_sep by by apply ref_line_no_newline. simpl.
    rewrite parseRefInfo_step_ref_line by done.
    rewrite IH. by rewrite <- app_assoc.
Qed.

Lemma parseRefInfo_step_Some acc line :
  ∃ acc', parseRefInfo_step acc line = Some acc' ∧
    (acc' = acc ∨
     ∃ r rest, acc' = acc ++ [r] ∧ line ≠ EmptyString ∧
       Split space line = OldHash r :: NewHash r :: Name r :: Remote r :: rest).
Proof.
  unfold parseRefInfo_step. case_decide as Hl; [eauto |].
  destruct (Split space line) as [| a [| b [| c [| d rest]]]] eqn:Hs;
    simpl; eauto.
  eexists. split; [done |]. right.
  exists (mkRefInfo c a b d), rest. done.
Qed.

(** X25. [parseRefInfo] never indexes outside the fields of a line. It
    returns at most one reference for each line of its input, and each
    reference it returns comes from a non-empty line with at least four
    fields, of which it takes the third as name, the first two as hashes
    and the fourth as remote. *)
Theorem parseRefInfo_total info :
  ∃ refs,
    parseRefInfo info = Some refs ∧
    (length refs <= length (Split newline info))%nat ∧
    ∀ r, r ∈ refs →
      ∃ line rest, line ∈ Split newline info ∧ line ≠ EmptyString ∧
        Split space line =
          OldHash r :: NewHash r :: Name r :: Remote r :: rest.
Proof.
  unfold parseRefInfo.
  enough (Hgen : ∀ lines acc, ∃ refs,
    fold_left (fun acc line => refs ← acc; parseRefInfo_step refs line)
              lines (Some acc) = Some refs ∧
    (length refs <= length acc + length lines)%nat ∧
    ∀ r, r ∈ refs → r ∈ acc ∨
      ∃ line rest, line ∈ lines ∧ line ≠ EmptyString ∧
        Split space line =
          OldHash r :: NewHash r :: Name r :: Remote r :: rest).
  { destruct (Hgen (Split newline info) []) as (refs & Hf & Hlen & Hin).
    exists refs. split_and!; [done | done |].
    intros r Hr. destruct (Hin r Hr) as [Hnil | ?]; [| done].
    by apply elem_of_nil in Hnil. }
  induction lines as [| line lines IH]; intros acc; simpl.
  - exists acc. split_and!; [done | lia | eauto].
  - destruct (parseRefInfo_step_Some acc line) as (acc' & -> & Hacc').
    destruct (IH acc') as (refs & Hf & Hlen & Hin).
    exists refs. split_and!; [done | |].
    + destruct Hacc' as [-> | (r & rest & -> & _)]; [lia |].
      rewrite length_app in Hlen. simpl in Hlen. lia.
    + intros r Hr. destruct (Hin r Hr) as [Hr' | (l & rest & Hl & Hne & Hs)].
      * destruct Hacc' as [-> | (r' & rest & -> & Hne & Hs)]; [by left |].
        apply elem_of_app in Hr' as [? | ->%list_elem_of_singleton];
          [by left | right].
        exists line, rest. split_and!; [by left | done | done].
      * right. exists l, rest. split_and!; [by right | done | done].
Qed.

Lemma parseRefInfo_round_trip_witness :
  let refs :=
    [ mkRefInfo "refs/heads/main" "67a1" "0f3c" "refs/heads/main";
      mkRefInfo "refs/heads/dev" "0000" "9bd2" "refs/heads/dev" ] in
  Forall (fun r => words r = true) refs ∧
  parseRefInfo (ref_lines refs) = Some refs.
Proof.
  intros refs.
  assert (Hrefs : Forall (fun r => words r = true) refs)
    by (repeat constructor).
  split; [exact Hrefs |]. exact (parseRefInfo_round_trip refs Hrefs).
Defined.

(** ** The severities of a report *)

Lemma severityCount_fold issues m x :
  fold_left (fun m issue => incr (Severity issue) m) issues m !! x =
  if decide (severity_count issues x = 0) then m !! x
  else Some (default 0 (m !! x) + severity_count issues x).
Proof.
  revert m. induction issues as [| issue issues IH]; intros m.
  { done. }
  cbn [fold_left]. rewrite IH. unfold severity_count.
  rewrite filter_cons.
  destruct (decide (Severity issue = x)) as [<- | Hx].
  - unfold incr. rewrite lookup_insert_eq. cbn [length default]. unfold id.
    repeat case_decide; first [f_equal; lia | exfalso; lia].
  - unfold incr. by rewrite lookup_insert_ne.
Qed.

Lemma severityCount_lookup issues x c :
  severityCount issues !! x = Some c ↔
  0 < c ∧ c = severity_count issues x.
Proof.
  unfold severityCount. rewrite severityCount_fold, lookup_empty.
  assert (0 <= severity_count issues x) by (unfold severity_count; lia).
  case_decide as Hc; simpl.
  - split; [done |]. intros (? & ?). lia.
  - split.
    + intros [= <-]. lia.
    + by intros (_ & ->).
Qed.

Lemma sum_Z_cons x l : sum_Z (x :: l) = x + sum_Z l.
Proof. done. Qed.

Lemma sum_Z_Permutation l1 l2 : l1 ≡ₚ l2 → sum_Z l1 = sum_Z l2.
Proof. induction 1; simpl; lia. Qed.

Lemma sum_Z_incr k (m : gmap string Z) :
  sum_Z ((map_to_list (incr k m)).*2) = sum_Z ((map_to_list m).*2) + 1.
Proof.
  unfold incr. destruct (m !! k) as [c |] eqn:Hk; simpl.
  - rewrite <- insert_delete_eq.
    rewrite (sum_Z_Permutation _ ((k, c + 1) :: map_to_list (delete k m)).*2).
    2: { apply fmap_Permutation, map_to_list_insert, lookup_delete_eq. }
    rewrite (sum_Z_Permutation (map_to_list m).*2
               ((k, c) :: map_to_list (delete k m)).*2).
    2: { apply fmap_Permutation. symmetry. by apply map_to_list_delete. }
    rewrite !fmap_cons, !sum_Z_cons. cbn [snd]. lia.
  - rewrite (sum_Z_Permutation _ ((k, 0 + 1) :: map_to_list m).*2).
    2: { by apply fmap_Permutation, map_to_list_insert. }
    rewrite fmap_cons, sum_Z_cons. cbn [snd]. lia.
Qed.

Lemma sum_Z_severityCount issues :
  sum_Z ((map_to_list (severityCount issues)).*2) = Z.of_nat (length issues).
Proof.
  unfold severityCount.
  enough (Hgen : ∀ m : gmap string Z,
    sum_Z ((map_to_list
              (fold_left (fun m issue => incr (Severity issue) m) issues m)).*2)
    = sum_Z ((map_to_list m).*2) + Z.of_nat (length issues)).
  { rewrite Hgen, map_to_list_empty. simpl. lia. }
  induction issues as [| issue issues IH]; intros m; simpl.
  - lia.
  - rewrite IH, sum_Z_incr. lia.
Qed.

Section Severity_properties.

Variable range_int : gmap string Z -> list (string * Z).
Hypothesis range_int_perm : ∀ m, range_int m ≡ₚ map_to_list m.

(** X26. Whatever the order of iteration, the table of severities that
    [generateMarkdown] prints has one row for each severity that occurs in
    the issues and no other, the row gives the number of issues of that
    severity, and the numbers of the rows add up to the number of
    issues. *)
Theorem severityCount_rows issues :
  let rows := range_int (severityCount issues) in
  NoDup (rows.*1) ∧
  (∀ x c, (x, c) ∈ rows ↔ 0 < c ∧ c = severity_count issues x) ∧
  (∀ x, x ∈ rows.*1 ↔ ∃ issue, issue ∈ issues ∧ Severity issue = x) ∧
  sum_Z (rows.*2) = Z.of_nat (length issues).
Proof.
  intros rows. subst rows.
  assert (Hrow : ∀ x c, (x, c) ∈ range_int (severityCount issues) ↔
                        0 < c ∧ c = severity_count issues x).
  { intros x c. rewrite range_int_perm, elem_of_map_to_list.
    apply severityCount_lookup. }
  split_and!.
  - rewrite range_int_perm. apply NoDup_fst_map_to_list.
  - done.
  - intros x. rewrite list_elem_of_fmap. split.
    + intros ([x' c] & -> & Hin). apply Hrow in Hin as [Hpos ->]. simpl.
      unfold severity_count in Hpos.
      destruct (filter (λ issue, Severity issue = x') issues) as [| i l] eqn:Hf;
        [simpl in Hpos; lia |].
      assert (Hin : i ∈ filter (λ issue, Severity issue = x') issues)
        by (rewrite Hf; left).
      apply list_elem_of_filter in Hin as [? ?]. eauto.
    + intros (issue & Hin & Hs).
      exists (x, severity_count issues x). split; [done |]. apply Hrow.
      split; [| done]. unfold severity_count.
      assert (Hin' : issue ∈ filter (λ issue, Severity issue = x) issues)
        by (by apply list_elem_of_filter).
      destruct (filter _ issues); [by apply elem_of_nil in Hin' | simpl; lia].
  - rewrite (sum_Z_Permutation _ (map_to_list (severityCount issues)).*2).
    + apply sum_Z_severityCount.
    + apply fmap_Permutation, range_int_perm.
Qed.

End Severity_properties.

Lemma severityCount_rows_witness :
  let rows := sample_range (severityCount sample_issues) in
  rows ≡ₚ [("high", 1); ("low", 2); ("info", 1)]%string ∧
  NoDup (rows.*1) ∧
  (∀ x c, (x, c) ∈ rows ↔ 0 < c ∧ c = severity_count sample_issues x) ∧
  (∀ x, x ∈ rows.*1 ↔
        ∃ issue, issue ∈ sample_issues ∧ Severity issue = x) ∧
  sum_Z (rows.*2) = Z.of_nat (length sample_issues).
Proof.
  intros rows. split.
  - apply (bool_decide_unpack _). by vm_compute.
  - exact (severityCount_rows sample_range (@sample_range_perm Z)
             sample_issues).
Defined.

(** ** The difference of one file *)

Lemma append_cons x (a b : string) : String x a +:+ b = String x (a +:+ b).
Proof. done. Qed.

Lemma append_empty_l (a : string) : EmptyString +:+ a = a.
Proof. done. Qed.

Lemma append_assoc (a b c : string) : (a +:+ b) +:+ c = a +:+ (b +:+ c).
Proof.
  induction a as [| x a IH]; [done |]. by rewrite !append_cons, IH.
Qed.

Lemma append_empty_r (a : string) : a +:+ EmptyString = a.
Proof.
  induction a as [| x a IH]; [done |]. by rewrite append_cons, IH.
Qed.

Lemma extractFileDiff_loop_inside header lines fileDiff :
  ∃ section after,
    lines = section ++ after ∧
    extractFileDiff_loop header lines true fileDiff =
      fileDiff +:+ write_lines section ∧
    Forall (fun line => HasPrefix line "diff --git" = true →
                        Contains line header = true) section ∧
    (∀ line, head after = Some line →
       HasPrefix line "diff --git" = true ∧ Contains line header = false).
Proof.
  revert fileDiff. induction lines as [| line lines IH]; intros fileDiff.
  { exists [], []. simpl. by rewrite append_empty_r. }
  cbn [extractFileDiff_loop].
  destruct (Contains line header) eqn:Hc; cbn [negb andb].
  - destruct (IH ((fileDiff +:+ line) +:+ String newline EmptyString))
      as (section & after & -> & -> & Hs & Ha).
    exists (line :: section), after. split_and!; [done | | | done].
    + cbn [write_lines fold_right]. fold (write_lines section).
      by rewrite !append_assoc, append_cons, append_empty_l.
    + by constructor.
  - destruct (HasPrefix line "diff --git") eqn:Hp; cbn [andb].
    + exists [], (line :: lines). simpl. rewrite append_empty_r.
      split_and!; [done | done | done |]. by intros ? [= <-].
    + destruct (IH ((fileDiff +:+ line) +:+ String newline EmptyString))
        as (section & after & -> & -> & Hs & Ha).
      exists (line :: section), after. split_and!; [done | | | done].
      * cbn [write_lines fold_right]. fold (write_lines section).
        by rewrite !append_assoc, append_cons, append_empty_l.
      * constructor; [| done]. by rewrite Hp.
Qed.

(** X27. [extractFileDiff] returns a run of consecutive lines of the
    difference, each followed by a newline. The run starts at the first
    line that contains the header of the file, and is empty when there is
    none; it stops before the first later line that starts with
    [diff --git] and does not contain that header, and runs to the last
    line when there is none. *)
Theorem extractFileDiff_spec diff filePath :
  let header := diff_header filePath in
  ∃ before section after,
    Split newline diff = before ++ section ++ after ∧
    extractFileDiff diff filePath = write_lines section ∧
    Forall (fun line => Contains line header = false) before ∧
    (section = [] → after = []) ∧
    (∀ line, head section = Some line → Contains line header = true) ∧
    Forall (fun line => HasPrefix line "diff --git" = true →
                        Contains line header = true) section ∧
    (∀ line, head after = Some line →
       HasPrefix line "diff --git" = true ∧ Contains line header = false).
Proof.
  intros header. unfold extractFileDiff. fold header.
  generalize (Split newline diff) as lines.
  induction lines as [| line lines IH].
  { exists [], [], []. simpl. split_and!; by try constructor. }
  cbn [extractFileDiff_loop].
  destruct (Contains line header) eqn:Hc; cbn [negb andb].
  - destruct (extractFileDiff_loop_inside header lines
                ((EmptyString +:+ line) +:+ String newline EmptyString))
      as (section & after & -> & -> & Hs & Ha).
    exists [], (line :: section), after.
    split_and!; [done | | done | done | | | done].
    + cbn [write_lines fold_right]. fold (write_lines section).
      by rewrite !append_assoc, append_cons, !append_empty_l.
    + by intros ? [= <-].
    + by constructor.
  - rewrite andb_false_r. cbn [andb].
    destruct IH as (before & section & after & -> & -> & Hb & He & Hh & Hs & Ha).
    exists (line :: before), section, after.
    split_and!; [done | done | | done | done | done | done].
    by constructor.
Qed.
